(** * Matchmaking and session coordination engine of the random-chat server

    A shallow embedding of the Socket.IO servers of the repository:
    the production variant (the first server of [src/unnamed/part_001],
    with validation, rate limiting and the periodic cleanup) in the
    top-level definitions, and the handlers of [src/server.js] in
    [Module Basic].

    Conventions of the model.
    - A JavaScript [Map] whose iteration order is observable
      ([waitingUsers], [activeRooms]) is an insertion-ordered association
      list ([JsMap]); the maps that are only looked up, set and deleted
      ([socketToRoom], the rate-limit maps) are [gmap]s.
    - [Date.now()] is an integer [now : Z] handed to each event.
    - [uuidv4()] is a fresh-name supply: the counter [uuid] of the state.
    - [Math.random()] is an exact fraction in [0,1) ([Draw]);
      [randomIndex] floors the exact product with the length of the
      list, [randomIndex_binary64] the binary64 product of the source.
    - Strings are sequences of code units below 256.
    - Socket.IO itself is the pair ([sockets], [rooms]): the connected
      sockets and the adapter's group membership; what is emitted is
      appended to [outbox] with the set of sockets it is delivered to. *)

From Stdlib Require Import Ascii String.
From stdpp Require Import gmap strings list fin_maps pretty.

Local Open Scope Z_scope.

(** ** JavaScript [Map] with observable insertion order *)

Module JsMap.
Section ops.
Context {K V : Type} `{EqDecision K}.

Fixpoint get (k : K) (m : list (K * V)) : option V :=
  match m with
  | [] => None
  | (k', v) :: m' => if decide (k = k') then Some v else get k m'
  end.

Definition has (k : K) (m : list (K * V)) : bool :=
  bool_decide (is_Some (get k m)).

(** [Map.prototype.set]: an existing key keeps its position, a new key
    goes to the end. *)
Fixpoint set (k : K) (v : V) (m : list (K * V)) : list (K * V) :=
  match m with
  | [] => [(k, v)]
  | (k', v') :: m' =>
      if decide (k = k') then (k, v) :: m' else (k', v') :: set k v m'
  end.

Definition delete (k : K) (m : list (K * V)) : list (K * V) :=
  filter (λ e, e.1 ≠ k) m.

Definition keys (m : list (K * V)) : list K := m.*1.
End ops.
End JsMap.

(** ** Configuration ([CONFIG]) *)

Record Config := {
  MAX_WAITING_USERS : Z;
  MAX_ACTIVE_ROOMS : Z;
  QUEUE_TIMEOUT : Z;
  ROOM_TIMEOUT : Z;
  MAX_MESSAGE_LENGTH : Z;
  MAX_USERNAME_LENGTH : Z;
  MAX_INTERESTS : Z;
  MAX_TEXT_SIZE : Z;
  MAX_IMAGE_SIZE : Z;
  MAX_VIDEO_SIZE : Z;
  MESSAGE_RATE_LIMIT : Z;
  MESSAGE_RATE_WINDOW : Z;
  MEDIA_RATE_LIMIT : Z;
  MEDIA_RATE_WINDOW : Z
}.

(** The values of the source when no environment variable is set. *)
Definition CONFIG_default : Config := {|
  MAX_WAITING_USERS := 1000;
  MAX_ACTIVE_ROOMS := 500;
  QUEUE_TIMEOUT := 5 * 60 * 1000;
  ROOM_TIMEOUT := 30 * 60 * 1000;
  MAX_MESSAGE_LENGTH := 10000;
  MAX_USERNAME_LENGTH := 50;
  MAX_INTERESTS := 10;
  MAX_TEXT_SIZE := 50 * 1024;
  MAX_IMAGE_SIZE := 5 * 1024 * 1024;
  MAX_VIDEO_SIZE := 15 * 1024 * 1024;
  MESSAGE_RATE_LIMIT := 10;
  MESSAGE_RATE_WINDOW := 1000;
  MEDIA_RATE_LIMIT := 3;
  MEDIA_RATE_WINDOW := 5000
|}.

(** ** Data model *)

Record User := {
  username : string;
  gender : string;
  preferredGender : string;
  interests : list string;
  joinedAt : Z
}.

(** [{ socketId: ..., ...user }] *)
Record Member := {
  socketId : string;
  profile : User
}.

Record Room := {
  user1 : Member;
  user2 : Member;
  createdAt : Z
}.

Record Limits := {
  count : Z;
  windowStart : Z
}.

Record Message := {
  msg_id : nat;
  senderId : string;
  content : string;
  msg_type : string;
  timestamp : Z
}.

Record Partner := {
  p_username : string;
  p_gender : string;
  p_interests : list string
}.

Inductive Event :=
| EvError (message : string)
| EvSearching
| EvMatchFound (roomId : nat) (partner : Partner) (commonInterests : list string)
| EvNewMessage (m : Message)
| EvChatEnded (reason : string)
| EvWebrtcOffer (offer : string) (from : string)
| EvWebrtcAnswer (answer : string) (from : string)
| EvWebrtcIceCandidate (candidate : string) (from : string)
| EvPartnerTyping (isTyping : bool).

Record State := {
  waitingUsers : list (string * User);
  activeRooms : list (nat * Room);
  socketToRoom : gmap string nat;
  messageRateLimits : gmap string Limits;
  mediaRateLimits : gmap string Limits;
  sockets : gset string;
  rooms : gmap nat (gset string);
  uuid : nat;
  outbox : list (gset string * Event)
}.

Definition initial_state : State := {|
  waitingUsers := [];
  activeRooms := [];
  socketToRoom := ∅;
  messageRateLimits := ∅;
  mediaRateLimits := ∅;
  sockets := ∅;
  rooms := ∅;
  uuid := 0;
  outbox := []
|}.

(** Field updates of the state. *)

Definition with_waitingUsers (w : list (string * User)) (s : State) : State :=
  {| waitingUsers := w; activeRooms := activeRooms s;
     socketToRoom := socketToRoom s;
     messageRateLimits := messageRateLimits s;
     mediaRateLimits := mediaRateLimits s; sockets := sockets s;
     rooms := rooms s; uuid := uuid s; outbox := outbox s |}.

Definition with_activeRooms (a : list (nat * Room)) (s : State) : State :=
  {| waitingUsers := waitingUsers s; activeRooms := a;
     socketToRoom := socketToRoom s;
     messageRateLimits := messageRateLimits s;
     mediaRateLimits := mediaRateLimits s; sockets := sockets s;
     rooms := rooms s; uuid := uuid s; outbox := outbox s |}.

Definition with_socketToRoom (m : gmap string nat) (s : State) : State :=
  {| waitingUsers := waitingUsers s; activeRooms := activeRooms s;
     socketToRoom := m;
     messageRateLimits := messageRateLimits s;
     mediaRateLimits := mediaRateLimits s; sockets := sockets s;
     rooms := rooms s; uuid := uuid s; outbox := outbox s |}.

Definition with_messageRateLimits (m : gmap string Limits) (s : State) : State :=
  {| waitingUsers := waitingUsers s; activeRooms := activeRooms s;
     socketToRoom := socketToRoom s;
     messageRateLimits := m;
     mediaRateLimits := mediaRateLimits s; sockets := sockets s;
     rooms := rooms s; uuid := uuid s; outbox := outbox s |}.

Definition with_mediaRateLimits (m : gmap string Limits) (s : State) : State :=
  {| waitingUsers := waitingUsers s; activeRooms := activeRooms s;
     socketToRoom := socketToRoom s;
     messageRateLimits := messageRateLimits s;
     mediaRateLimits := m; sockets := sockets s;
     rooms := rooms s; uuid := uuid s; outbox := outbox s |}.

Definition with_sockets (k : gset string) (s : State) : State :=
  {| waitingUsers := waitingUsers s; activeRooms := activeRooms s;
     socketToRoom := socketToRoom s;
     messageRateLimits := messageRateLimits s;
     mediaRateLimits := mediaRateLimits s; sockets := k;
     rooms := rooms s; uuid := uuid s; outbox := outbox s |}.

Definition with_rooms (r : gmap nat (gset string)) (s : State) : State :=
  {| waitingUsers := waitingUsers s; activeRooms := activeRooms s;
     socketToRoom := socketToRoom s;
     messageRateLimits := messageRateLimits s;
     mediaRateLimits := mediaRateLimits s; sockets := sockets s;
     rooms := r; uuid := uuid s; outbox := outbox s |}.

Definition with_uuid (n : nat) (s : State) : State :=
  {| waitingUsers := waitingUsers s; activeRooms := activeRooms s;
     socketToRoom := socketToRoom s;
     messageRateLimits := messageRateLimits s;
     mediaRateLimits := mediaRateLimits s; sockets := sockets s;
     rooms := rooms s; uuid := n; outbox := outbox s |}.

Definition with_outbox (o : list (gset string * Event)) (s : State) : State :=
  {| waitingUsers := waitingUsers s; activeRooms := activeRooms s;
     socketToRoom := socketToRoom s;
     messageRateLimits := messageRateLimits s;
     mediaRateLimits := mediaRateLimits s; sockets := sockets s;
     rooms := rooms s; uuid := uuid s; outbox := o |}.

(** ** Socket.IO primitives *)

(** The sockets joined to a group of the adapter. *)
Definition group (roomId : nat) (s : State) : gset string :=
  default ∅ (rooms s !! roomId).

(** [socket.emit(ev)] *)
Definition emit (h : string) (ev : Event) (s : State) : State :=
  with_outbox (outbox s ++ [({[h]}, ev)]) s.

(** [io.to(roomId).emit(ev)]: every socket of the group. *)
Definition emit_to (roomId : nat) (ev : Event) (s : State) : State :=
  with_outbox (outbox s ++ [(group roomId s, ev)]) s.

(** [socket.broadcast.to(roomId).emit(ev)]: the group but the sender. *)
Definition broadcast_to (h : string) (roomId : nat) (ev : Event) (s : State)
  : State :=
  with_outbox (outbox s ++ [(group roomId s ∖ {[h]}, ev)]) s.

(** [socket.join(roomId)] *)
Definition join (h : string) (roomId : nat) (s : State) : State :=
  with_rooms (<[roomId := {[h]} ∪ group roomId s]> (rooms s)) s.

(** [const sock = io.sockets.sockets.get(h); if (sock) sock.leave(roomId)] *)
Definition leave_if_connected (h : string) (roomId : nat) (s : State) : State :=
  if decide (h ∈ sockets s)
  then with_rooms (<[roomId := group roomId s ∖ {[h]}]> (rooms s)) s
  else s.

(** A new connection: the socket enters [io.sockets.sockets]. *)
Definition connect (h : string) (s : State) : State :=
  with_sockets ({[h]} ∪ sockets s) s.

(** What Socket.IO does before it fires ['disconnect']: the socket leaves
    every group and [io.sockets.sockets]. *)
Definition transport_close (h : string) (s : State) : State :=
  with_sockets (sockets s ∖ {[h]})
    (with_rooms ((λ g : gset string, g ∖ {[h]}) <$> rooms s) s).

(** ** The production server ([src/unnamed/part_001], first server) *)

Section Engine.
Variable CONFIG : Config.

(** *** Rate limiter *)

Definition rateLimitMap (isMedia : bool) (s : State) : gmap string Limits :=
  if isMedia then mediaRateLimits s else messageRateLimits s.

Definition rateLimit (isMedia : bool) : Z :=
  if isMedia then MEDIA_RATE_LIMIT CONFIG else MESSAGE_RATE_LIMIT CONFIG.

Definition rateWindow (isMedia : bool) : Z :=
  if isMedia then MEDIA_RATE_WINDOW CONFIG else MESSAGE_RATE_WINDOW CONFIG.

Definition with_rateLimitMap (isMedia : bool) (m : gmap string Limits)
  (s : State) : State :=
  if isMedia then with_mediaRateLimits m s else with_messageRateLimits m s.

(** The window the call counts in: the stored one, or a new one when none
    is stored or the stored one has expired. *)
Definition currentWindow (isMedia : bool) (now : Z) (stored : option Limits)
  : Limits :=
  let userLimits := default {| count := 0; windowStart := now |} stored in
  if decide (now - windowStart userLimits > rateWindow isMedia)
  then {| count := 0; windowStart := now |}
  else userLimits.

Definition checkRateLimit (socketId : string) (isMedia : bool) (now : Z)
  (s : State) : bool * State :=
  let userLimits := currentWindow isMedia now (rateLimitMap isMedia s !! socketId) in
  let userLimits := {| count := count userLimits + 1;
                       windowStart := windowStart userLimits |} in
  let s' := with_rateLimitMap isMedia
              (<[socketId := userLimits]> (rateLimitMap isMedia s)) s in
  (bool_decide (count userLimits <= rateLimit isMedia), s').

(** *** Validation *)

(** [validation.data]: the sanitised profile. *)
Record Profile := {
  pf_username : string;
  pf_gender : string;
  pf_preferredGender : string;
  pf_interests : list string
}.

(** The payload of [join-queue] as it arrives.  [ud_username] is [None]
    when the field is absent or not a string, [ud_interests] is [None] when
    the field is not an array, and an element of the array is [None] when
    it is not a string. *)
Record UserData := {
  ud_username : option string;
  ud_gender : string;
  ud_preferredGender : string;
  ud_interests : option (list (option string))
}.

Definition strlen (x : string) : Z := Z.of_nat (String.length x).

(** White space of [String.prototype.trim] below code unit 256. *)
Definition is_space (c : ascii) : bool :=
  let n := nat_of_ascii c in
  bool_decide ((9 ≤ n ≤ 13)%nat ∨ n = 32%nat ∨ n = 160%nat).

Fixpoint trimStart (x : string) : string :=
  match x with
  | String c x' => if is_space c then trimStart x' else x
  | EmptyString => EmptyString
  end.

Definition trim (x : string) : string :=
  String.rev (trimStart (String.rev (trimStart x))).

Definition validateUserData (userData : option UserData) : string + Profile :=
  match userData with
  | None => inl "No user data provided"
  | Some userData =>
    match ud_username userData with
    | None => inl "Invalid username"
    | Some name =>
      if decide (name = "") then inl "Invalid username"
      else if decide (strlen name > MAX_USERNAME_LENGTH CONFIG)
      then inl "Username too long"
      else if negb (bool_decide (ud_gender userData ∈ ["male"; "female"]))
      then inl "Invalid gender"
      else if negb (bool_decide
                      (ud_preferredGender userData ∈ ["male"; "female"; "any"]))
      then inl "Invalid preferred gender"
      else
        match ud_interests userData with
        | None => inl "Interests must be an array"
        | Some raw =>
          if decide (Z.of_nat (length raw) > MAX_INTERESTS CONFIG)
          then inl "Too many interests"
          else
            let validInterests :=
              take (Z.to_nat (MAX_INTERESTS CONFIG))
                (omap (λ i : option string,
                         match i with
                         | Some i =>
                             if decide (strlen i > 0 ∧ strlen i <= 50)
                             then Some i else None
                         | None => None
                         end) raw) in
            inr {| pf_username :=
                     String.substring 0
                       (Z.to_nat (MAX_USERNAME_LENGTH CONFIG)) (trim name);
                   pf_gender := ud_gender userData;
                   pf_preferredGender := ud_preferredGender userData;
                   pf_interests := validInterests |}
        end
    end
  end.

(** The payload of [send-message]: [null]/[undefined], a value that is not
    an object, or an object with its [type] and [content] fields
    ([None]: absent; for [content] also: not a string). *)
Inductive Payload :=
| PayNullish
| PayPrimitive
| PayObject (type : option string) (content : option string).

Definition payload_type (data : Payload) : option string :=
  match data with PayObject t _ => t | _ => None end.

Definition payload_content (data : Payload) : option string :=
  match data with PayObject _ c => c | _ => None end.

(** [data.type || 'text'] *)
Definition type_or_text (data : Payload) : string :=
  match payload_type data with
  | Some t => if decide (t = "") then "text" else t
  | None => "text"
  end.

Fixpoint startsWith (p x : string) : bool :=
  match p, x with
  | EmptyString, _ => true
  | String a p', String b x' => bool_decide (a = b) && startsWith p' x'
  | String _ _, EmptyString => false
  end.

Definition comma : ascii := ascii_of_nat 44.
Definition equals_sign : ascii := ascii_of_nat 61.

Fixpoint takeUntilComma (l : list ascii) : list ascii :=
  match l with
  | [] => []
  | c :: l' => if decide (c = comma) then [] else c :: takeUntilComma l'
  end.

Fixpoint afterComma (l : list ascii) : option (list ascii) :=
  match l with
  | [] => None
  | c :: l' => if decide (c = comma) then Some l' else afterComma l'
  end.

(** Four times [getBase64Size]: the source returns
    [length * 3 / 4 - padding], which need not be an integer. *)
Definition getBase64Size_x4 (base64String : string) : Z :=
  let chars := list_ascii_of_string base64String in
  let base64Data :=
    match afterComma chars with
    | Some rest => takeUntilComma rest
    | None => chars
    end in
  let padding := length (filter (λ c, c = equals_sign) base64Data) in
  Z.of_nat (length base64Data) * 3 - 4 * Z.of_nat padding.

(** UTF-8 length of a string of code units below 256. *)
Definition byteLength (x : string) : Z :=
  Z.of_nat (foldr (λ c n, if decide (nat_of_ascii c < 128)%nat
                          then S n else S (S n)) 0%nat
              (list_ascii_of_string x)).

(** [None]: valid; [Some error]: rejected.  (To the two [too large]
    messages the source appends the limit in megabytes, a floating-point
    figure that is left out here.) *)
Definition validateMessage (data : Payload) : option string :=
  match data with
  | PayNullish | PayPrimitive => Some "Invalid message data"
  | PayObject _ content =>
    let type := type_or_text data in
    if negb (bool_decide (type ∈ ["text"; "image"; "video"]))
    then Some "Invalid message type"
    else
      match content with
      | None => Some "Invalid message content"
      | Some content =>
        if decide (content = "") then Some "Invalid message content"
        else if decide (type = "text") then
          if decide (strlen content > MAX_MESSAGE_LENGTH CONFIG)
          then Some "Message too long"
          else if decide (byteLength content > MAX_TEXT_SIZE CONFIG)
          then Some "Message size too large"
          else None
        else if decide (type = "image") then
          if negb (startsWith "data:image/" content)
          then Some "Invalid image format"
          else if decide (getBase64Size_x4 content > 4 * MAX_IMAGE_SIZE CONFIG)
          then Some "Image too large"
          else if negb (existsb (λ t, startsWith ("data:image/" +:+ t +:+ ";base64,") content)
                          ["jpeg"; "jpg"; "png"; "gif"; "webp"])
          then Some "Unsupported image type. Use JPEG, PNG, GIF, or WebP"
          else None
        else
          if negb (startsWith "data:video/" content)
          then Some "Invalid video format"
          else if decide (getBase64Size_x4 content > 4 * MAX_VIDEO_SIZE CONFIG)
          then Some "Video too large"
          else if negb (existsb (λ t, startsWith ("data:video/" +:+ t +:+ ";base64,") content)
                          ["mp4"; "webm"; "ogg"])
          then Some "Unsupported video type. Use MP4, WebM, or OGG"
          else None
      end
  end.

(** *** Matcher *)

(** The value of [Math.random()]: the fraction [num / den] of [0,1). *)
Record Draw := {
  num : nat;
  den : nat
}.

Definition valid_draw (d : Draw) : Prop := (num d < den d)%nat.

(** [Math.floor(Math.random() * n)], the product taken exactly. *)
Definition randomIndex (d : Draw) (n : nat) : nat :=
  (num d * n / den d)%nat.

(** The source multiplies in binary64.  A number of [0,1) that
    [Math.random] can return is [num / 2^e] with [num < 2^53] and
    [e <= 1074]. *)
Definition binary64_draw (d : Draw) : Prop :=
  (num d < den d)%nat ∧ Z.of_nat (num d) < 2 ^ 53
  ∧ ∃ e : nat, (e ≤ 1074)%nat ∧ Z.of_nat (den d) = 2 ^ Z.of_nat e.

(** The multiple of [2^s] nearest to [P], the even one of two that are
    equally near, for [0 < s]. *)
Definition roundToEven (P s : Z) : Z :=
  let q := P / 2 ^ s in
  let r := P mod 2 ^ s in
  let half := 2 ^ (s - 1) in
  if decide (r < half) then q * 2 ^ s
  else if decide (half < r) then (q + 1) * 2 ^ s
  else if Z.even q then q * 2 ^ s else (q + 1) * 2 ^ s.

(** The binary64 product [Math.random() * n], as a numerator over
    [den d]: the exact numerator [P] when it has at most 53 significant
    bits, else [P] rounded to 53 significant bits.  ([n] is the length of
    an array, below [2^32], and is a binary64 number itself.) *)
Definition times_binary64 (d : Draw) (n : nat) : Z :=
  let P := Z.of_nat (num d) * Z.of_nat n in
  let s := Z.log2 P - 52 in
  if decide (0 < s) then roundToEven P s else P.

(** [Math.floor(Math.random() * n)] as the source computes it. *)
Definition randomIndex_binary64 (d : Draw) (n : nat) : nat :=
  Z.to_nat (times_binary64 d n / Z.of_nat (den d)).

(** An element of [compatibleMatches]. *)
Record Candidate := {
  c_user : User;
  c_socketId : string;
  c_score : nat;
  c_commonInterests : list string
}.

(** The object [findMatch] returns. *)
Record Match := {
  m_user : User;
  m_socketId : string;
  m_commonInterests : list string
}.

(** One iteration of the loop over [waitingUsers.entries()]: the pushed
    candidate, if any. *)
Definition scanEntry (user : User) (socketId : string)
  (entry : string * User) : option Candidate :=
  let '(waitingSocketId, waitingUser) := entry in
  if decide (waitingSocketId = socketId) then None
  else
    let currentUserGenderMatch :=
      bool_decide (preferredGender user = "any")
      || bool_decide (preferredGender user = gender waitingUser) in
    let waitingUserGenderMatch :=
      bool_decide (preferredGender waitingUser = "any")
      || bool_decide (preferredGender waitingUser = gender user) in
    if currentUserGenderMatch && waitingUserGenderMatch then
      let commonInterests :=
        filter (λ interest, interest ∈ interests waitingUser)
          (interests user) in
      let matchScore := length commonInterests in
      Some {| c_user := waitingUser; c_socketId := waitingSocketId;
              c_score := matchScore; c_commonInterests := commonInterests |}
    else None.

Definition compatibleMatches (user : User) (socketId : string)
  (waiting : list (string * User)) : list Candidate :=
  omap (scanEntry user socketId) waiting.

(** [Math.max(...compatibleMatches.map(m => m.score))], on the non-empty
    list it is applied to. *)
Definition highestScore (cs : list Candidate) : nat :=
  max_list (c_score <$> cs).

Definition bestMatches (cs : list Candidate) : list Candidate :=
  filter (λ m, c_score m = highestScore cs) cs.

Definition selected (m : Candidate) : Match :=
  {| m_user := c_user m; m_socketId := c_socketId m;
     m_commonInterests := c_commonInterests m |}.

(** [null] is [None]; an index outside [bestMatches] makes the source
    throw inside its [try], which returns [null] too. *)
Definition findMatch (user : User) (socketId : string) (d : Draw)
  (waiting : list (string * User)) : option Match :=
  let compatible := compatibleMatches user socketId waiting in
  if decide (length compatible = 0%nat) then None
  else
    let best := bestMatches compatible in
    let randomIndex := randomIndex d (length best) in
    selected <$> best !! randomIndex.

(** *** Event handlers *)

Definition mkUser (validData : Profile) (now : Z) : User :=
  {| username := pf_username validData; gender := pf_gender validData;
     preferredGender := pf_preferredGender validData;
     interests := pf_interests validData; joinedAt := now |}.

Definition partnerOf (u : User) : Partner :=
  {| p_username := username u; p_gender := gender u;
     p_interests := interests u |}.

Definition join_queue (h : string) (userData : option UserData) (now : Z)
  (d : Draw) (s : State) : State :=
  match validateUserData userData with
  | inl error => emit h (EvError error) s
  | inr validData =>
    if JsMap.has h (waitingUsers s) || bool_decide (is_Some (socketToRoom s !! h))
    then emit h (EvError "Already in queue or chat") s
    else
      let user := mkUser validData now in
      match findMatch user h d (waitingUsers s) with
      | Some match_ =>
        let roomId := uuid s in
        let s := with_uuid (S (uuid s)) s in
        let s := with_waitingUsers
                   (JsMap.delete (m_socketId match_) (waitingUsers s)) s in
        let s := join h roomId s in
        if decide (m_socketId match_ ∈ sockets s) then
          let s := join (m_socketId match_) roomId s in
          let s := with_activeRooms
                     (JsMap.set roomId
                        {| user1 := {| socketId := h; profile := user |};
                           user2 := {| socketId := m_socketId match_;
                                       profile := m_user match_ |};
                           createdAt := now |} (activeRooms s)) s in
          let s := with_socketToRoom
                     (<[m_socketId match_ := roomId]>
                        (<[h := roomId]> (socketToRoom s))) s in
          let commonInterests := m_commonInterests match_ in
          let s := emit h (EvMatchFound roomId (partnerOf (m_user match_))
                             commonInterests) s in
          emit (m_socketId match_)
            (EvMatchFound roomId (partnerOf user) commonInterests) s
        else
          let s := with_waitingUsers (JsMap.set h user (waitingUsers s)) s in
          emit h EvSearching s
      | None =>
        let s := with_waitingUsers (JsMap.set h user (waitingUsers s)) s in
        emit h EvSearching s
      end
  end.

Definition leave_queue (h : string) (s : State) : State :=
  with_waitingUsers (JsMap.delete h (waitingUsers s)) s.

Definition isMediaOf (data : Payload) : bool :=
  bool_decide (payload_type data = Some "image")
  || bool_decide (payload_type data = Some "video").

(** [Math.ceil(window / 1000)] *)
Definition waitTime (isMedia : bool) : Z := - ((- rateWindow isMedia) / 1000).

Definition rateLimitMessage (isMedia : bool) : string :=
  "Too many " +:+ (if isMedia then "media" else "message")
  +:+ "s. Please wait " +:+ pretty (waitTime isMedia) +:+ " seconds.".

Definition send_message (h : string) (data : Payload) (now : Z) (s : State)
  : State :=
  match data with
  | PayNullish =>
    (* [data.type] throws; the [catch] reports it *)
    emit h (EvError "Failed to send message") s
  | _ =>
    let isMedia := isMediaOf data in
    let '(allowed, s) := checkRateLimit h isMedia now s in
    if negb allowed then emit h (EvError (rateLimitMessage isMedia)) s
    else
      match validateMessage data with
      | Some error => emit h (EvError error) s
      | None =>
        match socketToRoom s !! h with
        | None => emit h (EvError "Not in a chat room") s
        | Some roomId =>
          if negb (JsMap.has roomId (activeRooms s)) then
            let s := emit h (EvError "Chat room no longer exists") s in
            with_socketToRoom (delete h (socketToRoom s)) s
          else
            let message :=
              {| msg_id := uuid s; senderId := h;
                 content := default "" (payload_content data);
                 msg_type := type_or_text data; timestamp := now |} in
            let s := with_uuid (S (uuid s)) s in
            emit_to roomId (EvNewMessage message) s
        end
      end
  end.

(** The three signalling handlers and [typing] share one shape: relay to
    the other members of the group when the sender is bound to a room that
    exists.  [data] is [None] for a [null] payload, whose field access
    throws inside the [try]. *)
Definition relay_to_partner (h : string) (ev : option Event) (s : State)
  : State :=
  match socketToRoom s !! h with
  | Some roomId =>
    if JsMap.has roomId (activeRooms s) then
      match ev with
      | Some ev => broadcast_to h roomId ev s
      | None => s
      end
    else s
  | None => s
  end.

Definition webrtc_offer (h : string) (data : option string) (s : State) : State :=
  relay_to_partner h ((λ offer, EvWebrtcOffer offer h) <$> data) s.

Definition webrtc_answer (h : string) (data : option string) (s : State) : State :=
  relay_to_partner h ((λ answer, EvWebrtcAnswer answer h) <$> data) s.

Definition webrtc_ice_candidate (h : string) (data : option string) (s : State)
  : State :=
  relay_to_partner h ((λ candidate, EvWebrtcIceCandidate candidate h) <$> data) s.

Definition typing (h : string) (isTyping : bool) (s : State) : State :=
  relay_to_partner h (Some (EvPartnerTyping isTyping)) s.

(** The clean-up of a room that [end-chat] and [cleanupStaleRooms] share:
    both bindings go, both members that are still connected leave the
    group. *)
Definition unbind_and_leave (roomId : nat) (room : Room) (s : State) : State :=
  let s := with_socketToRoom
             (delete (socketId (user2 room))
                (delete (socketId (user1 room)) (socketToRoom s))) s in
  let s := leave_if_connected (socketId (user1 room)) roomId s in
  leave_if_connected (socketId (user2 room)) roomId s.

Definition end_chat (h : string) (s : State) : State :=
  match socketToRoom s !! h with
  | None => s
  | Some roomId =>
    let s := emit_to roomId (EvChatEnded "User left the chat") s in
    let s := match JsMap.get roomId (activeRooms s) with
             | Some room => unbind_and_leave roomId room s
             | None => s
             end in
    with_activeRooms (JsMap.delete roomId (activeRooms s)) s
  end.

(** The [if (room)] block of the ['disconnect'] handler: the partner's
    binding goes and the partner, if still connected, leaves the group. *)
Definition unbind_partner (h : string) (roomId : nat) (s : State) : State :=
  match JsMap.get roomId (activeRooms s) with
  | Some room =>
    let partnerSocketId :=
      if decide (socketId (user1 room) = h)
      then socketId (user2 room) else socketId (user1 room) in
    let s := with_socketToRoom (delete partnerSocketId (socketToRoom s)) s in
    leave_if_connected partnerSocketId roomId s
  | None => s
  end.

(** The ['disconnect'] handler; Socket.IO has closed the socket before it
    runs ([transport_close]). *)
Definition on_disconnect (h : string) (s : State) : State :=
  let s := with_waitingUsers (JsMap.delete h (waitingUsers s)) s in
  let s := with_messageRateLimits (delete h (messageRateLimits s)) s in
  let s := with_mediaRateLimits (delete h (mediaRateLimits s)) s in
  match socketToRoom s !! h with
  | Some roomId =>
    let s := broadcast_to h roomId (EvChatEnded "Partner disconnected") s in
    let s := unbind_partner h roomId s in
    let s := with_socketToRoom (delete h (socketToRoom s)) s in
    with_activeRooms (JsMap.delete roomId (activeRooms s)) s
  | None => s
  end.

Definition disconnect (h : string) (s : State) : State :=
  on_disconnect h (transport_close h s).

(** *** Periodic cleanup *)

(** A [for ... of map.entries()] loop that deletes at most the entry it
    visits runs its body once on every entry of the map as it was when
    the loop began: a fold over that list. *)

Definition cleanupWaitingUsers (now : Z) (s : State) : State :=
  foldl (λ s '(socketId, user),
           if decide (now - joinedAt user > QUEUE_TIMEOUT CONFIG)
           then with_waitingUsers (JsMap.delete socketId (waitingUsers s)) s
           else s)
        s (waitingUsers s).

Definition evictStaleRoom (now : Z) (s : State) (entry : nat * Room) : State :=
  let '(roomId, room) := entry in
  if decide (now - createdAt room > ROOM_TIMEOUT CONFIG) then
    (* Notify users *)
    let s := emit_to roomId (EvChatEnded "Session timeout") s in
    (* Clean up *)
    let s := unbind_and_leave roomId room s in
    with_activeRooms (JsMap.delete roomId (activeRooms s)) s
  else s.

Definition cleanupStaleRooms (now : Z) (s : State) : State :=
  foldl (evictStaleRoom now) s (activeRooms s).

Definition purgeLimits (now window : Z) (m : gmap string Limits)
  : gmap string Limits :=
  filter (λ e, ¬ (now - windowStart e.2 > window * 10)) m.

Definition cleanupRateLimits (now : Z) (s : State) : State :=
  let s := with_messageRateLimits
             (purgeLimits now (MESSAGE_RATE_WINDOW CONFIG) (messageRateLimits s)) s in
  with_mediaRateLimits
    (purgeLimits now (MEDIA_RATE_WINDOW CONFIG) (mediaRateLimits s)) s.

(** [Array.prototype.sort] with the comparator [(a, b) => key(a) - key(b)]
    is a stable ascending sort; insertion keeps equal keys in their
    order. *)
Fixpoint insertByKey {A} (key : A → Z) (x : A) (l : list A) : list A :=
  match l with
  | [] => [x]
  | y :: l' => if decide (key x <= key y) then x :: y :: l'
               else y :: insertByKey key x l'
  end.

Definition sortByKey {A} (key : A → Z) (l : list A) : list A :=
  foldr (insertByKey key) [] l.

(** The first half of [enforceMemoryLimits].  The flag is [true] when the
    loop reads past the end of [sortedUsers] (a negative ceiling), where
    the source throws and the rest of the function is skipped. *)
Definition enforceWaitingLimit (s : State) : State * bool :=
  if decide (Z.of_nat (length (waitingUsers s)) > MAX_WAITING_USERS CONFIG) then
    let excess := Z.to_nat (Z.of_nat (length (waitingUsers s))
                            - MAX_WAITING_USERS CONFIG) in
    let sortedUsers := sortByKey (λ e : string * User, joinedAt e.2)
                         (waitingUsers s) in
    let s := foldl (λ s (e : string * User),
                      with_waitingUsers (JsMap.delete e.1 (waitingUsers s)) s)
               s (take excess sortedUsers) in
    (s, bool_decide (length sortedUsers < excess)%nat)
  else (s, false).

Definition evictOldestRoom (s : State) (entry : nat * Room) : State :=
  let '(roomId, room) := entry in
  let s := with_socketToRoom
             (delete (socketId (user2 room))
                (delete (socketId (user1 room)) (socketToRoom s))) s in
  with_activeRooms (JsMap.delete roomId (activeRooms s)) s.

Definition enforceRoomLimit (s : State) : State :=
  if decide (Z.of_nat (length (activeRooms s)) > MAX_ACTIVE_ROOMS CONFIG) then
    let excess := Z.to_nat (Z.of_nat (length (activeRooms s))
                            - MAX_ACTIVE_ROOMS CONFIG) in
    let sortedRooms := sortByKey (λ e : nat * Room, createdAt e.2)
                         (activeRooms s) in
    foldl evictOldestRoom s (take excess sortedRooms)
  else s.

Definition enforceMemoryLimits (s : State) : State :=
  let '(s, threw) := enforceWaitingLimit s in
  if threw then s else enforceRoomLimit s.

(** The body of the [setInterval] callback. *)
Definition cleanup (now : Z) (s : State) : State :=
  enforceMemoryLimits
    (cleanupRateLimits now (cleanupStaleRooms now (cleanupWaitingUsers now s))).

(** *** The engine as a transition system *)

Inductive Op :=
| OpConnect (h : string)
| OpJoinQueue (h : string) (userData : option UserData) (now : Z) (d : Draw)
| OpLeaveQueue (h : string)
| OpSendMessage (h : string) (data : Payload) (now : Z)
| OpWebrtcOffer (h : string) (data : option string)
| OpWebrtcAnswer (h : string) (data : option string)
| OpWebrtcIceCandidate (h : string) (data : option string)
| OpEndChat (h : string)
| OpTyping (h : string) (isTyping : bool)
| OpDisconnect (h : string)
| OpCleanupWaitingUsers (now : Z)
| OpCleanupStaleRooms (now : Z)
| OpCleanupRateLimits (now : Z)
| OpEnforceMemoryLimits
| OpCleanup (now : Z).

Definition run (op : Op) (s : State) : State :=
  match op with
  | OpConnect h => connect h s
  | OpJoinQueue h userData now d => join_queue h userData now d s
  | OpLeaveQueue h => leave_queue h s
  | OpSendMessage h data now => send_message h data now s
  | OpWebrtcOffer h data => webrtc_offer h data s
  | OpWebrtcAnswer h data => webrtc_answer h data s
  | OpWebrtcIceCandidate h data => webrtc_ice_candidate h data s
  | OpEndChat h => end_chat h s
  | OpTyping h isTyping => typing h isTyping s
  | OpDisconnect h => disconnect h s
  | OpCleanupWaitingUsers now => cleanupWaitingUsers now s
  | OpCleanupStaleRooms now => cleanupStaleRooms now s
  | OpCleanupRateLimits now => cleanupRateLimits now s
  | OpEnforceMemoryLimits => enforceMemoryLimits s
  | OpCleanup now => cleanup now s
  end.

(** The state after a history of events, oldest first. *)
Definition run_all (ops : list Op) (s : State) : State :=
  foldl (λ s op, run op s) s ops.

(** Successive [checkRateLimit] calls of one connection and one traffic
    class at the given times: the answers, oldest first, and the state
    they leave. *)
Fixpoint checkRateLimit_seq (socketId : string) (isMedia : bool)
  (times : list Z) (s : State) : list bool * State :=
  match times with
  | [] => ([], s)
  | now :: times' =>
    let '(allowed, s) := checkRateLimit socketId isMedia now s in
    let '(rest, s) := checkRateLimit_seq socketId isMedia times' s in
    (allowed :: rest, s)
  end.

(** The call at [now] starts a window of its own: nothing is stored for the
    connection, or what is stored began more than the window duration
    ago. *)
Definition opens_window (socketId : string) (isMedia : bool) (now : Z)
  (s : State) : Prop :=
  match rateLimitMap isMedia s !! socketId with
  | None => True
  | Some old => now - windowStart old > rateWindow isMedia
  end.

End Engine.

(** ** The server of [src/server.js] *)

Module Basic.

(** The payload is copied without validation; the model takes payloads
    whose fields have the expected types.  [findMatch] is the function
    above (the [commonInterests] field of its result is not returned in
    this variant, the handler computes the same list again), and nothing
    is done when the matched socket is gone except skipping its [join]
    and its notification. *)
Definition join_queue (h : string) (userData : Profile) (now : Z) (d : Draw)
  (s : State) : State :=
  let user := mkUser userData now in
  match findMatch user h d (waitingUsers s) with
  | Some match_ =>
    let roomId := uuid s in
    let s := with_uuid (S (uuid s)) s in
    let s := with_waitingUsers
               (JsMap.delete (m_socketId match_) (waitingUsers s)) s in
    let s := join h roomId s in
    let s := if decide (m_socketId match_ ∈ sockets s)
             then join (m_socketId match_) roomId s else s in
    let s := with_activeRooms
               (JsMap.set roomId
                  {| user1 := {| socketId := h; profile := user |};
                     user2 := {| socketId := m_socketId match_;
                                 profile := m_user match_ |};
                     createdAt := now |} (activeRooms s)) s in
    let s := with_socketToRoom
               (<[m_socketId match_ := roomId]>
                  (<[h := roomId]> (socketToRoom s))) s in
    let commonInterests :=
      filter (λ interest, interest ∈ interests (m_user match_))
        (interests user) in
    let s := emit h (EvMatchFound roomId (partnerOf (m_user match_))
                       commonInterests) s in
    if decide (m_socketId match_ ∈ sockets s)
    then emit (m_socketId match_)
           (EvMatchFound roomId (partnerOf user) commonInterests) s
    else s
  | None =>
    let s := with_waitingUsers (JsMap.set h user (waitingUsers s)) s in
    emit h EvSearching s
  end.

(** The user object the handler builds from the payload (l.213-228): the
    fields as they arrive, for a payload whose username is a string and
    whose interests are an array of strings. *)
Definition copied (userData : UserData) : option Profile :=
  name ← ud_username userData;
  raw ← ud_interests userData;
  tags ← mapM id raw;
  Some {| pf_username := name; pf_gender := ud_gender userData;
          pf_preferredGender := ud_preferredGender userData;
          pf_interests := tags |}.

(** [leave-queue] (l.347-353) *)
Definition leave_queue (h : string) (s : State) : State :=
  with_waitingUsers (JsMap.delete h (waitingUsers s)) s.

(** [send-message] (l.359-390): no validation, no rate limit and no look
    at [activeRooms]; the model takes payloads that are objects with a
    string [content]. *)
Definition send_message (h : string) (type : option string)
  (content : string) (now : Z) (s : State) : State :=
  match socketToRoom s !! h with
  | Some roomId =>
    let message :=
      {| msg_id := uuid s; senderId := h; content := content;
         msg_type := type_or_text (PayObject type (Some content));
         timestamp := now |} in
    let s := with_uuid (S (uuid s)) s in
    emit_to roomId (EvNewMessage message) s
  | None => s
  end.

(** The signalling handlers and [typing] (l.396-460, 507-516) relay to
    the other members of the group of the sender's binding; the model
    takes payloads that are objects with string fields. *)
Definition relay_to_partner (h : string) (ev : Event) (s : State) : State :=
  match socketToRoom s !! h with
  | Some roomId => broadcast_to h roomId ev s
  | None => s
  end.

Definition webrtc_offer (h offer : string) (s : State) : State :=
  relay_to_partner h (EvWebrtcOffer offer h) s.

Definition webrtc_answer (h answer : string) (s : State) : State :=
  relay_to_partner h (EvWebrtcAnswer answer h) s.

Definition webrtc_ice_candidate (h candidate : string) (s : State) : State :=
  relay_to_partner h (EvWebrtcIceCandidate candidate h) s.

Definition typing (h : string) (isTyping : bool) (s : State) : State :=
  relay_to_partner h (EvPartnerTyping isTyping) s.

(** [end-chat] (l.466-501) *)
Definition end_chat (h : string) (s : State) : State :=
  match socketToRoom s !! h with
  | None => s
  | Some roomId =>
    let s := emit_to roomId (EvChatEnded "User left the chat") s in
    let s := match JsMap.get roomId (activeRooms s) with
             | Some room => unbind_and_leave roomId room s
             | None => s
             end in
    with_activeRooms (JsMap.delete roomId (activeRooms s)) s
  end.

(** The ['disconnect'] handler (l.522-567); Socket.IO has closed the
    socket before it runs. *)
Definition on_disconnect (h : string) (s : State) : State :=
  let s := with_waitingUsers (JsMap.delete h (waitingUsers s)) s in
  match socketToRoom s !! h with
  | Some roomId =>
    let s := broadcast_to h roomId (EvChatEnded "Partner disconnected") s in
    let s := unbind_partner h roomId s in
    let s := with_socketToRoom (delete h (socketToRoom s)) s in
    with_activeRooms (JsMap.delete roomId (activeRooms s)) s
  | None => s
  end.

Definition disconnect (h : string) (s : State) : State :=
  on_disconnect h (transport_close h s).

(** The server as a transition system; it runs nothing periodically. *)
Inductive Op :=
| OpConnect (h : string)
| OpJoinQueue (h : string) (userData : Profile) (now : Z) (d : Draw)
| OpLeaveQueue (h : string)
| OpSendMessage (h : string) (type : option string) (content : string)
    (now : Z)
| OpWebrtcOffer (h offer : string)
| OpWebrtcAnswer (h answer : string)
| OpWebrtcIceCandidate (h candidate : string)
| OpEndChat (h : string)
| OpTyping (h : string) (isTyping : bool)
| OpDisconnect (h : string).

Definition run (op : Op) (s : State) : State :=
  match op with
  | OpConnect h => connect h s
  | OpJoinQueue h userData now d => join_queue h userData now d s
  | OpLeaveQueue h => leave_queue h s
  | OpSendMessage h type content now => send_message h type content now s
  | OpWebrtcOffer h offer => webrtc_offer h offer s
  | OpWebrtcAnswer h answer => webrtc_answer h answer s
  | OpWebrtcIceCandidate h candidate => webrtc_ice_candidate h candidate s
  | OpEndChat h => end_chat h s
  | OpTyping h isTyping => typing h isTyping s
  | OpDisconnect h => disconnect h s
  end.

Definition run_all (ops : list Op) (s : State) : State :=
  foldl (λ s op, run op s) s ops.

(** Socket.IO delivers the events of a socket only while it is
    connected, and gives a new connection an id that no connected socket
    has; [Math.random] returns a number of [0,1). *)
Definition enabled (s : State) (op : Op) : bool :=
  match op with
  | OpConnect h => bool_decide (h ∉ sockets s)
  | OpJoinQueue h _ _ d =>
      bool_decide (h ∈ sockets s) && bool_decide (num d < den d)%nat
  | OpLeaveQueue h | OpSendMessage h _ _ _
  | OpWebrtcOffer h _ | OpWebrtcAnswer h _ | OpWebrtcIceCandidate h _
  | OpEndChat h | OpTyping h _ | OpDisconnect h =>
      bool_decide (h ∈ sockets s)
  end.

(** A history in which every event is enabled when it happens. *)
Fixpoint admissible (ops : list Op) (s : State) : bool :=
  match ops with
  | [] => true
  | op :: ops' => enabled s op && admissible ops' (run op s)
  end.

End Basic.

#[global] Instance User_eq_dec : EqDecision User.
Proof. solve_decision. Defined.

(** ** Vocabulary of the matcher's specification *)

(** Gender compatibility in both directions, as the specification words
    it. *)
Definition bidirectionally_compatible (user waitingUser : User) : Prop :=
  (preferredGender user = "any" ∨ preferredGender user = gender waitingUser)
  ∧ (preferredGender waitingUser = "any"
     ∨ preferredGender waitingUser = gender user).

(** The entries of the requester's interest list that the waiting user
    lists too ([commonInterests] of the source), and their number, an
    entry that the requester repeats counted each time: the score
    [findMatch] gives the waiting user. *)
Definition sharedInterests (user waitingUser : User) : list string :=
  filter (λ interest, interest ∈ interests waitingUser) (interests user).

Definition matchScoreOf (user waitingUser : User) : nat :=
  length (sharedInterests user waitingUser).

(** The score as the specification words it: the size of the
    intersection of the two interest sets. *)
Definition intersectionScore (user waitingUser : User) : nat :=
  size (list_to_set (interests user) ∩ list_to_set (interests waitingUser)
        : gset string).

(** A waiting entry the matcher may pair the requester [socketId] with. *)
Definition eligible (user : User) (socketId : string)
  (waiting : list (string * User)) (entry : string * User) : Prop :=
  entry ∈ waiting ∧ entry.1 ≠ socketId
  ∧ bidirectionally_compatible user entry.2.

(** What [findMatch] returns when it selects that entry. *)
Definition matchOf (user : User) (entry : string * User) : Match :=
  {| m_user := entry.2; m_socketId := entry.1;
     m_commonInterests := sharedInterests user entry.2 |}.

(** A draw that [Math.random] can return and at which flooring the
    binary64 product gives the index that flooring the exact product
    gives, for a list of [n] elements. *)
Definition faithful_draw (d : Draw) (n : nat) : Prop :=
  binary64_draw d ∧ randomIndex_binary64 d n = randomIndex d n.

(** What the specification says of the matcher's choice, for a given
    [score] of a waiting user: what is returned is an eligible entry of
    largest score; every eligible entry of largest score is returned for
    some draw (a JavaScript array has fewer than [2^32] elements, and
    then the draw is one at which the binary64 arithmetic of the source
    gives the same index); an eligible entry whose score is larger than
    that of every other eligible entry is returned for every draw. *)
Definition selects_best (score : User → User → nat) (user : User)
  (socketId : string) (waiting : list (string * User)) : Prop :=
  (∀ d m,
     findMatch user socketId d waiting = Some m →
     ∃ entry, m = matchOf user entry
       ∧ eligible user socketId waiting entry
       ∧ ∀ entry', eligible user socketId waiting entry' →
           (score user entry'.2 ≤ score user entry.2)%nat)
  ∧ (∀ entry,
       eligible user socketId waiting entry →
       (∀ entry', eligible user socketId waiting entry' →
          (score user entry'.2 ≤ score user entry.2)%nat) →
       ∃ d, valid_draw d
         ∧ (Z.of_nat (length waiting) < 2 ^ 32 →
            faithful_draw d
              (length (bestMatches (compatibleMatches user socketId waiting))))
         ∧ findMatch user socketId d waiting = Some (matchOf user entry))
  ∧ (∀ entry,
       eligible user socketId waiting entry →
       (∀ entry', eligible user socketId waiting entry' → entry' ≠ entry →
          (score user entry'.2 < score user entry.2)%nat) →
       ∀ d, valid_draw d →
         findMatch user socketId d waiting = Some (matchOf user entry)).

(** ** Invariants *)

(** No connection is in the waiting queue twice, and none is in the queue
    while bound to a session. *)
Definition queue_invariant (s : State) : Prop :=
  NoDup (JsMap.keys (waitingUsers s))
  ∧ ∀ h, h ∈ JsMap.keys (waitingUsers s) → socketToRoom s !! h = None.

(** [s'] has no waiting entry and no binding that [s] does not have. *)
Definition shrinks (s s' : State) : Prop :=
  JsMap.keys (waitingUsers s') `sublist_of` JsMap.keys (waitingUsers s)
  ∧ socketToRoom s' ⊆ socketToRoom s.

(** The two connections of a session. *)
Definition members (room : Room) : list string :=
  [socketId (user1 room); socketId (user2 room)].

(** A registered session has two distinct members, each bound to it in
    [socketToRoom] and joined to its Socket.IO group. *)
Definition room_ok (s : State) (entry : nat * Room) : Prop :=
  socketId (user1 entry.2) ≠ socketId (user2 entry.2)
  ∧ ∀ u, u ∈ members entry.2 →
      socketToRoom s !! u = Some entry.1 ∧ u ∈ group entry.1 s.

Definition session_invariant (s : State) : Prop :=
  NoDup (JsMap.keys (activeRooms s))
  ∧ ∀ entry, entry ∈ activeRooms s → room_ok s entry.

(** From [s] to [s'], every binding to a session other than [gone] stays,
    and so does the bound connection's membership of that session's
    group. *)
Definition keeps (gone : option nat) (s s' : State) : Prop :=
  ∀ u r, socketToRoom s !! u = Some r → gone ≠ Some r →
    socketToRoom s' !! u = Some r ∧ (u ∈ group r s → u ∈ group r s').

(** Every binding points to a registered session of which the bound
    connection is a member, and to a room id that [uuidv4] has already
    handed out. *)
Definition binding_invariant (s : State) : Prop :=
  ∀ h roomId, socketToRoom s !! h = Some roomId →
    (roomId < uuid s)%nat
    ∧ ∃ room, (roomId, room) ∈ activeRooms s ∧ h ∈ members room.

(** [m] is among the recipients of an [ev] emitted between [s] and [s']. *)
Definition notified (s s' : State) (m : string) (ev : Event) : Prop :=
  ∃ recipients,
    (recipients, ev) ∈ drop (length (outbox s)) (outbox s') ∧ m ∈ recipients.

(** A [new-message] is emitted between [s] and [s']. *)
Definition delivers_message (s s' : State) : Prop :=
  ∃ recipients m,
    (recipients, EvNewMessage m) ∈ drop (length (outbox s)) (outbox s').

(** The session [roomId] is past its time limit at [now]. *)
Definition timed_out (CONFIG : Config) (now : Z) (entry : nat * Room) : Prop :=
  now - createdAt entry.2 > ROOM_TIMEOUT CONFIG.

#[global] Instance timed_out_dec CONFIG now entry :
  Decision (timed_out CONFIG now entry).
Proof. unfold timed_out. apply _. Defined.

(** ** Scenarios *)

Definition profile_payload (name own wanted : string) (tags : list string)
  : option UserData :=
  Some {| ud_username := Some name; ud_gender := own;
          ud_preferredGender := wanted;
          ud_interests := Some (Some <$> tags) |}.

Definition first_draw : Draw := {| num := 0; den := 1 |}.

(** Two connections that are matched at time 0 into session 0. *)
Definition matched_history : list Op :=
  [ OpConnect "a"; OpConnect "b";
    OpJoinQueue "a" (profile_payload "Al" "male" "female" ["music"; "gaming"])
      0 first_draw;
    OpJoinQueue "b" (profile_payload "Bea" "female" "male" ["gaming"; "travel"])
      0 first_draw ].

(** The two keep talking until the room is one millisecond older than
    [ROOM_TIMEOUT] of [CONFIG_default] (1 800 000 ms). *)
Definition chatting_history : list Op :=
  matched_history ++
  [ OpSendMessage "a" (PayObject None (Some "hi")) 900000;
    OpSendMessage "b" (PayObject (Some "text") (Some "hello")) 1800000 ].

(** [MAX_ACTIVE_ROOMS=1] in the environment. *)
Definition CONFIG_one_room : Config := {|
  MAX_WAITING_USERS := 1000;
  MAX_ACTIVE_ROOMS := 1;
  QUEUE_TIMEOUT := 5 * 60 * 1000;
  ROOM_TIMEOUT := 30 * 60 * 1000;
  MAX_MESSAGE_LENGTH := 10000;
  MAX_USERNAME_LENGTH := 50;
  MAX_INTERESTS := 10;
  MAX_TEXT_SIZE := 50 * 1024;
  MAX_IMAGE_SIZE := 5 * 1024 * 1024;
  MAX_VIDEO_SIZE := 15 * 1024 * 1024;
  MESSAGE_RATE_LIMIT := 10;
  MESSAGE_RATE_WINDOW := 1000;
  MEDIA_RATE_LIMIT := 3;
  MEDIA_RATE_WINDOW := 5000
|}.

(** A second pair is matched at time 10 into session 1. *)
Definition two_rooms_history : list Op :=
  matched_history ++
  [ OpConnect "c"; OpConnect "d";
    OpJoinQueue "c" (profile_payload "Cy" "male" "any" []) 10 first_draw;
    OpJoinQueue "d" (profile_payload "Di" "female" "any" []) 10 first_draw ].

(** A queue that still holds "ghost", whose socket is gone, when "a" asks
    for a match. *)
Definition stale_candidate_state : State :=
  with_waitingUsers
    [("ghost", {| username := "Gus"; gender := "female";
                  preferredGender := "any"; interests := [];
                  joinedAt := 0 |})]
    (connect "a" initial_state).

Definition al_profile : Profile :=
  {| pf_username := "Al"; pf_gender := "male"; pf_preferredGender := "female";
     pf_interests := ["music"; "gaming"] |}.

Definition al : User :=
  {| username := "Al"; gender := "male"; preferredGender := "female";
     interests := ["music"; "gaming"]; joinedAt := 5 |}.

Definition bea : User :=
  {| username := "Bea"; gender := "female"; preferredGender := "male";
     interests := ["gaming"; "travel"]; joinedAt := 0 |}.

Definition cat : User :=
  {| username := "Cat"; gender := "female"; preferredGender := "any";
     interests := ["music"]; joinedAt := 1 |}.

Definition eve : User :=
  {| username := "Eve"; gender := "female"; preferredGender := "any";
     interests := []; joinedAt := 2 |}.

(** Ten ordinary messages of one connection within one second. *)
Definition burst : list Z := [0; 1; 2; 3; 4; 5; 6; 7; 8; 9].

(** A binding to a session that is not registered. *)
Definition stale_binding_state : State :=
  with_socketToRoom {["a" := 7%nat]} (connect "a" initial_state).

(** Session 0 of [matched_history] as it is registered. *)
Definition room0 : Room :=
  {| user1 := {| socketId := "b";
                 profile := {| username := "Bea"; gender := "female";
                               preferredGender := "male";
                               interests := ["gaming"; "travel"];
                               joinedAt := 0 |} |};
     user2 := {| socketId := "a";
                 profile := {| username := "Al"; gender := "male";
                               preferredGender := "female";
                               interests := ["music"; "gaming"];
                               joinedAt := 0 |} |};
     createdAt := 0 |}.

Definition matched_state : State :=
  run_all CONFIG_default matched_history initial_state.

Definition chatting_state : State :=
  run_all CONFIG_default chatting_history initial_state.

Definition two_rooms_state : State :=
  run_all CONFIG_one_room two_rooms_history initial_state.

Definition hi : Payload := PayObject None (Some "hi").

(** ** Further vocabulary *)

(** The member of a session that is not [h]: [partnerSocketId] of the
    ['disconnect'] handler. *)
Definition partnerSocketId (room : Room) (h : string) : string :=
  if decide (socketId (user1 room) = h)
  then socketId (user2 room) else socketId (user1 room).

(** [s'] has no session and no group member that [s] does not have, and
    has handed out at least as many ids. *)
Definition narrows (s s' : State) : Prop :=
  (∀ r, group r s' ⊆ group r s)
  ∧ (∀ e, e ∈ activeRooms s' → e ∈ activeRooms s)
  ∧ (uuid s ≤ uuid s')%nat.

(** The group of an id that is still to be handed out is empty, a
    registered session has an id that was handed out, and its group holds
    nobody but its members. *)
Definition group_invariant (s : State) : Prop :=
  (∀ r, (uuid s ≤ r)%nat → group r s = ∅)
  ∧ ∀ e, e ∈ activeRooms s →
      (e.1 < uuid s)%nat ∧ ∀ u, u ∈ group e.1 s → u ∈ members e.2.

(** Socket.IO delivers the events of a socket only while it is
    connected, and gives a new connection an id that no connected socket
    has; the sweeps run at any time. *)
Definition enabled (s : State) (op : Op) : bool :=
  match op with
  | OpConnect h => bool_decide (h ∉ sockets s)
  | OpJoinQueue h _ _ _ | OpLeaveQueue h | OpSendMessage h _ _
  | OpWebrtcOffer h _ | OpWebrtcAnswer h _ | OpWebrtcIceCandidate h _
  | OpEndChat h | OpTyping h _ | OpDisconnect h =>
      bool_decide (h ∈ sockets s)
  | OpCleanupWaitingUsers _ | OpCleanupStaleRooms _ | OpCleanupRateLimits _
  | OpEnforceMemoryLimits | OpCleanup _ => true
  end.

(** A history in which every event is enabled when it happens. *)
Fixpoint admissible (CONFIG : Config) (ops : list Op) (s : State) : bool :=
  match ops with
  | [] => true
  | op :: ops' => enabled s op && admissible CONFIG ops' (run CONFIG op s)
  end.

(** Whatever the server stores under a connection id is stored under an
    id of [S]. *)
Definition confined (S : gset string) (s : State) : Prop :=
  (∀ h, h ∈ JsMap.keys (waitingUsers s) → h ∈ S)
  ∧ (∀ h, is_Some (socketToRoom s !! h) → h ∈ S)
  ∧ (∀ h, is_Some (messageRateLimits s !! h) → h ∈ S)
  ∧ (∀ h, is_Some (mediaRateLimits s !! h) → h ∈ S)
  ∧ (∀ r, group r s ⊆ S).

(** The server holds no queue entry, binding, rate-limit window or group
    membership of a connection that is closed. *)
Definition all_connected (s : State) : Prop := confined (sockets s) s.

(** A list in ascending order of [key]. *)
Fixpoint ascending {A} (key : A → Z) (l : list A) : Prop :=
  match l with
  | [] => True
  | x :: l' => Forall (λ y, key x <= key y) l' ∧ ascending key l'
  end.

(** No two entries of the queue belong to connections that the matcher
    would pair. *)
Definition no_compatible_pair (w : list (string * User)) : Prop :=
  ∀ e e', e ∈ w → e' ∈ w → e.1 ≠ e'.1 →
    ¬ bidirectionally_compatible e.2 e'.2.

(** Every [join-queue] of the history draws its random number from
    [0,1), as [Math.random] does. *)
Definition fair_draws (ops : list Op) : Prop :=
  Forall (λ op, match op with
                | OpJoinQueue _ _ _ d => valid_draw d
                | _ => True
                end) ops.

(** The queue of [s] holds nothing but entries of [w], in their order. *)
Definition queue_within (w : list (string * User)) (s : State) : Prop :=
  waitingUsers s `sublist_of` w.



(** ** Further scenarios *)

(** "a" is connected and waiting, "b" is connected. *)
Definition waiting_history : list Op :=
  [ OpConnect "a"; OpConnect "b";
    OpJoinQueue "a" (profile_payload "Al" "male" "female" ["music"; "gaming"])
      0 first_draw ].

Definition waiting_state : State :=
  run_all CONFIG_default waiting_history initial_state.

Definition bea_profile : Profile :=
  {| pf_username := "Bea"; pf_gender := "female"; pf_preferredGender := "male";
     pf_interests := ["gaming"; "travel"] |}.

(** What [findMatch] returns to "b" in [waiting_state]. *)
Definition al_match : Match :=
  {| m_user := {| username := "Al"; gender := "male";
                  preferredGender := "female";
                  interests := ["music"; "gaming"]; joinedAt := 0 |};
     m_socketId := "a";
     m_commonInterests := ["gaming"] |}.

(** A payload whose username is two spaces. *)
Definition blank_name : UserData :=
  {| ud_username := Some "  "; ud_gender := "male";
     ud_preferredGender := "any"; ud_interests := Some [] |}.

(** "a" and "b" chat in session 0 while "c" waits for a man. *)
Definition third_waiting_history : list Op :=
  matched_history ++
  [ OpConnect "c";
    OpJoinQueue "c" (profile_payload "Cy" "female" "male" ["music"]) 20
      first_draw ].

Definition third_waiting_state : State :=
  run_all CONFIG_default third_waiting_history initial_state.

(** The queue holds "ghost", whose socket is gone, before "b", who is
    connected, when "a" asks for a match. *)
Definition ghost_and_bea_state : State :=
  with_waitingUsers
    [("ghost", {| username := "Gus"; gender := "female";
                  preferredGender := "any"; interests := [];
                  joinedAt := 0 |});
     ("b", bea)]
    (connect "b" (connect "a" initial_state)).

Definition plain_al : option UserData :=
  profile_payload "Al" "male" "female" [].

Definition plain_al_profile : Profile :=
  {| pf_username := "Al"; pf_gender := "male"; pf_preferredGender := "female";
     pf_interests := [] |}.

(** What [findMatch] returns to "a" in [ghost_and_bea_state] on the
    first draw. *)
Definition ghost_match : Match :=
  {| m_user := {| username := "Gus"; gender := "female";
                  preferredGender := "any"; interests := [];
                  joinedAt := 0 |};
     m_socketId := "ghost";
     m_commonInterests := [] |}.

(** Two men who look for a woman wait side by side. *)
Definition two_waiting_history : list Op :=
  waiting_history ++
  [ OpConnect "c";
    OpJoinQueue "c" (profile_payload "Cy" "male" "female" ["music"]) 7
      {| num := 1; den := 2 |} ].

(** A requester that lists "art" three times, and a queue of two women:
    "x" lists "art", "y" lists "books" and "chess". *)
Definition repeating_payload : option UserData :=
  profile_payload "Rex" "male" "female"
    ["art"; "art"; "art"; "books"; "chess"].

Definition repeating_profile : Profile :=
  {| pf_username := "Rex"; pf_gender := "male";
     pf_preferredGender := "female";
     pf_interests := ["art"; "art"; "art"; "books"; "chess"] |}.

Definition art_entry : string * User :=
  ("x", {| username := "Xia"; gender := "female"; preferredGender := "any";
           interests := ["art"]; joinedAt := 0 |}).

Definition books_chess_entry : string * User :=
  ("y", {| username := "Yu"; gender := "female"; preferredGender := "any";
           interests := ["books"; "chess"]; joinedAt := 1 |}).

(** "b" is connected and neither waits nor chats. *)
Definition idle_state : State := connect "b" initial_state.

(** A payload with neither [type] nor [content], and one of a type the
    server does not know. *)
Definition empty_object : Payload := PayObject None None.

Definition audio : Payload := PayObject (Some "audio") (Some "x").

(** A payload that [validateUserData] accepts and changes: the username
    is padded, one interest is empty. *)
Definition padded_al : UserData :=
  {| ud_username := Some " Al "; ud_gender := "male";
     ud_preferredGender := "female";
     ud_interests := Some [Some "music"; Some ""; Some "gaming"] |}.

Definition padded_al_profile : Profile :=
  {| pf_username := " Al "; pf_gender := "male";
     pf_preferredGender := "female";
     pf_interests := ["music"; ""; "gaming"] |}.


(** * Theorems *)

(** ** Rate limiter *)

Section RateLimiter.
Variable CONFIG : Config.
Variables (socketId : string) (isMedia : bool).

Local Abbreviation L := (rateLimit CONFIG isMedia).
Local Abbreviation W := (rateWindow CONFIG isMedia).
Local Abbreviation stored s := (rateLimitMap isMedia s !! socketId).
Local Abbreviation call := (checkRateLimit CONFIG socketId isMedia).
Local Abbreviation calls := (checkRateLimit_seq CONFIG socketId isMedia).

Lemma rateLimitMap_with m s :
  rateLimitMap isMedia (with_rateLimitMap isMedia m s) = m.
Proof. by destruct isMedia. Qed.

(** What one call stores and what it answers, in terms of the window it
    counts in. *)
Lemma checkRateLimit_spec now s :
  let w := currentWindow CONFIG isMedia now (stored s) in
  stored (call now s).2
    = Some {| count := count w + 1; windowStart := windowStart w |}
  ∧ (call now s).1 = bool_decide (count w + 1 <= L).
Proof.
  cbn. rewrite rateLimitMap_with, lookup_insert_eq. done.
Qed.

Lemma currentWindow_expired now o :
  now - windowStart (default {| count := 0; windowStart := now |} o) > W →
  currentWindow CONFIG isMedia now o = {| count := 0; windowStart := now |}.
Proof. intros. unfold currentWindow. by rewrite decide_True. Qed.

Lemma currentWindow_live now o :
  ¬ now - windowStart (default {| count := 0; windowStart := now |} o) > W →
  currentWindow CONFIG isMedia now o
    = default {| count := 0; windowStart := now |} o.
Proof. intros. unfold currentWindow. by rewrite decide_False. Qed.

(** Calls that all fall in the stored window count on from its counter. *)
Lemma checkRateLimit_seq_live times : ∀ s old,
  stored s = Some old →
  (∀ t, t ∈ times → t - windowStart old <= W) →
  (calls times s).1
    = (λ k, bool_decide (count old + Z.of_nat k <= L)) <$> seq 1 (length times)
  ∧ stored (calls times s).2
    = Some {| count := count old + Z.of_nat (length times);
              windowStart := windowStart old |}.
Proof.
  induction times as [|t times IH]; intros s old Hs Hin.
  - cbn. rewrite Hs. destruct old; cbn. split; [done|]. do 2 f_equal. lia.
  - cbn [checkRateLimit_seq].
    destruct (checkRateLimit_spec t s) as [Hst Hans].
    destruct (call t s) as [a s1] eqn:E. cbn [fst snd] in *.
    rewrite Hs in Hst, Hans.
    rewrite currentWindow_live in Hst, Hans
      by (cbn; specialize (Hin t ltac:(left)); lia).
    cbn [default] in Hst, Hans.
    destruct (IH s1 _ Hst) as [IH1 IH2].
    { cbn. intros t' Ht'. apply Hin. by right. }
    destruct (calls times s1) as [r s2]. cbn [fst snd count windowStart] in *.
    split.
    + rewrite IH1, Hans. cbn [length seq fmap list_fmap]. f_equal.
      rewrite <- (fmap_S_seq 1), <- list_fmap_compose. apply list_fmap_ext.
      intros _ k _. cbn. apply bool_decide_ext. unfold id. lia.
    + rewrite IH2. cbn [length]. unfold id. do 2 f_equal. lia.
Qed.

(** A call that is answered [false] found a stored window and left its
    start where it was. *)
Lemma checkRateLimit_rejected now s :
  1 <= L →
  (call now s).1 = false →
  ∃ old, stored s = Some old
    ∧ ¬ now - windowStart old > W
    ∧ L <= count old
    ∧ stored (call now s).2
        = Some {| count := count old + 1; windowStart := windowStart old |}.
Proof.
  intros HL Hrej. destruct (checkRateLimit_spec now s) as [Hst Hans].
  rewrite Hans in Hrej. apply bool_decide_eq_false in Hrej.
  unfold currentWindow in *. case_decide as Hexp; [cbn in Hrej; lia|].
  destruct (stored s) as [old|]; cbn in *; [|lia].
  exists old. repeat split; [done|lia|done].
Qed.

Lemma checkRateLimit_opens now s :
  opens_window CONFIG socketId isMedia now s →
  stored (call now s).2 = Some {| count := 1; windowStart := now |}
  ∧ (call now s).1 = bool_decide (1 <= L).
Proof.
  unfold opens_window. intros Hop.
  destruct (checkRateLimit_spec now s) as [-> ->].
  assert (currentWindow CONFIG isMedia now (stored s)
          = {| count := 0; windowStart := now |}) as ->; [|done].
  unfold currentWindow. destruct (stored s) as [old|]; cbn in *.
  - by rewrite decide_True.
  - by destruct (decide _).
Qed.

(** C7. A call of the rate limiter starts the count again at zero and
    restarts the window exactly when more than the window duration has
    passed since the stored window start, then adds one and allows the
    message exactly when the new count is at most the limit.  Hence, of
    the calls made within one window, the k-th is allowed exactly when
    k is at most the limit (the first [L] pass, call [L+1] is rejected),
    and the first call after the window has elapsed is allowed again. *)
Theorem checkRateLimit_fixed_window :
  (∀ now s,
     let old := default {| count := 0; windowStart := now |} (stored s) in
     ∃ new, stored (call now s).2 = Some new
       ∧ (now - windowStart old > W →
          count new = 0 + 1 ∧ windowStart new = now)
       ∧ (¬ now - windowStart old > W →
          count new = count old + 1 ∧ windowStart new = windowStart old)
       ∧ ((call now s).1 = true ↔ count new <= L))
  ∧ (∀ t0 times s,
       opens_window CONFIG socketId isMedia t0 s →
       (∀ t, t ∈ times → t - t0 <= W) →
       ∀ k, (k < S (length times))%nat →
         (calls (t0 :: times) s).1 !! k
           = Some (bool_decide (Z.of_nat (S k) <= L)))
  ∧ (∀ now old s,
       1 <= L → stored s = Some old → now - windowStart old > W →
       (call now s).1 = true).
Proof.
  split; [|split].
  - intros now s old.
    destruct (checkRateLimit_spec now s) as [Hst Hans].
    eexists. split; [exact Hst|]. cbn [count windowStart].
    split; [|split].
    + intros Hexp. by rewrite currentWindow_expired.
    + intros Hlive. by rewrite currentWindow_live.
    + rewrite Hans. apply bool_decide_eq_true.
  - intros t0 times s Hop Hin k Hk.
    destruct (checkRateLimit_opens t0 s Hop) as [Hst Hans].
    cbn [checkRateLimit_seq].
    destruct (call t0 s) as [a s1]. cbn [fst snd] in *.
    destruct (checkRateLimit_seq_live times s1 _ Hst Hin) as [Hseq _].
    destruct (calls times s1) as [r s2]. cbn [fst snd count] in *.
    destruct k as [|k].
    + cbn. by rewrite Hans.
    + change ((a :: r) !! S k) with (r !! k).
      rewrite Hseq, list_lookup_fmap, lookup_seq_lt by lia. cbn.
      do 2 f_equal. apply bool_decide_ext. lia.
  - intros now old s HL Hs Hexp.
    destruct (checkRateLimit_opens now s) as [_ ->].
    + unfold opens_window. by rewrite Hs.
    + by apply bool_decide_eq_true.
Qed.

(** C10. Every call adds one to the stored counter, whatever it answers;
    a rejected call leaves the window start where it was; and after a
    rejected call every further call of the same connection and traffic
    class that falls in the same window is rejected too, however many are
    made. *)
Theorem checkRateLimit_rejections_persist :
  1 <= L →
  (∀ now s,
     stored (call now s).2
       = Some {| count := count (currentWindow CONFIG isMedia now (stored s)) + 1;
                 windowStart :=
                   windowStart (currentWindow CONFIG isMedia now (stored s)) |})
  ∧ (∀ now s,
       (call now s).1 = false →
       ∃ old, stored s = Some old
         ∧ stored (call now s).2
             = Some {| count := count old + 1; windowStart := windowStart old |}
         ∧ ∀ times,
             (∀ t, t ∈ times → t - windowStart old <= W) →
             Forall (λ a, a = false) (calls times (call now s).2).1
             ∧ stored (calls times (call now s).2).2
                 = Some {| count := count old + 1 + Z.of_nat (length times);
                           windowStart := windowStart old |}).
Proof.
  intros HL. split.
  - intros now s. apply checkRateLimit_spec.
  - intros now s Hrej.
    destruct (checkRateLimit_rejected now s HL Hrej)
      as (old & Hs & Hlive & Hfull & Hst).
    exists old. split; [done|]. split; [done|].
    intros times Hin.
    destruct (checkRateLimit_seq_live times _ _ Hst Hin) as [Hseq Hfin].
    cbn [count windowStart] in *. split; [|done].
    rewrite Hseq. apply Forall_fmap, Forall_forall. intros k _. cbn.
    apply bool_decide_eq_false. lia.
Qed.

End RateLimiter.

(** ** Matcher *)

Section Matcher.
Variables (user : User) (socketId : string).

Lemma scanEntry_Some entry c :
  scanEntry user socketId entry = Some c ↔
    entry.1 ≠ socketId ∧ bidirectionally_compatible user entry.2
    ∧ c = {| c_user := entry.2; c_socketId := entry.1;
             c_score := matchScoreOf user entry.2;
             c_commonInterests := sharedInterests user entry.2 |}.
Proof.
  destruct entry as [k wu]. unfold scanEntry, bidirectionally_compatible.
  cbn [fst snd]. case_decide as Hk.
  - split; [done|]. intros [? _]. done.
  - destruct (bool_decide (preferredGender user = "any")
              || bool_decide (preferredGender user = gender wu)) eqn:E1;
    destruct (bool_decide (preferredGender wu = "any")
              || bool_decide (preferredGender wu = gender user)) eqn:E2;
    cbn [andb];
    repeat first
      [ rewrite orb_true_iff in E1 | rewrite orb_false_iff in E1
      | rewrite orb_true_iff in E2 | rewrite orb_false_iff in E2
      | rewrite bool_decide_eq_true in E1 | rewrite bool_decide_eq_false in E1
      | rewrite bool_decide_eq_true in E2 | rewrite bool_decide_eq_false in E2 ].
    + split; [intros [= <-]; done | intros (_ & _ & ->); done].
    + split; [done|]. intros (_ & [_ Hc] & _). tauto.
    + split; [done|]. intros (_ & [Hc _] & _). tauto.
    + split; [done|]. intros (_ & [Hc _] & _). tauto.
Qed.

Lemma elem_of_compatibleMatches waiting c :
  c ∈ compatibleMatches user socketId waiting ↔
    ∃ entry, eligible user socketId waiting entry
      ∧ c = {| c_user := entry.2; c_socketId := entry.1;
               c_score := matchScoreOf user entry.2;
               c_commonInterests := sharedInterests user entry.2 |}.
Proof.
  unfold compatibleMatches, eligible. rewrite list_elem_of_omap.
  split.
  - intros (e & He & Hs). apply scanEntry_Some in Hs as (? & ? & ->).
    exists e. done.
  - intros (e & (He & Hk & Hc) & ->). exists e. split; [done|].
    by apply scanEntry_Some.
Qed.

Lemma elem_of_bestMatches cs c :
  c ∈ bestMatches cs ↔ c ∈ cs ∧ ∀ c', c' ∈ cs → (c_score c' ≤ c_score c)%nat.
Proof.
  unfold bestMatches, highestScore. rewrite list_elem_of_filter. split.
  - intros [Hs Hc]. split; [done|]. intros c' Hc'. rewrite Hs.
    apply max_list_elem_of_le, list_elem_of_fmap. eauto.
  - intros [Hc Hmax]. split; [|done].
    assert (c_score <$> cs ≠ []) as Hne by (destruct cs; [inversion Hc|done]).
    apply max_list_elem_of in Hne as Hin.
    apply list_elem_of_fmap in Hin as (c' & Heq & Hc').
    apply Nat.le_antisymm.
    + apply max_list_elem_of_le, list_elem_of_fmap. eauto.
    + rewrite Heq. by apply Hmax.
Qed.

Lemma randomIndex_lt d n : valid_draw d → (0 < n)%nat → (randomIndex d n < n)%nat.
Proof.
  unfold valid_draw, randomIndex. intros Hd Hn.
  apply Nat.Div0.div_lt_upper_bound. nia.
Qed.

Lemma randomIndex_hit i n :
  (i < n)%nat → randomIndex {| num := i; den := n |} n = i.
Proof. unfold randomIndex. cbn. intros. apply Nat.div_mul. lia. Qed.

Lemma findMatch_Some d waiting m :
  findMatch user socketId d waiting = Some m ↔
    ∃ c, bestMatches (compatibleMatches user socketId waiting)
           !! randomIndex d (length (bestMatches (compatibleMatches user socketId waiting)))
         = Some c ∧ m = selected c.
Proof.
  unfold findMatch. case_decide as Hlen.
  - apply nil_length_inv in Hlen. rewrite Hlen. cbn.
    split; [done|]. intros (c & Hc & _). done.
  - rewrite fmap_Some. split; intros (c & ? & ?); eauto.
Qed.

Lemma selected_candidate entry :
  selected {| c_user := entry.2; c_socketId := entry.1;
              c_score := matchScoreOf user entry.2;
              c_commonInterests := sharedInterests user entry.2 |}
  = matchOf user entry.
Proof. done. Qed.

(** What [findMatch] returns is an eligible entry of maximal score. *)
Lemma findMatch_sound d waiting m :
  findMatch user socketId d waiting = Some m →
  ∃ entry, m = matchOf user entry
    ∧ eligible user socketId waiting entry
    ∧ ∀ entry', eligible user socketId waiting entry' →
        (matchScoreOf user entry'.2 ≤ matchScoreOf user entry.2)%nat.
Proof.
  intros (c & Hc & ->)%findMatch_Some.
  apply list_elem_of_lookup_2, elem_of_bestMatches in Hc as [Hc Hmax].
  apply elem_of_compatibleMatches in Hc as (entry & He & ->).
  exists entry. split; [done|]. split; [done|].
  intros entry' He'.
  specialize (Hmax {| c_user := entry'.2; c_socketId := entry'.1;
                      c_score := matchScoreOf user entry'.2;
                      c_commonInterests := sharedInterests user entry'.2 |}).
  apply Hmax, elem_of_compatibleMatches. eauto.
Qed.

(** An eligible entry of maximal score is in [bestMatches]. *)
Lemma eligible_best waiting entry :
  eligible user socketId waiting entry →
  (∀ entry', eligible user socketId waiting entry' →
     (matchScoreOf user entry'.2 ≤ matchScoreOf user entry.2)%nat) →
  {| c_user := entry.2; c_socketId := entry.1;
     c_score := matchScoreOf user entry.2;
     c_commonInterests := sharedInterests user entry.2 |}
  ∈ bestMatches (compatibleMatches user socketId waiting).
Proof.
  intros He Hmax. apply elem_of_bestMatches. split.
  - apply elem_of_compatibleMatches. eauto.
  - intros c' (e' & He' & ->)%elem_of_compatibleMatches. cbn. by apply Hmax.
Qed.

(** When the requester is not in the queue, as the guard of [join-queue]
    ensures, every compatible waiting entry is eligible. *)
Lemma eligible_not_queued waiting entry :
  socketId ∉ JsMap.keys waiting →
  eligible user socketId waiting entry ↔
    entry ∈ waiting ∧ bidirectionally_compatible user entry.2.
Proof.
  intros Hq. unfold eligible. split; [tauto|]. intros [Hin Hc].
  split; [done|]. split; [|done]. intros Heq. apply Hq.
  rewrite <- Heq. apply list_elem_of_fmap. by exists entry.
Qed.

End Matcher.

(** C2. The matcher treats a requester and a waiting entry as compatible
    exactly when the requester's desired gender is "any" or the entry's
    own gender, and the entry's desired gender is "any" or the requester's
    own gender (for all values of the four fields, so for the nine
    combinations of male/female with male/female/any in both directions);
    whatever [findMatch] returns is an entry of the queue, not the
    requester's own, for which both directions hold; and against a queue
    of one other entry it returns that entry exactly when both directions
    hold. *)
Theorem findMatch_bidirectional_gender :
  (∀ user socketId entry,
     is_Some (scanEntry user socketId entry) ↔
       entry.1 ≠ socketId ∧ bidirectionally_compatible user entry.2)
  ∧ (∀ user socketId d waiting m,
       findMatch user socketId d waiting = Some m →
       (m_socketId m, m_user m) ∈ waiting
       ∧ m_socketId m ≠ socketId
       ∧ bidirectionally_compatible user (m_user m))
  ∧ (∀ user socketId d other waitingUser,
       valid_draw d → other ≠ socketId →
       (findMatch user socketId d [(other, waitingUser)]
          = Some (matchOf user (other, waitingUser))
        ↔ bidirectionally_compatible user waitingUser)
       ∧ (findMatch user socketId d [(other, waitingUser)] = None
          ↔ ¬ bidirectionally_compatible user waitingUser)).
Proof.
  split; [|split].
  - intros user socketId entry. split.
    + intros [c Hc]. apply scanEntry_Some in Hc. tauto.
    + intros [Hk Hc]. eexists. apply scanEntry_Some. eauto.
  - intros user socketId d waiting m Hm.
    apply findMatch_sound in Hm as ([k wu] & -> & (Hin & Hk & Hc) & _).
    done.
  - intros user socketId d other wu Hd Hne.
    unfold findMatch, compatibleMatches. cbn [omap list_omap].
    destruct (scanEntry user socketId (other, wu)) as [c|] eqn:E.
    + apply scanEntry_Some in E as (_ & Hc & ->). cbn [fst snd].
      rewrite decide_False by done.
      replace (bestMatches _) with
        [{| c_user := wu; c_socketId := other;
            c_score := matchScoreOf user wu;
            c_commonInterests := sharedInterests user wu |}].
      2:{ unfold bestMatches, highestScore. cbn.
          rewrite decide_True; [done|]. cbn. lia. }
      pose proof (randomIndex_lt d 1 Hd ltac:(lia)) as Hlt. cbn [length].
      destruct (randomIndex d 1) as [|?]; [|lia]. cbn. split; split; done.
    + cbn. split; split; try done.
      * intros Hc. exfalso.
        assert (is_Some (scanEntry user socketId (other, wu))) as [? ?]; [|congruence].
        eexists. apply scanEntry_Some. eauto.
      * intros _ Hc.
        assert (is_Some (scanEntry user socketId (other, wu))) as [? ?]; [|congruence].
        eexists. apply scanEntry_Some. eauto.
Qed.

(** ** The score of a candidate and the draw *)

Lemma matchScoreOf_NoDup (user waitingUser : User) :
  NoDup (interests user) →
  matchScoreOf user waitingUser = intersectionScore user waitingUser.
Proof.
  intros Hnd. unfold matchScoreOf, intersectionScore, sharedInterests.
  rewrite <- (size_list_to_set (C := gset string))
    by (by apply NoDup_filter).
  f_equal. apply set_eq. intros x.
  rewrite elem_of_list_to_set, list_elem_of_filter, elem_of_intersection,
    !elem_of_list_to_set. tauto.
Qed.

Lemma length_remove_dups_le {A} `{EqDecision A} (l : list A) :
  (length (remove_dups l) ≤ length l)%nat.
Proof.
  induction l as [|x l IH]; [done|]. cbn.
  destruct (decide_rel elem_of x l); cbn; lia.
Qed.

Lemma intersectionScore_le (user waitingUser : User) :
  (intersectionScore user waitingUser ≤ matchScoreOf user waitingUser)%nat.
Proof.
  unfold matchScoreOf, intersectionScore, sharedInterests.
  set (l := filter _ _).
  replace (list_to_set (interests user) ∩ list_to_set (interests waitingUser))
    with (list_to_set (C := gset string) (remove_dups l)).
  - rewrite size_list_to_set by apply NoDup_remove_dups.
    apply length_remove_dups_le.
  - apply set_eq. intros x.
    rewrite elem_of_list_to_set, elem_of_remove_dups. unfold l.
    rewrite list_elem_of_filter, elem_of_intersection,
      !elem_of_list_to_set. tauto.
Qed.

Lemma length_omap_le {A B} (f : A → option B) (l : list A) :
  (length (omap f l) ≤ length l)%nat.
Proof.
  induction l as [|x l IH]; [done|]. cbn. destruct (f x); cbn; lia.
Qed.

Lemma length_bestMatches_le user socketId waiting :
  (length (bestMatches (compatibleMatches user socketId waiting))
   ≤ length waiting)%nat.
Proof.
  unfold bestMatches, compatibleMatches.
  etrans; [apply length_filter|apply length_omap_le].
Qed.

(** Between two multiples of [2^s], rounding to a multiple of [2^s]
    stays between them. *)
Lemma roundToEven_between (P s lo hi : Z) :
  0 < s → lo * 2 ^ s ≤ P ≤ hi * 2 ^ s →
  lo * 2 ^ s ≤ roundToEven P s ≤ hi * 2 ^ s.
Proof.
  intros Hs [Hlo Hhi].
  assert (0 < 2 ^ (s - 1)) as Hhalf by (apply Z.pow_pos_nonneg; lia).
  assert (2 ^ s = 2 * 2 ^ (s - 1)) as HK2.
  { rewrite <- Z.pow_succ_r by lia. f_equal. lia. }
  set (K := 2 ^ s) in *. set (half := 2 ^ (s - 1)) in *.
  assert (0 < K) as HK by lia.
  pose proof (Z.div_mod P K ltac:(lia)) as Hdm.
  pose proof (Z.mod_pos_bound P K HK) as Hr.
  assert (lo ≤ P / K) as Hq1 by (apply Z.div_le_lower_bound; lia).
  assert (P / K ≤ hi) as Hq2 by (apply Z.div_le_upper_bound; lia).
  assert (P mod K = 0 ∨ P / K + 1 ≤ hi) as Hq3.
  { destruct (decide (P mod K = 0)) as [?|Hne]; [by left|right].
    destruct (decide (P / K = hi)) as [Heq|?]; [|lia].
    rewrite Heq in Hdm. nia. }
  assert (lo * K ≤ P / K * K ≤ hi * K) as Hdown by nia.
  assert (P mod K ≠ 0 → lo * K ≤ (P / K + 1) * K ≤ hi * K) as Hup
    by (intros ?; nia).
  unfold roundToEven. cbv zeta. fold K half.
  destruct (decide (P mod K < half)); [done|].
  destruct (decide (half < P mod K)); [apply Hup; lia|].
  destruct (Z.even (P / K)); [done|apply Hup; lia].
Qed.

(** A product between [i * 2^33] and [i * 2^33 + 2^32] is rounded to a
    number of that interval. *)
Lemma times_binary64_between (a n D i : nat) :
  Z.of_nat i * 2 ^ 33 ≤ Z.of_nat a * Z.of_nat n
    ≤ Z.of_nat i * 2 ^ 33 + 2 ^ 32 →
  Z.of_nat i < 2 ^ 32 →
  Z.of_nat i * 2 ^ 33 ≤ times_binary64 {| num := a; den := D |} n
    ≤ Z.of_nat i * 2 ^ 33 + 2 ^ 32.
Proof.
  intros HP Hi. unfold times_binary64. cbn [num]. cbv zeta.
  set (P := Z.of_nat a * Z.of_nat n) in *.
  destruct (decide (0 < Z.log2 P - 52)) as [Hs|]; [|done].
  set (s := Z.log2 P - 52) in *.
  assert (0 < P) as HPpos.
  { destruct (decide (0 < P)); [done|].
    pose proof (Z.log2_nonpos P ltac:(lia)). lia. }
  assert (s ≤ 12) as Hs12.
  { assert (Z.log2 P < 65); [|lia]. apply Z.log2_lt_pow2; lia. }
  assert (2 ^ 33 = 2 ^ (33 - s) * 2 ^ s) as H33
    by (rewrite <- Z.pow_add_r by lia; f_equal; lia).
  assert (2 ^ 32 = 2 ^ (32 - s) * 2 ^ s) as H32
    by (rewrite <- Z.pow_add_r by lia; f_equal; lia).
  pose proof (roundToEven_between P s (Z.of_nat i * 2 ^ (33 - s))
                (Z.of_nat i * 2 ^ (33 - s) + 2 ^ (32 - s)) Hs) as Hr.
  rewrite Z.mul_add_distr_r, <- Z.mul_assoc, <- H33, <- H32 in Hr.
  exact (Hr HP).
Qed.

(** For every index of a list of fewer than [2^32] elements there is a
    multiple of [2^-33] in [0,1) at which the exact product and the
    binary64 product are floored to that index. *)
Lemma near_draw (i n a D : nat) :
  (i < n)%nat → Z.of_nat n < 2 ^ 32 →
  Z.of_nat D = 2 ^ 33 →
  Z.of_nat a = (Z.of_nat i * 2 ^ 33 + Z.of_nat n - 1) / Z.of_nat n →
  valid_draw {| num := a; den := D |}
  ∧ faithful_draw {| num := a; den := D |} n
  ∧ randomIndex {| num := a; den := D |} n = i.
Proof.
  intros Hin Hn HD Ha.
  set (N := Z.of_nat n) in *. set (I := Z.of_nat i) in *.
  set (A := Z.of_nat a) in *.
  assert (0 < N ∧ 0 ≤ I < N) as [HN HI] by (unfold N, I; lia).
  pose proof (Z.div_mod (I * 2 ^ 33 + N - 1) N ltac:(lia)) as Hdm.
  pose proof (Z.mod_pos_bound (I * 2 ^ 33 + N - 1) N HN) as Hr.
  rewrite <- Ha in Hdm.
  assert (I * 2 ^ 33 ≤ A * N ≤ I * 2 ^ 33 + 2 ^ 32) as HP by lia.
  assert (A < 2 ^ 33) as HA by nia.
  assert (randomIndex {| num := a; den := D |} n = i) as Hexact.
  { unfold randomIndex. cbn [num den]. apply Nat2Z.inj.
    rewrite Nat2Z.inj_div, Nat2Z.inj_mul, HD. fold A N I.
    symmetry. apply (Z.div_unique _ _ _ (A * N - I * 2 ^ 33)); lia. }
  assert (valid_draw {| num := a; den := D |}) as Hvalid.
  { unfold valid_draw. cbn [num den]. apply Nat2Z.inj_lt. fold A. lia. }
  split; [exact Hvalid|]. split; [|exact Hexact].
  split.
  - split; [exact Hvalid|]. cbn [num den]. fold A.
    split; [lia|]. exists 33%nat. split; [lia|]. rewrite HD. done.
  - rewrite Hexact. unfold randomIndex_binary64. cbn [den].
    pose proof (times_binary64_between a n D i HP ltac:(fold I; lia)) as Hb.
    fold I in Hb. rewrite HD.
    set (R := times_binary64 _ _) in *.
    rewrite <- (Z.div_unique R (2 ^ 33) I (R - I * 2 ^ 33)) by lia.
    apply Nat2Z.id.
Qed.

Lemma faithful_draw_exists (i n : nat) :
  (i < n)%nat → Z.of_nat n < 2 ^ 32 →
  ∃ d, valid_draw d ∧ faithful_draw d n ∧ randomIndex d n = i.
Proof.
  intros Hin Hn.
  exists {| num := Z.to_nat ((Z.of_nat i * 2 ^ 33 + Z.of_nat n - 1)
                             / Z.of_nat n);
            den := Z.to_nat (2 ^ 33) |}.
  apply near_draw; [done|done|..].
  - apply Z2Nat.id. lia.
  - apply Z2Nat.id. apply Z.div_pos; lia.
Qed.

(** [findMatch] selects by the score it computes. *)
Lemma findMatch_selects_by_matchScore (user : User) (socketId : string)
  (waiting : list (string * User)) :
  selects_best matchScoreOf user socketId waiting.
Proof.
  split; [|split].
  - intros d m. apply findMatch_sound.
  - intros entry He Hmax.
    pose proof (eligible_best user socketId waiting entry He Hmax) as Hbest.
    apply list_elem_of_lookup_1 in Hbest as [i Hi].
    pose proof (lookup_lt_Some _ _ _ Hi) as Hlt.
    set (best := bestMatches (compatibleMatches user socketId waiting)) in *.
    assert (∃ d, valid_draw d
              ∧ (Z.of_nat (length waiting) < 2 ^ 32 →
                 faithful_draw d (length best))
              ∧ randomIndex d (length best) = i) as (d & Hd & Hf & Hdi).
    { destruct (decide (Z.of_nat (length waiting) < 2 ^ 32)) as [Hw|Hw].
      - pose proof (length_bestMatches_le user socketId waiting) as Hle.
        fold best in Hle.
        destruct (faithful_draw_exists i (length best) Hlt ltac:(lia))
          as (d & Hd & Hf & Hdi).
        by exists d.
      - exists {| num := i; den := length best |}.
        split; [exact Hlt|]. split; [done|].
        by apply randomIndex_hit. }
    exists d. split; [exact Hd|]. split; [exact Hf|].
    apply findMatch_Some. eexists. fold best. rewrite Hdi.
    split; [exact Hi|done].
  - intros entry He Huniq d Hd.
    assert (∀ entry', eligible user socketId waiting entry' →
              (matchScoreOf user entry'.2 ≤ matchScoreOf user entry.2)%nat)
      as Hmax.
    { intros entry' He'. destruct (decide (entry' = entry)) as [->|Hne]; [done|].
      specialize (Huniq entry' He' Hne). lia. }
    pose proof (eligible_best user socketId waiting entry He Hmax) as Hbest.
    set (best := bestMatches (compatibleMatches user socketId waiting)) in *.
    assert (0 < length best)%nat as Hpos.
    { destruct best; [inversion Hbest|cbn; lia]. }
    destruct (lookup_lt_is_Some_2 best (randomIndex d (length best))
                (randomIndex_lt d _ Hd Hpos)) as [c Hc].
    apply findMatch_Some. exists c. split; [exact Hc|].
    apply list_elem_of_lookup_2, elem_of_bestMatches in Hc as [Hc Hcmax].
    apply elem_of_compatibleMatches in Hc as (entry' & He' & ->).
    destruct (decide (entry' = entry)) as [->|Hne]; [done|].
    specialize (Huniq entry' He' Hne).
    specialize (Hcmax {| c_user := entry.2; c_socketId := entry.1;
                         c_score := matchScoreOf user entry.2;
                         c_commonInterests := sharedInterests user entry.2 |}).
    cbn in Hcmax.
    assert (matchScoreOf user entry.2 ≤ matchScoreOf user entry'.2)%nat; [|lia].
    apply Hcmax, elem_of_compatibleMatches. eauto.
Qed.

(** What [selects_best] says depends on the score of the requester
    alone. *)
Lemma selects_best_ext (score score' : User → User → nat) user socketId
  waiting :
  (∀ waitingUser, score user waitingUser = score' user waitingUser) →
  selects_best score user socketId waiting →
  selects_best score' user socketId waiting.
Proof.
  intros Heq (H1 & H2 & H3). split; [|split].
  - intros d m Hm. destruct (H1 d m Hm) as (entry & -> & He & Hmax).
    exists entry. split; [done|]. split; [done|].
    intros entry' He'. rewrite <- !Heq. by apply Hmax.
  - intros entry He Hmax. apply H2; [done|].
    intros entry' He'. rewrite !Heq. by apply Hmax.
  - intros entry He Huniq. apply H3; [done|].
    intros entry' He' Hne. rewrite !Heq. by apply Huniq.
Qed.

(** C3. [findMatch] selects by the score it computes, the number of
    entries of the requester's interest list that the candidate lists:
    whenever it returns a candidate, it is an eligible entry (in the
    queue, not the requester's own, gender-compatible both ways) whose
    score is the largest among the eligible entries; every eligible entry
    of largest score (score 0 included) is returned for some value of the
    random draw; and an eligible entry whose score is strictly larger
    than that of every other eligible entry is returned for every value
    of the draw.  That score is at least the size of the intersection of
    the two interest sets, and is that size when the requester lists no
    interest twice: then all of this holds of the interest-intersection
    score. *)
Theorem findMatch_selects_best (user : User) (socketId : string)
  (waiting : list (string * User)) :
  selects_best matchScoreOf user socketId waiting
  ∧ (∀ waitingUser,
       (intersectionScore user waitingUser
        ≤ matchScoreOf user waitingUser)%nat)
  ∧ (NoDup (interests user) →
     (∀ waitingUser,
        matchScoreOf user waitingUser = intersectionScore user waitingUser)
     ∧ selects_best intersectionScore user socketId waiting).
Proof.
  split; [apply findMatch_selects_by_matchScore|].
  split; [apply intersectionScore_le|].
  intros Hnd. split; [intros w; by apply matchScoreOf_NoDup|].
  apply (selects_best_ext matchScoreOf).
  - intros w. by apply matchScoreOf_NoDup.
  - apply findMatch_selects_by_matchScore.
Qed.

(** ** Ordered maps *)

Section JsMapFacts.
Context {K V : Type} `{EqDecision K}.
Implicit Types (k : K) (v : V) (m : list (K * V)).

Lemma JsMap_keys_delete k m :
  JsMap.keys (JsMap.delete k m) = filter (λ k', k' ≠ k) (JsMap.keys m).
Proof.
  unfold JsMap.keys, JsMap.delete. induction m as [|[k' v'] m IH]; [done|].
  rewrite fmap_cons, !filter_cons. cbn [fst].
  case_decide; [rewrite fmap_cons|]; by rewrite IH.
Qed.

Lemma JsMap_elem_of_delete k m e :
  e ∈ JsMap.delete k m ↔ e ∈ m ∧ e.1 ≠ k.
Proof. unfold JsMap.delete. rewrite list_elem_of_filter. tauto. Qed.

Lemma JsMap_delete_sublist k m : JsMap.delete k m `sublist_of` m.
Proof. apply sublist_filter. Qed.

Lemma JsMap_keys_delete_sublist k m :
  JsMap.keys (JsMap.delete k m) `sublist_of` JsMap.keys m.
Proof. rewrite JsMap_keys_delete. apply sublist_filter. Qed.

Lemma JsMap_delete_absent k m : k ∉ JsMap.keys m → JsMap.delete k m = m.
Proof.
  unfold JsMap.keys, JsMap.delete. induction m as [|[k' v'] m IH]; [done|].
  rewrite fmap_cons, not_elem_of_cons. cbn [fst]. intros [Hne Hk].
  rewrite filter_cons_True by (cbn; congruence). by rewrite IH.
Qed.

Lemma JsMap_get_None k m : JsMap.get k m = None ↔ k ∉ JsMap.keys m.
Proof.
  unfold JsMap.keys. induction m as [|[k' v'] m IH]; cbn.
  - split; [intros _; apply not_elem_of_nil|done].
  - rewrite not_elem_of_cons. case_decide; [split; [done|tauto]|]. rewrite IH. tauto.
Qed.

Lemma JsMap_get_Some_elem k v m : JsMap.get k m = Some v → (k, v) ∈ m.
Proof.
  induction m as [|[k' v'] m IH]; cbn; [done|].
  case_decide as Hk.
  - intros [= ->]. subst. left.
  - intros. right. auto.
Qed.

Lemma JsMap_elem_get k v m :
  NoDup (JsMap.keys m) → (k, v) ∈ m → JsMap.get k m = Some v.
Proof.
  unfold JsMap.keys. induction m as [|[k' v'] m IH]; cbn.
  - intros _ H'. inversion H'.
  - rewrite NoDup_cons. intros [Hk' Hnd]. rewrite elem_of_cons.
    intros [[= -> ->]|Hin]; [by rewrite decide_True|].
    rewrite decide_False; [auto|]. intros ->. apply Hk'.
    apply list_elem_of_fmap. by exists (k', v).
Qed.

Lemma JsMap_has_true k m : JsMap.has k m = true ↔ k ∈ JsMap.keys m.
Proof.
  unfold JsMap.has. rewrite bool_decide_eq_true.
  destruct (JsMap.get k m) as [v|] eqn:E.
  - split; [|by eauto]. intros _. apply JsMap_get_Some_elem in E.
    apply list_elem_of_fmap. by exists (k, v).
  - apply JsMap_get_None in E. split; [intros [? [=]]|done].
Qed.

Lemma JsMap_has_false k m : JsMap.has k m = false ↔ k ∉ JsMap.keys m.
Proof. rewrite <- JsMap_has_true. by destruct (JsMap.has k m). Qed.

Lemma JsMap_keys_set k v m :
  JsMap.keys (JsMap.set k v m)
  = if decide (k ∈ JsMap.keys m) then JsMap.keys m else JsMap.keys m ++ [k].
Proof.
  unfold JsMap.keys. induction m as [|[k' v'] m IH]; cbn.
  - rewrite decide_False; [done|apply not_elem_of_nil].
  - destruct (decide (k = k')) as [->|Hne]; cbn.
    + rewrite decide_True; [done|left].
    + rewrite IH. destruct (decide (k ∈ m.*1)) as [Hin|Hnin].
      * rewrite decide_True; [done|by right].
      * rewrite decide_False; [done|]. rewrite not_elem_of_cons. done.
Qed.

Lemma JsMap_set_NoDup k v m :
  NoDup (JsMap.keys m) → NoDup (JsMap.keys (JsMap.set k v m)).
Proof.
  intros Hnd. rewrite JsMap_keys_set. case_decide; [done|].
  apply NoDup_app. split; [done|]. split; [|apply NoDup_singleton].
  intros x Hx ->%list_elem_of_singleton. done.
Qed.

Lemma JsMap_delete_NoDup k m :
  NoDup (JsMap.keys m) → NoDup (JsMap.keys (JsMap.delete k m)).
Proof. intros Hnd. eapply sublist_NoDup, JsMap_keys_delete_sublist. done. Qed.

Lemma JsMap_elem_of_set k v m e :
  NoDup (JsMap.keys m) →
  e ∈ JsMap.set k v m ↔ e = (k, v) ∨ (e ∈ m ∧ e.1 ≠ k).
Proof.
  unfold JsMap.keys. induction m as [|[k' v'] m IH]; cbn.
  - intros _. rewrite list_elem_of_singleton. split; [by left|].
    intros [->|[Hin _]]; [done|inversion Hin].
  - rewrite NoDup_cons. intros [Hk' Hnd].
    case_decide as Hk; rewrite !elem_of_cons.
    + subst k'. split.
      * intros [->|Hin]; [by left|]. right. split; [by right|].
        intros <-. apply Hk', list_elem_of_fmap. by exists e.
      * intros [->|[[->|Hin] Hne]]; [by left|done|by right].
    + rewrite (IH Hnd). split.
      * intros [->|[->|[Hin Hne]]]; [|by left|].
        -- right. split; [by left|]. cbn. congruence.
        -- right. split; [by right|done].
      * intros [->|[[->|Hin] Hne]]; [by right; left|by left|].
        right. right. done.
Qed.

Lemma JsMap_get_set_eq k v m : JsMap.get k (JsMap.set k v m) = Some v.
Proof.
  induction m as [|[k' v'] m IH]; cbn; [by rewrite decide_True|].
  destruct (decide (k = k')) as [->|Hne]; cbn;
    [by rewrite decide_True|by rewrite decide_False].
Qed.

Lemma JsMap_get_delete_eq k m : JsMap.get k (JsMap.delete k m) = None.
Proof.
  apply JsMap_get_None. rewrite JsMap_keys_delete, list_elem_of_filter. tauto.
Qed.

Lemma JsMap_get_delete_ne k k' m :
  k ≠ k' → JsMap.get k (JsMap.delete k' m) = JsMap.get k m.
Proof.
  intros Hne. unfold JsMap.delete. induction m as [|[k1 v1] m IH]; [done|].
  destruct (decide (k1 = k')) as [->|H1].
  - rewrite filter_cons_False by (cbn; tauto). cbn.
    by rewrite decide_False.
  - rewrite filter_cons_True by done. cbn. by rewrite IH.
Qed.
End JsMapFacts.

(** ** The waiting queue and the bindings never overlap *)

Create HintDb shrinks.

(** Reduces the projections of updated states. *)
Ltac state_simpl :=
  cbn [waitingUsers activeRooms socketToRoom messageRateLimits mediaRateLimits
       sockets rooms uuid outbox with_waitingUsers with_activeRooms
       with_socketToRoom with_messageRateLimits with_mediaRateLimits
       with_sockets with_rooms with_uuid with_outbox emit emit_to
       broadcast_to join connect transport_close] in *.

Section QueueInvariant.
Variable CONFIG : Config.

#[local] Instance shrinks_preorder : PreOrder shrinks.
Proof.
  split.
  - intros s. split; reflexivity.
  - intros s1 s2 s3 [H1 H1'] [H2 H2']. split; etrans; eauto.
Qed.

Lemma shrinks_invariant s s' :
  shrinks s s' → queue_invariant s → queue_invariant s'.
Proof.
  intros [Hw Hb] [Hnd Hq]. split.
  - by eapply sublist_NoDup.
  - intros h Hh. eapply lookup_weaken_None; [|exact Hb].
    apply Hq. by eapply elem_of_sublist.
Qed.

Lemma shrinks_unchanged s s1 s' :
  waitingUsers s' = waitingUsers s1 → socketToRoom s' = socketToRoom s1 →
  shrinks s s1 → shrinks s s'.
Proof. intros Hw Hb [H1 H2]. split; by rewrite ?Hw, ?Hb. Qed.

Lemma shrinks_with_activeRooms a s s' :
  shrinks s s' → shrinks s (with_activeRooms a s').
Proof. by apply shrinks_unchanged. Qed.
Lemma shrinks_with_messageRateLimits m s s' :
  shrinks s s' → shrinks s (with_messageRateLimits m s').
Proof. by apply shrinks_unchanged. Qed.
Lemma shrinks_with_mediaRateLimits m s s' :
  shrinks s s' → shrinks s (with_mediaRateLimits m s').
Proof. by apply shrinks_unchanged. Qed.
Lemma shrinks_with_sockets k s s' :
  shrinks s s' → shrinks s (with_sockets k s').
Proof. by apply shrinks_unchanged. Qed.
Lemma shrinks_with_rooms r s s' :
  shrinks s s' → shrinks s (with_rooms r s').
Proof. by apply shrinks_unchanged. Qed.
Lemma shrinks_with_uuid n s s' :
  shrinks s s' → shrinks s (with_uuid n s').
Proof. by apply shrinks_unchanged. Qed.
Lemma shrinks_with_outbox o s s' :
  shrinks s s' → shrinks s (with_outbox o s').
Proof. by apply shrinks_unchanged. Qed.

Lemma shrinks_waiting_delete k s s' :
  shrinks s s' →
  shrinks s (with_waitingUsers (JsMap.delete k (waitingUsers s')) s').
Proof.
  intros [H1 H2]. split; [|done]. cbn. etrans; [|exact H1].
  apply JsMap_keys_delete_sublist.
Qed.

Lemma shrinks_binding_delete k s s' :
  shrinks s s' →
  shrinks s (with_socketToRoom (delete k (socketToRoom s')) s').
Proof.
  intros [H1 H2]. split; [done|]. cbn. etrans; [|exact H2].
  apply delete_subseteq.
Qed.

Lemma shrinks_binding_delete2 k1 k2 s s' :
  shrinks s s' →
  shrinks s (with_socketToRoom (delete k2 (delete k1 (socketToRoom s'))) s').
Proof.
  intros [H1 H2]. split; [done|]. cbn. etrans; [|exact H2].
  etrans; apply delete_subseteq.
Qed.

Lemma shrinks_leave_if_connected h roomId s s' :
  shrinks s s' → shrinks s (leave_if_connected h roomId s').
Proof.
  intros. unfold leave_if_connected. case_decide; [|done].
  by apply shrinks_with_rooms.
Qed.

Lemma shrinks_with_rateLimitMap isMedia m s s' :
  shrinks s s' → shrinks s (with_rateLimitMap isMedia m s').
Proof. destruct isMedia; by apply shrinks_unchanged. Qed.

Hint Resolve shrinks_with_activeRooms shrinks_with_messageRateLimits
  shrinks_with_mediaRateLimits shrinks_with_sockets shrinks_with_rooms
  shrinks_with_uuid shrinks_with_outbox shrinks_waiting_delete
  shrinks_binding_delete shrinks_binding_delete2 shrinks_leave_if_connected
  shrinks_with_rateLimitMap : shrinks.

Lemma shrinks_refl s : shrinks s s.
Proof. reflexivity. Qed.
Hint Resolve shrinks_refl : shrinks.

Lemma shrinks_foldl {A} (f : State → A → State) (l : list A) :
  (∀ s s' x, shrinks s s' → shrinks s (f s' x)) →
  ∀ s s', shrinks s s' → shrinks s (foldl f s' l).
Proof.
  intros Hf. induction l as [|x l IH]; intros s s' Hs; cbn; [done|].
  apply IH, Hf, Hs.
Qed.

(** Unfolds one handler and closes the goal with the facts about the
    primitive updates. *)
Ltac shrinks_by_unfolding :=
  cbv beta delta
    [emit emit_to broadcast_to join connect transport_close leave_queue
     relay_to_partner webrtc_offer webrtc_answer webrtc_ice_candidate typing
     unbind_and_leave end_chat unbind_partner on_disconnect disconnect
     checkRateLimit
     send_message evictStaleRoom evictOldestRoom cleanupRateLimits] zeta;
  repeat (case_match || case_decide); simplify_eq;
  eauto 20 with shrinks.

Lemma shrinks_leave_queue h s s' :
  shrinks s s' → shrinks s (leave_queue h s').
Proof. intros. shrinks_by_unfolding. Qed.

Lemma shrinks_send_message h data now s s' :
  shrinks s s' → shrinks s (send_message CONFIG h data now s').
Proof. intros. shrinks_by_unfolding. Qed.

Lemma shrinks_relay_to_partner h ev s s' :
  shrinks s s' → shrinks s (relay_to_partner h ev s').
Proof. intros. shrinks_by_unfolding. Qed.

Lemma shrinks_end_chat h s s' :
  shrinks s s' → shrinks s (end_chat h s').
Proof. intros. shrinks_by_unfolding. Qed.

Lemma shrinks_disconnect h s s' :
  shrinks s s' → shrinks s (disconnect h s').
Proof. intros. shrinks_by_unfolding. Qed.

Lemma shrinks_cleanupWaitingUsers now s s' :
  shrinks s s' → shrinks s (cleanupWaitingUsers CONFIG now s').
Proof.
  intros. apply shrinks_foldl; [|done].
  intros ? ? [? ?] ?. shrinks_by_unfolding.
Qed.

Lemma shrinks_cleanupStaleRooms now s s' :
  shrinks s s' → shrinks s (cleanupStaleRooms CONFIG now s').
Proof.
  intros. apply shrinks_foldl; [|done].
  intros ? ? [? ?] ?. shrinks_by_unfolding.
Qed.

Lemma shrinks_cleanupRateLimits now s s' :
  shrinks s s' → shrinks s (cleanupRateLimits CONFIG now s').
Proof. intros. shrinks_by_unfolding. Qed.

Lemma shrinks_enforceMemoryLimits s s' :
  shrinks s s' → shrinks s (enforceMemoryLimits CONFIG s').
Proof.
  intros Hs. unfold enforceMemoryLimits, enforceWaitingLimit, enforceRoomLimit.
  assert (∀ l s1, shrinks s s1 →
            shrinks s (foldl (λ s (e : string * User),
                         with_waitingUsers (JsMap.delete e.1 (waitingUsers s)) s)
                       s1 l)) as Hw.
  { intros l s1 ?. apply shrinks_foldl; [|done]. intros. eauto with shrinks. }
  assert (∀ l s1, shrinks s s1 → shrinks s (foldl evictOldestRoom s1 l)) as Hr.
  { intros l s1 ?. apply shrinks_foldl; [|done].
    intros ? ? [? ?] ?. shrinks_by_unfolding. }
  repeat case_decide; repeat case_match; simplify_eq; eauto.
Qed.

Hint Resolve shrinks_leave_queue shrinks_send_message shrinks_relay_to_partner
  shrinks_end_chat shrinks_disconnect shrinks_cleanupWaitingUsers
  shrinks_cleanupStaleRooms shrinks_cleanupRateLimits
  shrinks_enforceMemoryLimits : shrinks.

Lemma findMatch_in_queue user h d waiting m :
  findMatch user h d waiting = Some m →
  m_socketId m ∈ JsMap.keys waiting ∧ m_socketId m ≠ h.
Proof.
  intros ([k wu] & -> & (Hin & Hk & _) & _)%findMatch_sound. split; [|done].
  apply list_elem_of_fmap. by exists (k, wu).
Qed.

Lemma join_queue_invariant h userData now d s :
  queue_invariant s → queue_invariant (join_queue CONFIG h userData now d s).
Proof.
  intros Hinv. unfold join_queue.
  destruct (validateUserData CONFIG userData) as [err|validData];
    [by eapply shrinks_invariant; [shrinks_by_unfolding|]|].
  destruct (JsMap.has h (waitingUsers s)
            || bool_decide (is_Some (socketToRoom s !! h))) eqn:Hguard;
    [by eapply shrinks_invariant; [shrinks_by_unfolding|]|].
  apply orb_false_iff in Hguard as [Hnw Hnb].
  apply JsMap_has_false in Hnw. apply bool_decide_eq_false in Hnb.
  rewrite <- eq_None_not_Some in Hnb.
  destruct Hinv as [Hnd Hq].
  assert (∀ w, NoDup (JsMap.keys w) → h ∉ JsMap.keys w →
            (∀ k, k ∈ JsMap.keys w → socketToRoom s !! k = None) →
            ∀ user s',
              waitingUsers s' = JsMap.set h user w →
              socketToRoom s' = socketToRoom s →
              queue_invariant s') as Hadd.
  { intros w Hw Hh Hwq user s' Ew Eb. unfold queue_invariant.
    rewrite Ew, Eb. split; [by apply JsMap_set_NoDup|].
    intros k. rewrite JsMap_keys_set, decide_False by done.
    rewrite elem_of_app, list_elem_of_singleton. intros [?| ->]; auto. }
  destruct (findMatch _ h d (waitingUsers s)) as [m|] eqn:Hm; cbv zeta.
  - apply findMatch_in_queue in Hm as [Hmin Hmne].
    case_decide as Hconn.
    + split; state_simpl.
      * by apply JsMap_delete_NoDup.
      * intros k. rewrite JsMap_keys_delete, list_elem_of_filter.
        intros [Hk Hkin]. rewrite !lookup_insert_ne.
        -- by apply Hq.
        -- intros ->. done.
        -- congruence.
    + eapply (Hadd (JsMap.delete (m_socketId m) (waitingUsers s))); try done.
      * by apply JsMap_delete_NoDup.
      * rewrite JsMap_keys_delete, list_elem_of_filter. tauto.
      * intros k. rewrite JsMap_keys_delete, list_elem_of_filter.
        intros [_ ?]. auto.
  - by eapply (Hadd (waitingUsers s)).
Qed.

Lemma run_queue_invariant op s :
  queue_invariant s → queue_invariant (run CONFIG op s).
Proof.
  intros Hinv. destruct op; cbn [run];
    try (by apply join_queue_invariant);
    (eapply shrinks_invariant; [|exact Hinv]).
  all: try (unfold cleanup, webrtc_offer, webrtc_answer, webrtc_ice_candidate,
              typing; eauto 10 with shrinks).
Qed.

Lemma initial_queue_invariant : queue_invariant initial_state.
Proof. split; [constructor|]. intros h Hh. inversion Hh. Qed.

Lemma run_all_snoc ops op s :
  run_all CONFIG (ops ++ [op]) s = run CONFIG op (run_all CONFIG ops s).
Proof. unfold run_all. by rewrite foldl_snoc. Qed.

End QueueInvariant.

(** C5. After every operation of the engine (connection, join-queue with
    or without a match, leave-queue, message, typing and signalling relay,
    end-chat, disconnect, each phase of the periodic cleanup and the whole
    cleanup), that is in the state reached by any history of operations
    from the start, no connection is a key of [waitingUsers] twice and none
    is a key of [waitingUsers] while [socketToRoom] binds it to a
    session. *)
Theorem queue_never_overlaps_sessions (CONFIG : Config) (ops : list Op) :
  queue_invariant (run_all CONFIG ops initial_state).
Proof.
  induction ops as [|op ops IH] using rev_ind.
  - apply initial_queue_invariant.
  - rewrite run_all_snoc. by apply run_queue_invariant.
Qed.

(** ** Registered sessions stay bound and joined *)

Section SessionInvariant.
Variable CONFIG : Config.

Lemma session_invariant_keeps gone s s' :
  session_invariant s →
  keeps gone s s' →
  activeRooms s' `sublist_of` activeRooms s →
  (∀ e, e ∈ activeRooms s' → gone ≠ Some e.1) →
  session_invariant s'.
Proof.
  intros [Hnd Hok] Hkeep Hsub Hgone. split.
  - eapply sublist_NoDup; [exact Hnd|]. unfold JsMap.keys. by apply fmap_sublist.
  - intros e He. destruct (Hok e) as [Hne Hm]; [by eapply elem_of_sublist|].
    split; [done|]. intros u Hu. destruct (Hm u Hu) as [Hb Hg].
    destruct (Hkeep u e.1 Hb (Hgone e He)) as [Hb' Hg']. auto.
Qed.

Lemma keeps_unchanged gone s s' :
  socketToRoom s' = socketToRoom s → rooms s' = rooms s → keeps gone s s'.
Proof. intros Hb Hr u r Hu _. unfold group. by rewrite Hb, Hr. Qed.

Lemma session_invariant_unchanged s s' :
  activeRooms s' = activeRooms s →
  socketToRoom s' = socketToRoom s →
  rooms s' = rooms s →
  session_invariant s → session_invariant s'.
Proof.
  intros Ha Hb Hr Hinv.
  apply (session_invariant_keeps None s s' Hinv); [by apply keeps_unchanged| |done].
  by rewrite Ha.
Qed.

Lemma group_leave_if_connected_ne h rid r s :
  r ≠ rid → group r (leave_if_connected h rid s) = group r s.
Proof.
  intros Hne. unfold leave_if_connected, group. case_decide; [|done].
  state_simpl. by rewrite lookup_insert_ne.
Qed.

Lemma leave_if_connected_fields h rid s :
  waitingUsers (leave_if_connected h rid s) = waitingUsers s
  ∧ activeRooms (leave_if_connected h rid s) = activeRooms s
  ∧ socketToRoom (leave_if_connected h rid s) = socketToRoom s
  ∧ outbox (leave_if_connected h rid s) = outbox s
  ∧ sockets (leave_if_connected h rid s) = sockets s.
Proof. unfold leave_if_connected. by case_decide. Qed.

Lemma group_transport_close h r s :
  group r (transport_close h s) = group r s ∖ {[h]}.
Proof.
  unfold group. state_simpl. rewrite lookup_fmap.
  destruct (rooms s !! r); cbn; [done|set_solver].
Qed.

Lemma group_join h rid r s :
  group r (join h rid s)
  = if decide (r = rid) then {[h]} ∪ group rid s else group r s.
Proof.
  unfold group at 1. state_simpl. case_decide as Hr.
  - subst. by rewrite lookup_insert_eq.
  - by rewrite lookup_insert_ne.
Qed.

(** The fields of a state after the clean-up of one room. *)
Lemma unbind_and_leave_fields rid room s :
  let s' := unbind_and_leave rid room s in
  waitingUsers s' = waitingUsers s
  ∧ activeRooms s' = activeRooms s
  ∧ socketToRoom s'
    = delete (socketId (user2 room))
        (delete (socketId (user1 room)) (socketToRoom s))
  ∧ outbox s' = outbox s
  ∧ sockets s' = sockets s
  ∧ ∀ r, r ≠ rid → group r s' = group r s.
Proof.
  cbv zeta. unfold unbind_and_leave.
  set (s1 := with_socketToRoom _ s).
  destruct (leave_if_connected_fields (socketId (user1 room)) rid s1)
    as (Hw1 & Ha1 & Hb1 & Ho1 & Hs1).
  destruct (leave_if_connected_fields (socketId (user2 room)) rid
              (leave_if_connected (socketId (user1 room)) rid s1))
    as (Hw2 & Ha2 & Hb2 & Ho2 & Hs2).
  rewrite Hw2, Hw1, Ha2, Ha1, Hb2, Hb1, Ho2, Ho1, Hs2, Hs1.
  repeat split; try done.
  intros r Hr. by rewrite !group_leave_if_connected_ne.
Qed.

(** Removing a registered room with the bindings of its two members keeps
    the invariant, whatever happens to the room's own group. *)
Lemma evict_session_invariant s s' rid room :
  session_invariant s →
  (rid, room) ∈ activeRooms s →
  activeRooms s' = JsMap.delete rid (activeRooms s) →
  socketToRoom s'
    = delete (socketId (user2 room))
        (delete (socketId (user1 room)) (socketToRoom s)) →
  (∀ r, r ≠ rid → group r s' = group r s) →
  session_invariant s'.
Proof.
  intros Hinv Hin Ha Hb Hg.
  apply (session_invariant_keeps (Some rid) s s' Hinv).
  - intros u r Hu Hr. assert (r ≠ rid) as Hne by congruence.
    destruct Hinv as [_ Hok]. destruct (Hok _ Hin) as [_ Hm]. cbn in Hm.
    rewrite Hb, Hg by done. split; [|done].
    rewrite !lookup_delete_ne; [done| |].
    + intros <-. destruct (Hm (socketId (user1 room))) as [? _]; [left|].
      congruence.
    + intros <-. destruct (Hm (socketId (user2 room))) as [? _];
        [right; left|]. congruence.
  - rewrite Ha. apply JsMap_delete_sublist.
  - intros e. rewrite Ha, JsMap_elem_of_delete. intros [_ ?]. congruence.
Qed.

Lemma foldl_preserves {A} (P : State → Prop) (f : State → A → State)
  (l : list A) :
  (∀ s x, P s → P (f s x)) → ∀ s, P s → P (foldl f s l).
Proof.
  intros Hf. induction l as [|x l IH]; intros s Hs; cbn; [done|].
  by apply IH, Hf.
Qed.

Lemma with_rateLimitMap_fields isMedia m s :
  let s' := with_rateLimitMap isMedia m s in
  waitingUsers s' = waitingUsers s ∧ activeRooms s' = activeRooms s
  ∧ socketToRoom s' = socketToRoom s ∧ rooms s' = rooms s
  ∧ sockets s' = sockets s ∧ uuid s' = uuid s ∧ outbox s' = outbox s.
Proof. by destruct isMedia. Qed.

Lemma stale_unbind_session_invariant h rid s s' :
  session_invariant s →
  socketToRoom s !! h = Some rid →
  rid ∉ JsMap.keys (activeRooms s) →
  activeRooms s' = activeRooms s →
  socketToRoom s' = delete h (socketToRoom s) →
  rooms s' = rooms s →
  session_invariant s'.
Proof.
  intros Hinv Hh Hrid Ha Hb Hr.
  apply (session_invariant_keeps (Some rid) s _ Hinv).
  - intros u r Hu Hne. unfold group. rewrite Hb, Hr. split; [|done].
    rewrite lookup_delete_ne; [done|]. intros <-. congruence.
  - by rewrite Ha.
  - rewrite Ha. intros e He [= ->]. apply Hrid, list_elem_of_fmap.
    by exists e.
Qed.

Lemma send_message_session_invariant h data now s :
  session_invariant s → session_invariant (send_message CONFIG h data now s).
Proof.
  intros Hinv. unfold send_message, checkRateLimit.
  set (s1 := with_rateLimitMap _ _ s).
  destruct (with_rateLimitMap_fields (isMediaOf data)
              (<[h:={| count := count (currentWindow CONFIG (isMediaOf data) now
                                         (rateLimitMap (isMediaOf data) s !! h)) + 1;
                       windowStart := windowStart (currentWindow CONFIG (isMediaOf data) now
                                         (rateLimitMap (isMediaOf data) s !! h)) |}]>
                 (rateLimitMap (isMediaOf data) s)) s)
    as (Hw & Ha & Hb & Hr & _).
  fold s1 in Hw, Ha, Hb, Hr.
  assert (session_invariant s1) as Hinv1
    by (by apply (session_invariant_unchanged s)).
  destruct data; [by apply (session_invariant_unchanged s)|..];
    (destruct (negb _); [by apply (session_invariant_unchanged s1)|]);
    (destruct (validateMessage _ _); [by apply (session_invariant_unchanged s1)|]);
    (destruct (socketToRoom s1 !! h) as [rid|] eqn:Hrid;
       [|by apply (session_invariant_unchanged s1)]);
    (destruct (JsMap.has rid (activeRooms s1)) eqn:Hhas; cbn [negb];
       [by apply (session_invariant_unchanged s1)|]).
  all: apply JsMap_has_false in Hhas.
  all: by apply (stale_unbind_session_invariant h rid s1).
Qed.

Lemma relay_to_partner_session_invariant h ev s :
  session_invariant s → session_invariant (relay_to_partner h ev s).
Proof.
  intros Hinv. unfold relay_to_partner.
  repeat case_match; try done; by apply (session_invariant_unchanged s).
Qed.

Lemma end_chat_session_invariant h s :
  session_invariant s → session_invariant (end_chat h s).
Proof.
  intros Hinv. unfold end_chat.
  destruct (socketToRoom s !! h) as [rid|] eqn:Hrid; [|done].
  set (s1 := emit_to rid _ s).
  change (activeRooms s1) with (activeRooms s).
  destruct (JsMap.get rid (activeRooms s)) as [room|] eqn:Hroom.
  - destruct (unbind_and_leave_fields rid room s1)
      as (Hw & Ha & Hb & Ho & Hs & Hg).
    apply JsMap_get_Some_elem in Hroom.
    apply (evict_session_invariant s _ rid room Hinv Hroom); state_simpl.
    + by rewrite Ha.
    + by rewrite Hb.
    + intros r Hr. unfold group in *. state_simpl. by apply Hg.
  - apply JsMap_get_None in Hroom.
    apply (session_invariant_unchanged s); state_simpl; try done.
    by apply JsMap_delete_absent.
Qed.

Lemma unbind_partner_fields h rid s :
  let s' := unbind_partner h rid s in
  waitingUsers s' = waitingUsers s
  ∧ activeRooms s' = activeRooms s
  ∧ outbox s' = outbox s
  ∧ sockets s' = sockets s
  ∧ (∀ r, r ≠ rid → group r s' = group r s)
  ∧ match JsMap.get rid (activeRooms s) with
    | Some room =>
        ∃ p, p ∈ members room ∧ (socketId (user1 room) = h → p = socketId (user2 room))
          ∧ (socketId (user1 room) ≠ h → p = socketId (user1 room))
          ∧ socketToRoom s' = delete p (socketToRoom s)
    | None => s' = s
    end.
Proof.
  cbv zeta. unfold unbind_partner.
  destruct (JsMap.get rid (activeRooms s)) as [room|]; [|done].
  set (p := if decide _ then _ else _).
  destruct (leave_if_connected_fields p rid
              (with_socketToRoom (delete p (socketToRoom s)) s))
    as (Hw & Ha & Hb & Ho & Hs).
  rewrite Hw, Ha, Hb, Ho, Hs. repeat split; try done.
  - intros r Hr. by rewrite group_leave_if_connected_ne.
  - exists p. subst p. case_decide; (split; [|done]).
    + right; left.
    + left.
Qed.

Lemma disconnect_session_invariant h s :
  session_invariant s → session_invariant (disconnect h s).
Proof.
  intros Hinv. unfold disconnect, on_disconnect. state_simpl.
  destruct (socketToRoom s !! h) as [rid|] eqn:Hrid.
  - set (sb := broadcast_to h rid _ _).
    destruct (unbind_partner_fields h rid sb) as (_ & Ha & _ & _ & Hg & Hb).
    change (activeRooms sb) with (activeRooms s) in *.
    change (socketToRoom sb) with (socketToRoom s) in *.
    apply (session_invariant_keeps (Some rid) s _ Hinv); state_simpl.
    + intros u r Hu Hr. assert (r ≠ rid) as Hne by congruence.
      split; state_simpl.
      * rewrite lookup_delete_ne by congruence.
        destruct (JsMap.get rid (activeRooms s)) as [room|] eqn:Hroom.
        -- destruct Hb as (p & Hp & _ & _ & ->).
           rewrite lookup_delete_ne; [done|]. intros <-.
           apply JsMap_get_Some_elem in Hroom.
           destruct Hinv as [_ Hok]. destruct (Hok _ Hroom) as [_ Hm].
           destruct (Hm p Hp) as [? _]. cbn in *. congruence.
        -- by rewrite Hb.
      * unfold group at 2. state_simpl. fold (group r (unbind_partner h rid sb)).
        rewrite Hg by done.
        change (group r sb) with (group r (transport_close h s)).
        rewrite group_transport_close. intros ?.
        apply elem_of_difference. split; [done|].
        rewrite not_elem_of_singleton. congruence.
    + rewrite Ha. apply JsMap_delete_sublist.
    + intros e. rewrite Ha, JsMap_elem_of_delete. intros [_ ?]. congruence.
  - apply (session_invariant_keeps None s _ Hinv); state_simpl; [|done|done].
    intros u r Hu _. state_simpl. split; [done|].
    unfold group at 2. state_simpl.
    change (default ∅ (((λ g : gset string, g ∖ {[h]}) <$> rooms s) !! r))
      with (group r (transport_close h s)).
    rewrite group_transport_close. intros ?. apply elem_of_difference.
    split; [done|]. rewrite not_elem_of_singleton. congruence.
Qed.

(** A loop over a snapshot of [activeRooms] whose body removes at most the
    room it visits. *)
Lemma foldl_rooms (body : State → nat * Room → State) (P : State → Prop) :
  (∀ s e, P s → e ∈ activeRooms s → P (body s e)) →
  (∀ s e e', e' ∈ activeRooms s → e'.1 ≠ e.1 → e' ∈ activeRooms (body s e)) →
  ∀ l s, NoDup l.*1 → (∀ e, e ∈ l → e ∈ activeRooms s) → P s →
    P (foldl body s l)
    ∧ ∀ e', e' ∈ activeRooms s → e'.1 ∉ l.*1 →
        e' ∈ activeRooms (foldl body s l).
Proof.
  intros HP Hrest. induction l as [|e l IH]; intros s Hnd Hin Hs.
  - cbn. done.
  - rewrite fmap_cons, NoDup_cons in Hnd. destruct Hnd as [He Hnd].
    cbn [foldl].
    destruct (IH (body s e)) as [IH1 IH2]; [done| |apply HP; [done|]|].
    + intros e' He'. apply Hrest; [apply Hin; by right|].
      intros Heq. apply He. rewrite <- Heq. apply list_elem_of_fmap.
      by exists e'.
    + apply Hin. left.
    + split; [done|]. intros e' He' Hk.
      rewrite fmap_cons, not_elem_of_cons in Hk. destruct Hk as [Hk1 Hk2].
      apply IH2; [|done]. by apply Hrest.
Qed.

Lemma evictStaleRoom_fields now s rid room :
  let s' := evictStaleRoom CONFIG now s (rid, room) in
  if decide (now - createdAt room > ROOM_TIMEOUT CONFIG) then
    waitingUsers s' = waitingUsers s
    ∧ activeRooms s' = JsMap.delete rid (activeRooms s)
    ∧ socketToRoom s'
      = delete (socketId (user2 room))
          (delete (socketId (user1 room)) (socketToRoom s))
    ∧ (∀ r, r ≠ rid → group r s' = group r s)
    ∧ outbox s' = outbox s ++ [(group rid s, EvChatEnded "Session timeout")]
  else s' = s.
Proof.
  cbv zeta. unfold evictStaleRoom. case_decide; [|done].
  set (s1 := emit_to rid _ s).
  destruct (unbind_and_leave_fields rid room s1)
    as (Hw & Ha & Hb & Ho & Hs & Hg).
  state_simpl. rewrite Hw, Ha, Hb, Ho. repeat split; done.
Qed.

Lemma evictStaleRoom_session_invariant now s e :
  session_invariant s → e ∈ activeRooms s →
  session_invariant (evictStaleRoom CONFIG now s e).
Proof.
  intros Hinv He. destruct e as [rid room].
  pose proof (evictStaleRoom_fields now s rid room) as Hf. cbv zeta in Hf.
  case_decide; [|by rewrite Hf]. destruct Hf as (_ & Ha & Hb & Hg & _).
  by apply (evict_session_invariant s _ rid room).
Qed.

Lemma evictStaleRoom_others now s e e' :
  e' ∈ activeRooms s → e'.1 ≠ e.1 →
  e' ∈ activeRooms (evictStaleRoom CONFIG now s e).
Proof.
  intros He' Hne. destruct e as [rid room].
  pose proof (evictStaleRoom_fields now s rid room) as Hf. cbv zeta in Hf.
  case_decide; [|by rewrite Hf]. destruct Hf as (_ & -> & _).
  by apply JsMap_elem_of_delete.
Qed.

Lemma cleanupStaleRooms_session_invariant now s :
  session_invariant s → session_invariant (cleanupStaleRooms CONFIG now s).
Proof.
  intros Hinv. unfold cleanupStaleRooms.
  apply (foldl_rooms (evictStaleRoom CONFIG now) session_invariant);
    [apply evictStaleRoom_session_invariant|apply evictStaleRoom_others
    |apply Hinv|done|done].
Qed.

Lemma insertByKey_Permutation {A} (key : A → Z) x l :
  insertByKey key x l ≡ₚ x :: l.
Proof.
  induction l as [|y l IH]; cbn; [done|]. case_decide; [done|].
  rewrite IH. apply Permutation_swap.
Qed.

Lemma sortByKey_Permutation {A} (key : A → Z) (l : list A) :
  sortByKey key l ≡ₚ l.
Proof.
  unfold sortByKey. induction l as [|x l IH]; cbn; [done|].
  by rewrite insertByKey_Permutation, IH.
Qed.

Lemma evictOldestRoom_session_invariant s e :
  session_invariant s → e ∈ activeRooms s →
  session_invariant (evictOldestRoom s e).
Proof.
  intros Hinv He. destruct e as [rid room].
  by apply (evict_session_invariant s _ rid room).
Qed.

Lemma evictOldestRoom_others s e e' :
  e' ∈ activeRooms s → e'.1 ≠ e.1 → e' ∈ activeRooms (evictOldestRoom s e).
Proof.
  intros He' Hne. destruct e as [rid room]. unfold evictOldestRoom.
  state_simpl. by apply JsMap_elem_of_delete.
Qed.

Lemma take_sorted_rooms n (l : list (nat * Room)) :
  NoDup l.*1 →
  NoDup (take n (sortByKey (λ e : nat * Room, createdAt e.2) l)).*1
  ∧ ∀ e, e ∈ take n (sortByKey (λ e : nat * Room, createdAt e.2) l) → e ∈ l.
Proof.
  intros Hnd. split.
  - eapply sublist_NoDup; [|apply fmap_sublist, sublist_take].
    by rewrite sortByKey_Permutation.
  - intros e He. apply elem_of_take in He as (i & He & _).
    apply list_elem_of_lookup_2 in He. by rewrite sortByKey_Permutation in He.
Qed.

Lemma enforceMemoryLimits_session_invariant s :
  session_invariant s → session_invariant (enforceMemoryLimits CONFIG s).
Proof.
  intros Hinv. unfold enforceMemoryLimits, enforceWaitingLimit.
  assert (∀ l, session_invariant
                 (foldl (λ s (e : string * User),
                           with_waitingUsers (JsMap.delete e.1 (waitingUsers s)) s)
                    s l)) as Hw.
  { intros l. apply foldl_preserves; [|done]. intros s1 x.
    by apply session_invariant_unchanged. }
  assert (∀ s1, session_invariant s1 →
                session_invariant (enforceRoomLimit CONFIG s1)) as Hr.
  { intros s1 Hs1. unfold enforceRoomLimit. case_decide; [|done].
    destruct (take_sorted_rooms
                (Z.to_nat (Z.of_nat (length (activeRooms s1))
                           - MAX_ACTIVE_ROOMS CONFIG))
                (activeRooms s1)) as [Hnd Hin]; [apply Hs1|].
    apply (foldl_rooms evictOldestRoom session_invariant);
      [apply evictOldestRoom_session_invariant|apply evictOldestRoom_others
      |done|done|done]. }
  case_decide; [|by apply Hr]. case_bool_decide; [apply Hw|apply Hr, Hw].
Qed.

Lemma cleanupWaitingUsers_session_invariant now s :
  session_invariant s → session_invariant (cleanupWaitingUsers CONFIG now s).
Proof.
  unfold cleanupWaitingUsers. apply foldl_preserves.
  intros s1 [k u] Hs1. case_decide; [|done].
  by apply (session_invariant_unchanged s1).
Qed.

Lemma join_queue_session_invariant h userData now d s :
  queue_invariant s → session_invariant s →
  session_invariant (join_queue CONFIG h userData now d s).
Proof.
  intros [_ Hq] Hinv. unfold join_queue.
  destruct (validateUserData CONFIG userData) as [err|validData];
    [by apply (session_invariant_unchanged s)|].
  destruct (JsMap.has h (waitingUsers s)
            || bool_decide (is_Some (socketToRoom s !! h))) eqn:Hguard;
    [by apply (session_invariant_unchanged s)|].
  apply orb_false_iff in Hguard as [_ Hnb].
  apply bool_decide_eq_false in Hnb. rewrite <- eq_None_not_Some in Hnb.
  assert (∀ s', activeRooms s' = activeRooms s →
                socketToRoom s' = socketToRoom s →
                rooms s' = rooms (join h (uuid s) s) →
                session_invariant s') as Hjoined.
  { intros s' Ha Hb Hr.
    apply (session_invariant_keeps None s s' Hinv); [|by rewrite Ha|done].
    intros u r Hu _. rewrite Hb. split; [done|].
    unfold group at 2. rewrite Hr. fold (group r (join h (uuid s) s)).
    rewrite group_join. case_decide; [subst; set_solver|done]. }
  destruct (findMatch _ h d (waitingUsers s)) as [m|] eqn:Hm; cbv zeta;
    [|by apply (session_invariant_unchanged s)].
  apply (findMatch_in_queue) in Hm as [Hmin Hmne].
  case_decide as Hconn; [|by apply Hjoined].
  destruct Hinv as [Hnd Hok]. split; state_simpl.
  - by apply JsMap_set_NoDup.
  - intros e He. apply JsMap_elem_of_set in He as [->|[He Hne]]; [| |done].
    + split; [cbn; congruence|]. cbn [fst snd members user1 user2 socketId].
      intros u Hu. unfold group. state_simpl.
      rewrite lookup_insert_eq. cbn [default].
      apply elem_of_cons in Hu as [->|Hu].
      * rewrite lookup_insert_ne, lookup_insert_eq by done. split; [done|].
        unfold group. state_simpl. rewrite lookup_insert_eq. set_solver.
      * apply list_elem_of_singleton in Hu as ->.
        rewrite lookup_insert_eq. split; [done|set_solver].
    + destruct (Hok e He) as [Hd Hmem]. split; [done|].
      intros u Hu. destruct (Hmem u Hu) as [Hb Hg].
      unfold group in *. state_simpl. split.
      * rewrite !lookup_insert_ne; [done| |].
        -- intros <-. congruence.
        -- intros <-. rewrite (Hq _ Hmin) in Hb. done.
      * by rewrite !lookup_insert_ne by congruence.
Qed.

Lemma run_session_invariant op s :
  queue_invariant s → session_invariant s →
  session_invariant (run CONFIG op s).
Proof.
  intros Hq Hinv. destruct op; cbn [run].
  - by apply (session_invariant_unchanged s).
  - by apply join_queue_session_invariant.
  - by apply (session_invariant_unchanged s).
  - by apply send_message_session_invariant.
  - by apply relay_to_partner_session_invariant.
  - by apply relay_to_partner_session_invariant.
  - by apply relay_to_partner_session_invariant.
  - by apply end_chat_session_invariant.
  - by apply relay_to_partner_session_invariant.
  - by apply disconnect_session_invariant.
  - by apply cleanupWaitingUsers_session_invariant.
  - by apply cleanupStaleRooms_session_invariant.
  - by apply (session_invariant_unchanged s).
  - by apply enforceMemoryLimits_session_invariant.
  - unfold cleanup. apply enforceMemoryLimits_session_invariant.
    apply (session_invariant_unchanged
             (cleanupStaleRooms CONFIG now (cleanupWaitingUsers CONFIG now s)));
      try done.
    by apply cleanupStaleRooms_session_invariant,
      cleanupWaitingUsers_session_invariant.
Qed.

Lemma reachable_invariants ops :
  queue_invariant (run_all CONFIG ops initial_state)
  ∧ session_invariant (run_all CONFIG ops initial_state).
Proof.
  induction ops as [|op ops [IHq IHs]] using rev_ind.
  - split; [apply initial_queue_invariant|].
    split; [constructor|]. intros e He. inversion He.
  - rewrite run_all_snoc. split.
    + by apply run_queue_invariant.
    + by apply run_session_invariant.
Qed.

End SessionInvariant.

(** ** End of a session *)

Section SessionEnd.
Variable CONFIG : Config.

Lemma notified_intro s s' pre post recipients ev m :
  outbox s' = outbox s ++ pre ++ (recipients, ev) :: post →
  m ∈ recipients → notified s s' m ev.
Proof.
  intros Ho Hm. exists recipients. split; [|done].
  rewrite Ho, drop_app_length. apply elem_of_app. right. left.
Qed.

Lemma end_chat_unbound h s : socketToRoom s !! h = None → end_chat h s = s.
Proof. intros Hh. unfold end_chat. by rewrite Hh. Qed.

(** What [end-chat] does to a registered session. *)
Lemma end_chat_registered h s rid room :
  socketToRoom s !! h = Some rid →
  JsMap.get rid (activeRooms s) = Some room →
  let s' := end_chat h s in
  outbox s' = outbox s ++ [(group rid s, EvChatEnded "User left the chat")]
  ∧ JsMap.get rid (activeRooms s') = None
  ∧ ∀ m, m ∈ members room → socketToRoom s' !! m = None.
Proof.
  intros Hh Hroom. cbv zeta. unfold end_chat. rewrite Hh.
  set (s1 := emit_to rid _ s).
  change (activeRooms s1) with (activeRooms s). rewrite Hroom.
  destruct (unbind_and_leave_fields rid room s1)
    as (Hw & Ha & Hb & Ho & Hs & Hg).
  state_simpl. rewrite Ho, Hb. split; [done|]. split.
  - apply JsMap_get_delete_eq.
  - intros m Hm. state_simpl.
    apply elem_of_cons in Hm as [->|Hm].
    + destruct (decide (socketId (user1 room) = socketId (user2 room))) as [<-|];
        [apply lookup_delete_eq|].
      rewrite lookup_delete_ne by done. apply lookup_delete_eq.
    + apply list_elem_of_singleton in Hm as ->. apply lookup_delete_eq.
Qed.

(** What the disconnection of a member does to a registered session. *)
Lemma disconnect_registered h s rid room :
  socketToRoom s !! h = Some rid →
  JsMap.get rid (activeRooms s) = Some room →
  h ∈ members room →
  let s' := disconnect h s in
  outbox s'
    = outbox s ++ [(group rid s ∖ {[h]}, EvChatEnded "Partner disconnected")]
  ∧ JsMap.get rid (activeRooms s') = None
  ∧ ∀ m, m ∈ members room → socketToRoom s' !! m = None.
Proof.
  intros Hh Hroom Hmem. cbv zeta. unfold disconnect, on_disconnect.
  state_simpl. rewrite Hh.
  set (sb := broadcast_to h rid _ _).
  pose proof (unbind_partner_fields h rid sb) as Hf. cbv zeta in Hf.
  change (activeRooms sb) with (activeRooms s) in Hf.
  change (socketToRoom sb) with (socketToRoom s) in Hf.
  rewrite Hroom in Hf.
  destruct Hf as (_ & Ha & Ho & _ & _ & p & Hp & Hp1 & Hp2 & Hb).
  state_simpl. rewrite Ha, Ho, Hb. split; [|split].
  - subst sb. state_simpl. do 3 f_equal.
    change (group rid _) with (group rid (transport_close h s)) at 1.
    rewrite group_transport_close. set_solver.
  - apply JsMap_get_delete_eq.
  - intros m Hm.
    destruct (decide (m = h)) as [->|Hne]; [apply lookup_delete_eq|].
    rewrite lookup_delete_ne by done.
    assert (m = p) as ->; [|apply lookup_delete_eq].
    unfold members in *. rewrite !elem_of_cons, !elem_of_nil in *.
    destruct (decide (socketId (user1 room) = h)) as [E|E].
    + rewrite (Hp1 E). destruct Hm as [->|[->|[]]]; [congruence|done].
    + rewrite (Hp2 E). destruct Hm as [->|[->|[]]]; [done|].
      destruct Hmem as [->|[->|[]]]; done.
Qed.

(** [enforceMemoryLimits] emits nothing. *)
Lemma enforceMemoryLimits_silent s :
  outbox (enforceMemoryLimits CONFIG s) = outbox s.
Proof.
  unfold enforceMemoryLimits, enforceWaitingLimit, enforceRoomLimit.
  assert (∀ l s1, outbox (foldl (λ s (e : string * User),
                            with_waitingUsers (JsMap.delete e.1 (waitingUsers s)) s)
                     s1 l) = outbox s1) as Hw.
  { intros l s1.
    apply (foldl_preserves (λ s', outbox s' = outbox s1)); [|done].
    intros s2 x Hs2. done. }
  assert (∀ l s1, outbox (foldl evictOldestRoom s1 l) = outbox s1) as Hr.
  { intros l s1.
    apply (foldl_preserves (λ s', outbox s' = outbox s1)); [|done].
    intros s2 [rid room] Hs2. done. }
  repeat case_decide; repeat case_bool_decide;
    rewrite ?Hr, ?Hw; done.
Qed.

Lemma filter_ext_in {A} (P Q : A → Prop) `{!∀ x, Decision (P x)}
  `{!∀ x, Decision (Q x)} (l : list A) :
  (∀ x, x ∈ l → P x ↔ Q x) → filter P l = filter Q l.
Proof.
  induction l as [|x l IH]; intros Hl; [done|].
  rewrite !filter_cons. rewrite IH by (intros; apply Hl; by right).
  destruct (Hl x ltac:(left)). repeat case_decide; tauto.
Qed.

Lemma filter_all {A} (P : A → Prop) `{!∀ x, Decision (P x)} (l : list A) :
  (∀ x, x ∈ l → P x) → filter P l = l.
Proof.
  induction l as [|x l IH]; intros Hl; [done|].
  rewrite filter_cons_True by (apply Hl; left).
  rewrite IH; [done|]. intros; apply Hl; by right.
Qed.

(** The room list after the time-limit phase, for any list of visited
    entries. *)
Lemma activeRooms_foldl_evictStaleRoom now l : ∀ s,
  activeRooms (foldl (evictStaleRoom CONFIG now) s l)
  = filter (λ e, e.1 ∉ (filter (timed_out CONFIG now) l).*1) (activeRooms s).
Proof.
  induction l as [|[rid room] l IH]; intros s.
  - cbn. symmetry. apply filter_all. intros e _. apply not_elem_of_nil.
  - cbn [foldl]. rewrite IH.
    pose proof (evictStaleRoom_fields CONFIG now s rid room) as Hf.
    cbv zeta in Hf.
    destruct (decide (timed_out CONFIG now (rid, room))) as [Hout|Hout].
    + rewrite filter_cons_True by done. unfold timed_out in Hout. cbn in Hout.
      rewrite decide_True in Hf by done. destruct Hf as (_ & -> & _).
      unfold JsMap.delete. rewrite list_filter_filter.
      apply filter_ext_in. intros e _.
      rewrite fmap_cons, not_elem_of_cons. cbn. tauto.
    + rewrite filter_cons_False by done. unfold timed_out in Hout. cbn in Hout.
      rewrite decide_False in Hf by done. by rewrite Hf.
Qed.

Lemma same_key_same_entry {V} (m : list (nat * V)) e e' :
  NoDup (JsMap.keys m) → e ∈ m → e' ∈ m → e.1 = e'.1 → e = e'.
Proof.
  intros Hnd He He' Hk. destruct e as [k v], e' as [k' v']. cbn in Hk. subst k'.
  apply (JsMap_elem_get _ _ _ Hnd) in He, He'. congruence.
Qed.

(** The time-limit phase keeps exactly the sessions that are not past the
    limit. *)
Lemma activeRooms_cleanupStaleRooms now s :
  NoDup (JsMap.keys (activeRooms s)) →
  activeRooms (cleanupStaleRooms CONFIG now s)
  = filter (λ e, ¬ timed_out CONFIG now e) (activeRooms s).
Proof.
  intros Hnd. unfold cleanupStaleRooms.
  rewrite activeRooms_foldl_evictStaleRoom.
  apply filter_ext_in. intros e He. split.
  - intros Hk Hout. apply Hk, list_elem_of_fmap. exists e. split; [done|].
    by apply list_elem_of_filter.
  - intros Hin (e' & Hk & [Hout He']%list_elem_of_filter)%list_elem_of_fmap.
    by rewrite (same_key_same_entry _ e e' Hnd He He' Hk) in Hin.
Qed.

Lemma evictStaleRoom_extends now s e :
  ∃ new, outbox (evictStaleRoom CONFIG now s e) = outbox s ++ new.
Proof.
  destruct e as [rid room].
  pose proof (evictStaleRoom_fields CONFIG now s rid room) as Hf.
  cbv zeta in Hf. case_decide.
  - destruct Hf as (_ & _ & _ & _ & ->). eauto.
  - rewrite Hf. exists []. by rewrite app_nil_r.
Qed.

Lemma evictStaleRoom_unbound now s e m :
  socketToRoom s !! m = None →
  socketToRoom (evictStaleRoom CONFIG now s e) !! m = None.
Proof.
  intros Hm. destruct e as [rid room].
  pose proof (evictStaleRoom_fields CONFIG now s rid room) as Hf.
  cbv zeta in Hf. case_decide; [|by rewrite Hf].
  destruct Hf as (_ & _ & -> & _).
  rewrite !lookup_delete_None. auto.
Qed.

(** The time-limit phase notifies the members of every session it removes,
    with the group as it is when the loop reaches the session. *)
Lemma cleanupStaleRooms_notifies now s rid room m :
  session_invariant s →
  (rid, room) ∈ activeRooms s →
  timed_out CONFIG now (rid, room) →
  m ∈ members room →
  notified s (cleanupStaleRooms CONFIG now s) m (EvChatEnded "Session timeout")
  ∧ socketToRoom (cleanupStaleRooms CONFIG now s) !! m = None.
Proof.
  intros Hinv Hin Hout Hm. unfold cleanupStaleRooms.
  destruct (list_elem_of_split _ _ Hin) as (l1 & l2 & Hl).
  pose proof (proj1 Hinv) as Hnd. unfold JsMap.keys in Hnd.
  rewrite Hl, fmap_app, fmap_cons in Hnd.
  apply NoDup_app in Hnd as (Hnd1 & Hdisj & Hnd2).
  assert (foldl (evictStaleRoom CONFIG now) s (activeRooms s)
          = foldl (evictStaleRoom CONFIG now)
              (evictStaleRoom CONFIG now
                 (foldl (evictStaleRoom CONFIG now) s l1) (rid, room)) l2)
    as ->.
  { transitivity (foldl (evictStaleRoom CONFIG now) s (l1 ++ (rid, room) :: l2));
      [by rewrite <- Hl|by rewrite foldl_app]. }
  destruct (foldl_rooms (evictStaleRoom CONFIG now)
              (λ s', session_invariant s'
                     ∧ ∃ new, outbox s' = outbox s ++ new)
              ltac:(intros s0 e [Hs0 [new Hnew]] He; split;
                      [by apply evictStaleRoom_session_invariant|];
                    destruct (evictStaleRoom_extends now s0 e) as [new' ->];
                    rewrite Hnew, <- app_assoc; eauto)
              (evictStaleRoom_others CONFIG now)
              l1 s Hnd1)
    as [[Hinv1 [new1 Hnew1]] Hrest].
  { intros e He. rewrite Hl. apply elem_of_app. by left. }
  { split; [done|]. exists []. by rewrite app_nil_r. }
  set (s1 := foldl (evictStaleRoom CONFIG now) s l1) in *.
  assert ((rid, room) ∈ activeRooms s1) as Hin1.
  { apply Hrest; [done|]. intros Hk. apply (Hdisj rid Hk). left. }
  pose proof (evictStaleRoom_fields CONFIG now s1 rid room) as Hf.
  cbv zeta in Hf. rewrite decide_True in Hf by exact Hout.
  destruct Hf as (_ & _ & Hb2 & _ & Ho2).
  set (s2 := evictStaleRoom CONFIG now s1 (rid, room)) in *.
  destruct (proj2 Hinv1 _ Hin1) as [_ Hmem]. destruct (Hmem m Hm) as [_ Hg].
  cbn [fst] in Hg.
  assert (socketToRoom s2 !! m = None) as Hun.
  { rewrite Hb2. unfold members in Hm.
    rewrite !elem_of_cons, elem_of_nil in Hm. rewrite !lookup_delete_None.
    destruct Hm as [->|[->|[]]]; auto. }
  split.
  - destruct (foldl_preserves (λ s', ∃ new, outbox s' = outbox s2 ++ new)
                (evictStaleRoom CONFIG now) l2
                ltac:(intros s0 e [new Hnew];
                      destruct (evictStaleRoom_extends now s0 e) as [new' ->];
                      rewrite Hnew, <- app_assoc; eauto)
                s2) as [new2 Hnew2].
    { exists []. by rewrite app_nil_r. }
    apply (notified_intro _ _ new1 new2 (group rid s1)); [|done].
    rewrite Hnew2, Ho2, Hnew1, <- !app_assoc. done.
  - apply (foldl_preserves (λ s', socketToRoom s' !! m = None)); [|done].
    intros s0 e. apply evictStaleRoom_unbound.
Qed.

End SessionEnd.

(** ** Bindings point to registered sessions *)

Section BindingInvariant.
Variable CONFIG : Config.

Lemma binding_invariant_unchanged s s' :
  activeRooms s' = activeRooms s →
  socketToRoom s' = socketToRoom s →
  (uuid s ≤ uuid s')%nat →
  binding_invariant s → binding_invariant s'.
Proof.
  intros Ha Hb Hu Hinv h rid. rewrite Hb, Ha. intros Hh.
  destruct (Hinv h rid Hh) as [Hlt Hroom]. split; [lia|done].
Qed.

Lemma members_elem room h :
  h ∈ members room ↔ h = socketId (user1 room) ∨ h = socketId (user2 room).
Proof.
  unfold members. rewrite !elem_of_cons, elem_of_nil. tauto.
Qed.

(** Removing a registered room with the bindings of its two members. *)
Lemma evict_binding_invariant s s' rid room :
  session_invariant s → binding_invariant s →
  (rid, room) ∈ activeRooms s →
  activeRooms s' = JsMap.delete rid (activeRooms s) →
  socketToRoom s'
    = delete (socketId (user2 room))
        (delete (socketId (user1 room)) (socketToRoom s)) →
  uuid s' = uuid s →
  binding_invariant s'.
Proof.
  intros [Hnd _] Hbind Hin Ha Hb Hu h r. rewrite Hb, Ha, Hu.
  intros Hh. apply lookup_delete_Some in Hh as [Hh2 Hh].
  apply lookup_delete_Some in Hh as [Hh1 Hh].
  destruct (Hbind h r Hh) as [Hlt (room' & Hin' & Hm)]. split; [done|].
  exists room'. split; [|done]. apply JsMap_elem_of_delete. split; [done|].
  cbn. intros ->.
  assert ((rid, room') = (rid, room)) as [= ->]
    by (by apply (same_key_same_entry (activeRooms s))).
  apply members_elem in Hm as [->| ->]; done.
Qed.

Lemma end_chat_binding_invariant h s :
  session_invariant s → binding_invariant s → binding_invariant (end_chat h s).
Proof.
  intros Hinv Hbind. unfold end_chat.
  destruct (socketToRoom s !! h) as [rid|] eqn:Hrid; [|done].
  set (s1 := emit_to rid _ s).
  change (activeRooms s1) with (activeRooms s).
  destruct (JsMap.get rid (activeRooms s)) as [room|] eqn:Hroom.
  - destruct (unbind_and_leave_fields rid room s1)
      as (Hw & Ha & Hb & Ho & Hs & Hg).
    apply JsMap_get_Some_elem in Hroom.
    apply (evict_binding_invariant s _ rid room Hinv Hbind Hroom); state_simpl.
    + by rewrite Ha.
    + by rewrite Hb.
    + unfold unbind_and_leave, leave_if_connected. by repeat case_decide.
  - apply JsMap_get_None in Hroom.
    apply (binding_invariant_unchanged s); state_simpl; try done.
    by apply JsMap_delete_absent.
Qed.

(** In a state that satisfies the invariants, a connection bound to a
    session is one of the two members of the registered room. *)
Lemma bound_member s h rid :
  session_invariant s → binding_invariant s →
  socketToRoom s !! h = Some rid →
  ∃ room, JsMap.get rid (activeRooms s) = Some room ∧ h ∈ members room.
Proof.
  intros [Hnd _] Hbind Hh. destruct (Hbind h rid Hh) as [_ (room & Hin & Hm)].
  exists room. split; [|done]. by apply JsMap_elem_get.
Qed.

Lemma disconnect_binding_invariant h s :
  session_invariant s → binding_invariant s →
  binding_invariant (disconnect h s).
Proof.
  intros Hinv Hbind. unfold disconnect, on_disconnect. state_simpl.
  destruct (socketToRoom s !! h) as [rid|] eqn:Hrid.
  - destruct (bound_member s h rid Hinv Hbind Hrid) as (room & Hroom & Hm).
    set (sb := broadcast_to h rid _ _).
    pose proof (unbind_partner_fields h rid sb) as Hf. cbv zeta in Hf.
    change (activeRooms sb) with (activeRooms s) in Hf.
    change (socketToRoom sb) with (socketToRoom s) in Hf.
    rewrite Hroom in Hf.
    destruct Hf as (_ & Ha & _ & _ & _ & p & Hp & Hp1 & Hp2 & Hb).
    apply JsMap_get_Some_elem in Hroom.
    apply (evict_binding_invariant s _ rid room Hinv Hbind Hroom); state_simpl.
    + by rewrite Ha.
    + rewrite Hb. apply members_elem in Hm.
      destruct (decide (socketId (user1 room) = h)) as [E|E].
      * rewrite (Hp1 E), <- E. apply delete_delete.
      * rewrite (Hp2 E). destruct Hm as [->| ->]; done.
    + unfold unbind_partner, leave_if_connected.
      by repeat (case_match || case_decide).
  - by apply (binding_invariant_unchanged s).
Qed.

Lemma send_message_binding_invariant h data now s :
  binding_invariant s → binding_invariant (send_message CONFIG h data now s).
Proof.
  intros Hbind. unfold send_message, checkRateLimit.
  set (s1 := with_rateLimitMap _ _ s).
  destruct (with_rateLimitMap_fields (isMediaOf data)
              (<[h:={| count := count (currentWindow CONFIG (isMediaOf data) now
                                         (rateLimitMap (isMediaOf data) s !! h)) + 1;
                       windowStart := windowStart (currentWindow CONFIG (isMediaOf data) now
                                         (rateLimitMap (isMediaOf data) s !! h)) |}]>
                 (rateLimitMap (isMediaOf data) s)) s)
    as (Hw & Ha & Hb & Hr & _ & Hu & _).
  fold s1 in Hw, Ha, Hb, Hr, Hu.
  assert (binding_invariant s1) as Hbind1
    by (apply (binding_invariant_unchanged s); [done|done|lia|done]).
  destruct data; [by apply (binding_invariant_unchanged s)|..];
    (destruct (negb _);
       [by apply (binding_invariant_unchanged s1)|]);
    (destruct (validateMessage _ _);
       [by apply (binding_invariant_unchanged s1)|]);
    (destruct (socketToRoom s1 !! h) as [rid|] eqn:Hrid;
       [|by apply (binding_invariant_unchanged s1)]);
    (destruct (JsMap.has rid (activeRooms s1)) eqn:Hhas; cbn [negb];
       [apply (binding_invariant_unchanged s1); state_simpl; [done|done|lia|done]|]).
  all: intros h' r; state_simpl; intros [_ Hh']%lookup_delete_Some.
  all: by apply Hbind1.
Qed.

Lemma evictStaleRoom_binding_invariant now s e :
  session_invariant s → binding_invariant s → e ∈ activeRooms s →
  binding_invariant (evictStaleRoom CONFIG now s e).
Proof.
  intros Hinv Hbind He. destruct e as [rid room].
  pose proof (evictStaleRoom_fields CONFIG now s rid room) as Hf.
  cbv zeta in Hf. case_decide as Hout; [|by rewrite Hf].
  destruct Hf as (_ & Ha & Hb & _ & _).
  apply (evict_binding_invariant s _ rid room); try done.
  unfold evictStaleRoom. rewrite decide_True by done. state_simpl.
  unfold unbind_and_leave, leave_if_connected. by repeat case_decide.
Qed.

Lemma cleanupStaleRooms_invariants now s :
  session_invariant s → binding_invariant s →
  session_invariant (cleanupStaleRooms CONFIG now s)
  ∧ binding_invariant (cleanupStaleRooms CONFIG now s).
Proof.
  intros Hinv Hbind. unfold cleanupStaleRooms.
  apply (foldl_rooms (evictStaleRoom CONFIG now)
           (λ s', session_invariant s' ∧ binding_invariant s'));
    [|apply evictStaleRoom_others|apply Hinv|done|done].
  intros s0 e [H1 H2] He. split.
  - by apply evictStaleRoom_session_invariant.
  - by apply evictStaleRoom_binding_invariant.
Qed.

Lemma enforceMemoryLimits_binding_invariant s :
  session_invariant s → binding_invariant s →
  binding_invariant (enforceMemoryLimits CONFIG s).
Proof.
  intros Hinv Hbind. unfold enforceMemoryLimits, enforceWaitingLimit.
  assert (∀ l, let s' := foldl (λ s (e : string * User),
                           with_waitingUsers (JsMap.delete e.1 (waitingUsers s)) s)
                    s l in
               session_invariant s' ∧ binding_invariant s') as Hw.
  { intros l. cbv zeta.
    apply (foldl_preserves (λ s', session_invariant s' ∧ binding_invariant s'));
      [|done].
    intros s1 x [H1 H2]. split.
    - by apply (session_invariant_unchanged s1).
    - by apply (binding_invariant_unchanged s1). }
  assert (∀ s1, session_invariant s1 → binding_invariant s1 →
                binding_invariant (enforceRoomLimit CONFIG s1)) as Hr.
  { intros s1 Hs1 Hb1. unfold enforceRoomLimit. case_decide; [|done].
    destruct (take_sorted_rooms
                (Z.to_nat (Z.of_nat (length (activeRooms s1))
                           - MAX_ACTIVE_ROOMS CONFIG))
                (activeRooms s1)) as [Hnd Hin]; [apply Hs1|].
    apply (foldl_rooms evictOldestRoom
             (λ s', session_invariant s' ∧ binding_invariant s'));
      [|apply evictOldestRoom_others|done|done|done].
    intros s0 [rid room] [H1 H2] He. split.
    - by apply evictOldestRoom_session_invariant.
    - by apply (evict_binding_invariant s0 _ rid room). }
  case_decide; [|by apply Hr]. cbv zeta in Hw.
  case_bool_decide; [apply Hw|apply Hr; apply Hw].
Qed.

Lemma join_queue_binding_invariant h userData now d s :
  session_invariant s → binding_invariant s →
  binding_invariant (join_queue CONFIG h userData now d s).
Proof.
  intros Hinv Hbind. unfold join_queue.
  destruct (validateUserData CONFIG userData) as [err|validData];
    [by apply (binding_invariant_unchanged s)|].
  destruct (JsMap.has h (waitingUsers s)
            || bool_decide (is_Some (socketToRoom s !! h)));
    [by apply (binding_invariant_unchanged s)|].
  destruct (findMatch _ h d (waitingUsers s)) as [m|]; cbv zeta;
    [|by apply (binding_invariant_unchanged s)].
  case_decide as Hconn;
    [|apply (binding_invariant_unchanged s); state_simpl; [done|done|lia|done]].
  intros h' r. state_simpl. intros Hh'.
  assert (∀ room, (uuid s, room) ∉ activeRooms s) as Hfresh.
  { intros room Hin. destruct Hinv as [_ Hok].
    destruct (Hok _ Hin) as [_ Hm].
    destruct (Hm (socketId (user1 room))) as [Hb _]; [left|].
    destruct (Hbind _ _ Hb) as [Hlt _]. cbn in Hlt. lia. }
  apply lookup_insert_Some in Hh' as [[<- <-]|[Hne1 Hh']].
  { split; [lia|]. eexists. split.
    - apply JsMap_elem_of_set; [apply Hinv|]. by left.
    - right; left. }
  apply lookup_insert_Some in Hh' as [[<- <-]|[Hne2 Hh']].
  { split; [lia|]. eexists. split.
    - apply JsMap_elem_of_set; [apply Hinv|]. by left.
    - left. }
  destruct (Hbind h' r Hh') as [Hlt (room & Hin & Hm)]. split; [lia|].
  exists room. split; [|done].
  apply JsMap_elem_of_set; [apply Hinv|]. right. split; [done|].
  cbn. lia.
Qed.

Lemma run_binding_invariant op s :
  session_invariant s → binding_invariant s →
  binding_invariant (run CONFIG op s).
Proof.
  intros Hinv Hbind. destruct op; cbn [run].
  - by apply (binding_invariant_unchanged s).
  - by apply join_queue_binding_invariant.
  - by apply (binding_invariant_unchanged s).
  - by apply send_message_binding_invariant.
  - unfold webrtc_offer, relay_to_partner.
    repeat case_match; try done; by apply (binding_invariant_unchanged s).
  - unfold webrtc_answer, relay_to_partner.
    repeat case_match; try done; by apply (binding_invariant_unchanged s).
  - unfold webrtc_ice_candidate, relay_to_partner.
    repeat case_match; try done; by apply (binding_invariant_unchanged s).
  - by apply end_chat_binding_invariant.
  - unfold typing, relay_to_partner.
    repeat case_match; try done; by apply (binding_invariant_unchanged s).
  - by apply disconnect_binding_invariant.
  - unfold cleanupWaitingUsers.
    apply (foldl_preserves binding_invariant); [|done].
    intros s1 [k u] Hs1. case_decide; [|done].
    by apply (binding_invariant_unchanged s1).
  - by apply cleanupStaleRooms_invariants.
  - by apply (binding_invariant_unchanged s).
  - by apply enforceMemoryLimits_binding_invariant.
  - unfold cleanup.
    assert (session_invariant (cleanupWaitingUsers CONFIG now s)
            ∧ binding_invariant (cleanupWaitingUsers CONFIG now s)) as [H1 H2].
    { split; [by apply cleanupWaitingUsers_session_invariant|].
      unfold cleanupWaitingUsers.
      apply (foldl_preserves binding_invariant); [|done].
      intros s1 [k u] Hs1. case_decide; [|done].
      by apply (binding_invariant_unchanged s1). }
    destruct (cleanupStaleRooms_invariants now _ H1 H2) as [H3 H4].
    apply enforceMemoryLimits_binding_invariant.
    + by apply (session_invariant_unchanged
                  (cleanupStaleRooms CONFIG now (cleanupWaitingUsers CONFIG now s))).
    + by apply (binding_invariant_unchanged
                  (cleanupStaleRooms CONFIG now (cleanupWaitingUsers CONFIG now s))).
Qed.

Lemma reachable_binding_invariant ops :
  binding_invariant (run_all CONFIG ops initial_state).
Proof.
  induction ops as [|op ops IH] using rev_ind.
  - intros h rid Hh. done.
  - rewrite run_all_snoc. apply run_binding_invariant; [|done].
    apply reachable_invariants.
Qed.

End BindingInvariant.

(** C4 (as amended). In every state the engine can reach: [end-chat] by a
    bound connection, the disconnection of a bound connection, and the
    time-limit phase of the cleanup each send [chat-ended] with their
    reason ("User left the chat", "Partner disconnected", "Session
    timeout") to the other members of the session, the recipients being
    the session's group as it is before the session and the bindings are
    removed; the capacity phase ([enforceMemoryLimits]) emits nothing. *)
Theorem session_end_notifies (CONFIG : Config) (ops : list Op) :
  let s := run_all CONFIG ops initial_state in
  (∀ h roomId room m,
     socketToRoom s !! h = Some roomId →
     JsMap.get roomId (activeRooms s) = Some room →
     m ∈ members room →
     outbox (end_chat h s)
       = outbox s ++ [(group roomId s, EvChatEnded "User left the chat")]
     ∧ m ∈ group roomId s
     ∧ JsMap.get roomId (activeRooms (end_chat h s)) = None
     ∧ socketToRoom (end_chat h s) !! m = None)
  ∧ (∀ h roomId room m,
       socketToRoom s !! h = Some roomId →
       JsMap.get roomId (activeRooms s) = Some room →
       m ∈ members room → m ≠ h →
       outbox (disconnect h s)
         = outbox s ++ [(group roomId s ∖ {[h]},
                         EvChatEnded "Partner disconnected")]
       ∧ m ∈ group roomId s ∖ {[h]}
       ∧ JsMap.get roomId (activeRooms (disconnect h s)) = None
       ∧ socketToRoom (disconnect h s) !! m = None)
  ∧ (∀ now roomId room m,
       (roomId, room) ∈ activeRooms s →
       timed_out CONFIG now (roomId, room) →
       m ∈ members room →
       notified s (cleanupStaleRooms CONFIG now s) m
         (EvChatEnded "Session timeout")
       ∧ JsMap.get roomId (activeRooms (cleanupStaleRooms CONFIG now s)) = None
       ∧ socketToRoom (cleanupStaleRooms CONFIG now s) !! m = None)
  ∧ (∀ s0, outbox (enforceMemoryLimits CONFIG s0) = outbox s0).
Proof.
  cbv zeta. destruct (reachable_invariants CONFIG ops) as [_ Hinv].
  pose proof (reachable_binding_invariant CONFIG ops) as Hbind.
  set (s := run_all CONFIG ops initial_state) in *.
  split; [|split; [|split]].
  - intros h rid room m Hh Hroom Hm.
    destruct (end_chat_registered h s rid room Hh Hroom) as (Ho & Hgone & Hun).
    apply JsMap_get_Some_elem in Hroom.
    destruct (proj2 Hinv _ Hroom) as [_ Hmem]. destruct (Hmem m Hm) as [_ Hg].
    auto.
  - intros h rid room m Hh Hroom Hm Hne.
    destruct (bound_member s h rid Hinv Hbind Hh) as (room' & Hroom' & Hhm).
    assert (room' = room) as -> by congruence.
    destruct (disconnect_registered h s rid room Hh Hroom Hhm)
      as (Ho & Hgone & Hun).
    apply JsMap_get_Some_elem in Hroom.
    destruct (proj2 Hinv _ Hroom) as [_ Hmem]. destruct (Hmem m Hm) as [_ Hg].
    cbn [fst] in Hg. repeat split; auto. set_solver.
  - intros now rid room m Hin Hout Hm.
    destruct (cleanupStaleRooms_notifies CONFIG now s rid room m Hinv Hin Hout Hm)
      as [Hn Hun].
    repeat split; [done| |done].
    apply JsMap_get_None. rewrite activeRooms_cleanupStaleRooms by apply Hinv.
    intros (e & Hk & [Hlive He]%list_elem_of_filter)%list_elem_of_fmap.
    apply Hlive.
    by rewrite (same_key_same_entry _ e (rid, room) (proj1 Hinv) He Hin).
  - apply enforceMemoryLimits_silent.
Qed.

(** C8. In every state the engine can reach, [end-chat] twice in a row
    is [end-chat] once: the second request finds the connection bound to
    no session and returns the state as it is, emitted events included.
    In any state, [end-chat] from a connection that is bound to no session
    changes nothing, and that is where both members of a registered
    session are once it has been ended by [end-chat] of either of them, by
    the disconnection of one of them, or (in a reachable state) by the
    time-limit phase of the cleanup. *)
Theorem end_chat_idempotent :
  (∀ CONFIG ops h,
     let s := run_all CONFIG ops initial_state in
     end_chat h (end_chat h s) = end_chat h s)
  ∧ (∀ h s, socketToRoom s !! h = None → end_chat h s = s)
  ∧ (∀ h h' s roomId room,
       socketToRoom s !! h = Some roomId →
       JsMap.get roomId (activeRooms s) = Some room →
       h' ∈ members room →
       end_chat h' (end_chat h s) = end_chat h s)
  ∧ (∀ h h' s roomId room,
       socketToRoom s !! h = Some roomId →
       JsMap.get roomId (activeRooms s) = Some room →
       h ∈ members room → h' ∈ members room →
       end_chat h' (disconnect h s) = disconnect h s)
  ∧ (∀ CONFIG ops now roomId room h',
       let s := run_all CONFIG ops initial_state in
       (roomId, room) ∈ activeRooms s →
       timed_out CONFIG now (roomId, room) →
       h' ∈ members room →
       end_chat h' (cleanupStaleRooms CONFIG now s)
       = cleanupStaleRooms CONFIG now s).
Proof.
  split; [|split; [|split; [|split]]].
  - intros CONFIG ops h s.
    destruct (socketToRoom s !! h) as [rid|] eqn:Hh;
      [|by rewrite !(end_chat_unbound h s)].
    destruct (reachable_invariants CONFIG ops) as [_ Hinv].
    pose proof (reachable_binding_invariant CONFIG ops) as Hbind.
    destruct (bound_member s h rid Hinv Hbind Hh) as (room & Hroom & Hm).
    apply end_chat_unbound.
    by apply (end_chat_registered h s rid room Hh Hroom).
  - apply end_chat_unbound.
  - intros h h' s rid room Hh Hroom Hm. apply end_chat_unbound.
    by apply (end_chat_registered h s rid room Hh Hroom).
  - intros h h' s rid room Hh Hroom Hhm Hm. apply end_chat_unbound.
    by apply (disconnect_registered h s rid room Hh Hroom Hhm).
  - intros CONFIG ops now rid room h' s Hin Hout Hm. apply end_chat_unbound.
    destruct (reachable_invariants CONFIG ops) as [_ Hinv].
    by apply (cleanupStaleRooms_notifies CONFIG now s rid room h' Hinv Hin Hout).
Qed.

Lemma send_message_activeRooms CONFIG h data now s :
  activeRooms (send_message CONFIG h data now s) = activeRooms s.
Proof.
  unfold send_message, checkRateLimit.
  pose proof (with_rateLimitMap_fields (isMediaOf data)) as Hf.
  destruct data; [done|..]; repeat case_match; state_simpl;
    try apply Hf; done.
Qed.

(** C1 (as amended). In every state the engine can reach, the time-limit
    phase of the cleanup removes exactly the sessions whose creation time
    is more than [ROOM_TIMEOUT] before now and keeps the others in their
    order; relaying a message changes no session record (there is no
    last-activity time to update), so it does not postpone the removal. *)
Theorem cleanupStaleRooms_by_creation_time (CONFIG : Config) (ops : list Op)
  (now : Z) :
  let s := run_all CONFIG ops initial_state in
  activeRooms (cleanupStaleRooms CONFIG now s)
    = filter (λ e, ¬ now - createdAt e.2 > ROOM_TIMEOUT CONFIG) (activeRooms s)
  ∧ ∀ h data t,
      activeRooms (send_message CONFIG h data t s) = activeRooms s
      ∧ activeRooms (cleanupStaleRooms CONFIG now
                       (send_message CONFIG h data t s))
        = activeRooms (cleanupStaleRooms CONFIG now s).
Proof.
  cbv zeta. destruct (reachable_invariants CONFIG ops) as [_ Hinv].
  set (s := run_all CONFIG ops initial_state) in *.
  split.
  - by apply activeRooms_cleanupStaleRooms, Hinv.
  - intros h data t. split; [apply send_message_activeRooms|].
    rewrite !activeRooms_cleanupStaleRooms.
    + by rewrite send_message_activeRooms.
    + apply Hinv.
    + rewrite send_message_activeRooms. apply Hinv.
Qed.

(** ** Message relay *)

Section Relay.
Variable CONFIG : Config.

Lemma emit_error_no_message s s1 h e :
  outbox s1 = outbox s →
  ¬ delivers_message s (emit h (EvError e) s1).
Proof.
  intros Ho (R & m & Hin). state_simpl. rewrite Ho, drop_app_length in Hin.
  apply list_elem_of_singleton in Hin. done.
Qed.

Lemma checkRateLimit_outbox h isMedia now s :
  outbox (checkRateLimit CONFIG h isMedia now s).2 = outbox s
  ∧ socketToRoom (checkRateLimit CONFIG h isMedia now s).2 = socketToRoom s
  ∧ activeRooms (checkRateLimit CONFIG h isMedia now s).2 = activeRooms s.
Proof. unfold checkRateLimit. cbn [snd]. by destruct isMedia. Qed.

(** C6. [send-message] checks in this order.  A [null] payload fails at
    once with "Failed to send message", before the rate limiter is asked.
    Then the rate limiter of the message's traffic class: when it refuses,
    the sender gets the rate-limit error and nothing else happens,
    whatever the payload and the binding.  Then [validateMessage]: a
    payload it rejects gets its error, whatever the binding, and the
    binding stays as it is.  Then the binding: a sender bound to no
    session gets "Not in a chat room".  Then the registry: a sender bound
    to a session that is not registered gets "Chat room no longer exists"
    and loses the binding.  In each of these cases no [new-message] is
    emitted: one is emitted only when all the checks pass. *)
Theorem send_message_precondition_order (h : string) (data : Payload)
  (now : Z) (s : State) :
  let limited := checkRateLimit CONFIG h (isMediaOf data) now s in
  let s' := send_message CONFIG h data now s in
  (data = PayNullish →
     s' = emit h (EvError "Failed to send message") s
     ∧ ¬ delivers_message s s')
  ∧ (data ≠ PayNullish → limited.1 = false →
     s' = emit h (EvError (rateLimitMessage CONFIG (isMediaOf data))) limited.2
     ∧ ¬ delivers_message s s')
  ∧ (∀ error,
       data ≠ PayNullish → limited.1 = true →
       validateMessage CONFIG data = Some error →
       s' = emit h (EvError error) limited.2
       ∧ socketToRoom s' = socketToRoom s
       ∧ ¬ delivers_message s s')
  ∧ (limited.1 = true → validateMessage CONFIG data = None →
     socketToRoom s !! h = None →
     s' = emit h (EvError "Not in a chat room") limited.2
     ∧ ¬ delivers_message s s')
  ∧ (∀ roomId,
       limited.1 = true → validateMessage CONFIG data = None →
       socketToRoom s !! h = Some roomId →
       JsMap.has roomId (activeRooms s) = false →
       s' = with_socketToRoom (delete h (socketToRoom s))
              (emit h (EvError "Chat room no longer exists") limited.2)
       ∧ socketToRoom s' !! h = None
       ∧ ¬ delivers_message s s')
  ∧ (delivers_message s s' →
     data ≠ PayNullish ∧ limited.1 = true
     ∧ validateMessage CONFIG data = None
     ∧ ∃ roomId, socketToRoom s !! h = Some roomId
         ∧ JsMap.has roomId (activeRooms s) = true).
Proof.
  cbv zeta.
  destruct (checkRateLimit_outbox h (isMediaOf data) now s) as (Ho & Hb & Ha).
  unfold send_message.
  destruct (checkRateLimit CONFIG h (isMediaOf data) now s) as [allowed s1].
  cbn [fst snd] in *.
  split_and!.
  - intros ->. split; [done|by apply emit_error_no_message].
  - intros Hdata ->. cbn [negb].
    destruct data; [done|..];
      (split; [done|by apply emit_error_no_message]).
  - intros error Hdata -> Hvalid. cbn [negb]. rewrite Hvalid.
    destruct data; [done|..];
      (split; [done|]; split; [done|by apply emit_error_no_message]).
  - intros -> Hvalid Hh. cbn [negb]. rewrite Hvalid, Hb, Hh.
    destruct data; [done|..];
      (split; [done|by apply emit_error_no_message]).
  - intros rid -> Hvalid Hh Hhas. cbn [negb]. rewrite Hvalid, Hb, Ha, Hh, Hhas.
    cbn [negb]. state_simpl. rewrite Hb.
    assert (¬ delivers_message s
              (with_socketToRoom (delete h (socketToRoom s))
                 (emit h (EvError "Chat room no longer exists") s1))) as Hno.
    { intros (R & m & Hin). state_simpl.
      rewrite Ho, drop_app_length in Hin.
      apply list_elem_of_singleton in Hin. done. }
    destruct data; [done|..];
      (split; [done|]; split; [apply lookup_delete_eq|done]).
  - destruct data as [| |type body].
    + intros Hd. by apply emit_error_no_message in Hd.
    + destruct allowed; cbn [negb];
        intros Hd; by apply emit_error_no_message in Hd.
    + destruct allowed; cbn [negb];
        [|intros Hd; by apply emit_error_no_message in Hd].
      destruct (validateMessage CONFIG (PayObject type body)) as [err|];
        [intros Hd; by apply emit_error_no_message in Hd|].
      rewrite Hb, Ha.
      destruct (socketToRoom s !! h) as [rid|];
        [|intros Hd; by apply emit_error_no_message in Hd].
      destruct (JsMap.has rid (activeRooms s)) eqn:Hhas; cbn [negb].
      * intros _. repeat split; [done|]. eauto.
      * intros (R & m & Hin). state_simpl.
        rewrite Ho, drop_app_length in Hin.
        apply list_elem_of_singleton in Hin. done.
Qed.

(** A relayed message goes to the whole group of the sender's session,
    the sender included. *)
Lemma send_message_relayed h data now s roomId :
  (checkRateLimit CONFIG h (isMediaOf data) now s).1 = true →
  validateMessage CONFIG data = None →
  socketToRoom s !! h = Some roomId →
  JsMap.has roomId (activeRooms s) = true →
  outbox (send_message CONFIG h data now s)
  = outbox s ++
    [(group roomId s,
      EvNewMessage {| msg_id := uuid s; senderId := h;
                      content := default "" (payload_content data);
                      msg_type := type_or_text data; timestamp := now |})].
Proof.
  intros Hal Hvalid Hh Hhas.
  destruct (checkRateLimit_outbox h (isMediaOf data) now s) as (Ho & Hb & Ha).
  assert (uuid (checkRateLimit CONFIG h (isMediaOf data) now s).2 = uuid s
          ∧ rooms (checkRateLimit CONFIG h (isMediaOf data) now s).2 = rooms s)
    as [Hu Hr] by (unfold checkRateLimit; cbn [snd]; by destruct (isMediaOf data)).
  unfold send_message.
  destruct (checkRateLimit CONFIG h (isMediaOf data) now s) as [allowed s1].
  cbn [fst snd] in *. subst allowed. cbn [negb].
  destruct data; [done|..]; rewrite Hvalid, Hb, Ha, Hh, Hhas; cbn [negb];
    state_simpl; unfold group; state_simpl; by rewrite Ho, Hu, Hr.
Qed.

(** ** A matched candidate whose socket is gone *)

(** The production handler puts the requester in the queue, tells it
    [searching], and registers and binds nothing; the requester has
    already joined the group of the abandoned room id. *)
Lemma join_queue_stale_candidate h userData now d s validData m :
  validateUserData CONFIG userData = inr validData →
  JsMap.has h (waitingUsers s) = false →
  socketToRoom s !! h = None →
  findMatch (mkUser validData now) h d (waitingUsers s) = Some m →
  m_socketId m ∉ sockets s →
  let s' := join_queue CONFIG h userData now d s in
  waitingUsers s'
    = JsMap.set h (mkUser validData now)
        (JsMap.delete (m_socketId m) (waitingUsers s))
  ∧ outbox s' = outbox s ++ [({[h]}, EvSearching)]
  ∧ activeRooms s' = activeRooms s
  ∧ socketToRoom s' = socketToRoom s
  ∧ rooms s' = <[uuid s := {[h]} ∪ group (uuid s) s]> (rooms s).
Proof.
  intros Hvalid Hw Hb Hm Hgone. cbv zeta. unfold join_queue.
  rewrite Hvalid, Hw, Hb. cbn [orb]. rewrite bool_decide_eq_false_2
    by (intros [? [=]]).
  rewrite Hm. cbv zeta. state_simpl. rewrite decide_False by done.
  done.
Qed.

End Relay.

(** ** The theorems at concrete inputs *)

Lemma checkRateLimit_fixed_window_witness :
  (checkRateLimit_seq CONFIG_default "a" false (burst ++ [10]) initial_state).1 !! 9%nat
    = Some true
  ∧ (checkRateLimit_seq CONFIG_default "a" false (burst ++ [10]) initial_state).1 !! 10%nat
    = Some false
  ∧ (checkRateLimit CONFIG_default "a" false 1001
       (checkRateLimit_seq CONFIG_default "a" false (burst ++ [10]) initial_state).2).1
    = true.
Proof.
  destruct (checkRateLimit_fixed_window CONFIG_default "a" false)
    as (_ & Hseq & Hnext).
  assert (∀ t, t ∈ [1; 2; 3; 4; 5; 6; 7; 8; 9; 10]
               → t - 0 <= rateWindow CONFIG_default false) as Hin.
  { intros t Ht. cbn.
    repeat (apply elem_of_cons in Ht as [->|Ht]; [lia|]).
    by apply elem_of_nil in Ht. }
  split; [|split].
  - exact (Hseq 0 _ initial_state I Hin 9%nat ltac:(cbn; lia)).
  - exact (Hseq 0 _ initial_state I Hin 10%nat ltac:(cbn; lia)).
  - apply (Hnext 1001 {| count := 11; windowStart := 0 |});
      [cbn; lia|vm_compute; reflexivity|cbn; lia].
Defined.

Lemma checkRateLimit_rejections_persist_witness :
  1 <= rateLimit CONFIG_default false
  ∧ (checkRateLimit CONFIG_default "a" false 10
       (checkRateLimit_seq CONFIG_default "a" false burst initial_state).2).1
    = false
  ∧ Forall (λ a, a = false)
      (checkRateLimit_seq CONFIG_default "a" false [11; 12; 500]
         (checkRateLimit CONFIG_default "a" false 10
            (checkRateLimit_seq CONFIG_default "a" false burst initial_state).2).2).1.
Proof.
  assert (1 <= rateLimit CONFIG_default false) as HL by (cbn; lia).
  assert (∀ t, t ∈ [11; 12; 500] → t - 0 <= rateWindow CONFIG_default false)
    as Hin.
  { intros t Ht. cbn.
    repeat (apply elem_of_cons in Ht as [->|Ht]; [lia|]).
    by apply elem_of_nil in Ht. }
  assert ((checkRateLimit CONFIG_default "a" false 10
             (checkRateLimit_seq CONFIG_default "a" false burst initial_state).2).1
          = false) as Hno by (vm_compute; reflexivity).
  split; [exact HL|]. split; [exact Hno|].
  destruct (checkRateLimit_rejections_persist CONFIG_default "a" false HL)
    as [_ Hrej].
  destruct (Hrej 10 _ Hno) as (old & Hold & _ & Hall).
  assert (old = {| count := 10; windowStart := 0 |}) as ->.
  { assert (Some old = Some {| count := 10; windowStart := 0 |}) as [= ->];
      [|done].
    rewrite <- Hold. vm_compute. reflexivity. }
  apply Hall. exact Hin.
Defined.

Lemma findMatch_bidirectional_gender_witness :
  bidirectionally_compatible al bea
  ∧ findMatch al "a" first_draw [("b", bea)] = Some (matchOf al ("b", bea)).
Proof.
  destruct findMatch_bidirectional_gender as (_ & Hsound & Hone).
  assert (bidirectionally_compatible al bea) as Hc.
  { apply (Hsound al "a" first_draw [("b", bea)] (matchOf al ("b", bea))).
    reflexivity. }
  split; [exact Hc|].
  apply (Hone al "a" first_draw "b" bea); [unfold valid_draw; cbn; lia|done|].
  exact Hc.
Defined.

(** C3, counterexample. A requester lists "art" three times:
    validation accepts the payload; the two waiting women are eligible;
    "y" shares two interests with the requester and "x" one; and
    [findMatch] returns "x" whatever the draw. *)
Lemma findMatch_counts_repeated_interest :
  validateUserData CONFIG_default repeating_payload = inr repeating_profile
  ∧ eligible (mkUser repeating_profile 2) "r"
      [art_entry; books_chess_entry] art_entry
  ∧ eligible (mkUser repeating_profile 2) "r"
      [art_entry; books_chess_entry] books_chess_entry
  ∧ intersectionScore (mkUser repeating_profile 2) art_entry.2 = 1%nat
  ∧ intersectionScore (mkUser repeating_profile 2) books_chess_entry.2 = 2%nat
  ∧ (∀ d, valid_draw d →
       findMatch (mkUser repeating_profile 2) "r" d
         [art_entry; books_chess_entry]
       = Some (matchOf (mkUser repeating_profile 2) art_entry))
  ∧ ¬ selects_best intersectionScore (mkUser repeating_profile 2) "r"
        [art_entry; books_chess_entry].
Proof.
  assert (eligible (mkUser repeating_profile 2) "r"
            [art_entry; books_chess_entry] art_entry) as Hx.
  { split; [apply list_elem_of_here|]. split; [done|].
    split; [right|left]; reflexivity. }
  assert (eligible (mkUser repeating_profile 2) "r"
            [art_entry; books_chess_entry] books_chess_entry) as Hy.
  { split; [apply list_elem_of_further, list_elem_of_here|].
    split; [done|]. split; [right|left]; reflexivity. }
  assert (intersectionScore (mkUser repeating_profile 2) art_entry.2 = 1%nat)
    as H1 by (vm_compute; reflexivity).
  assert (intersectionScore (mkUser repeating_profile 2) books_chess_entry.2
          = 2%nat) as H2 by (vm_compute; reflexivity).
  assert (∀ d, valid_draw d →
            findMatch (mkUser repeating_profile 2) "r" d
              [art_entry; books_chess_entry]
            = Some (matchOf (mkUser repeating_profile 2) art_entry)) as Hf.
  { intros d Hd. unfold findMatch.
    assert (bestMatches (compatibleMatches (mkUser repeating_profile 2) "r"
                           [art_entry; books_chess_entry])
            = [{| c_user := art_entry.2; c_socketId := "x"; c_score := 3;
                  c_commonInterests := ["art"; "art"; "art"] |}]) as ->
      by (vm_compute; reflexivity).
    rewrite decide_False by (vm_compute; lia).
    cbv zeta. cbn [length].
    pose proof (randomIndex_lt d 1 Hd ltac:(lia)) as Hlt.
    destruct (randomIndex d 1) as [|?]; [|lia]. reflexivity. }
  split; [vm_compute; reflexivity|].
  split; [exact Hx|]. split; [exact Hy|]. split; [exact H1|].
  split; [exact H2|]. split; [exact Hf|].
  intros (Hbest & _ & _).
  destruct (Hbest first_draw _ (Hf first_draw ltac:(unfold valid_draw, first_draw; cbn; lia)))
    as (entry & Hentry & _ & Hmax).
  assert (entry = art_entry) as ->.
  { destruct entry as [k u]. unfold matchOf in Hentry. cbn in Hentry.
    injection Hentry as <- <-. done. }
  specialize (Hmax _ Hy). rewrite H1, H2 in Hmax. lia.
Qed.

Lemma findMatch_selects_best_witness :
  NoDup (interests al)
  ∧ (∃ d, valid_draw d ∧ binary64_draw d
       ∧ findMatch al "a" d [("b", bea); ("c", cat)]
         = Some (matchOf al ("c", cat)))
  ∧ findMatch al "a" {| num := 2; den := 3 |} [("e", eve); ("b", bea)]
    = Some (matchOf al ("b", bea)).
Proof.
  assert (NoDup (interests al)) as Hnd
    by (apply (bool_decide_unpack _); vm_compute; exact I).
  split; [exact Hnd|]. split.
  - destruct (findMatch_selects_best al "a" [("b", bea); ("c", cat)])
      as (_ & _ & Hset).
    destruct (Hset Hnd) as (_ & _ & Hsome & _).
    destruct (Hsome ("c", cat)) as (d & Hd & Hf & Hm).
    + split; [right; left|]. split; [done|]. split; [by right|by left].
    + intros e' (Hin & _ & _). revert e' Hin. apply Forall_forall.
      repeat constructor; vm_compute; lia.
    + exists d. split; [exact Hd|]. split; [|exact Hm].
      apply Hf. vm_compute. reflexivity.
  - destruct (findMatch_selects_best al "a" [("e", eve); ("b", bea)])
      as (_ & _ & Hset).
    destruct (Hset Hnd) as (_ & _ & _ & Hall).
    apply (Hall ("b", bea)).
    + split; [right; left|]. split; [done|]. split; [by right|by right].
    + intros e' (Hin & _ & _). revert e' Hin.
      apply (proj1 (Forall_forall
               (λ e' : string * User,
                  e' ≠ ("b", bea) →
                  (intersectionScore al e'.2 < intersectionScore al bea)%nat) _)).
      constructor; [intros _; vm_compute; lia|].
      constructor; [done|]. constructor.
    + unfold valid_draw. cbn. lia.
Defined.

(** C4, counterexample. With a ceiling of one room and two sessions
    registered, the capacity phase removes session 0 and the bindings of
    its members "a" and "b", both still connected, and emits nothing. *)
Lemma capacity_eviction_is_silent :
  JsMap.get 0%nat (activeRooms two_rooms_state) = Some room0
  ∧ "a" ∈ sockets two_rooms_state ∧ "b" ∈ sockets two_rooms_state
  ∧ socketToRoom two_rooms_state !! "a" = Some 0%nat
  ∧ JsMap.get 0%nat
      (activeRooms (enforceMemoryLimits CONFIG_one_room two_rooms_state)) = None
  ∧ socketToRoom (enforceMemoryLimits CONFIG_one_room two_rooms_state) !! "a"
    = None
  ∧ socketToRoom (enforceMemoryLimits CONFIG_one_room two_rooms_state) !! "b"
    = None
  ∧ outbox (enforceMemoryLimits CONFIG_one_room two_rooms_state)
    = outbox two_rooms_state.
Proof.
  split_and!; vm_compute; reflexivity.
Qed.

Lemma session_end_notifies_witness :
  "b" ∈ group 0%nat matched_state
  ∧ outbox (end_chat "a" matched_state)
    = outbox matched_state
      ++ [(group 0%nat matched_state, EvChatEnded "User left the chat")]
  ∧ "b" ∈ group 0%nat matched_state ∖ {["a"]}
  ∧ outbox (disconnect "a" matched_state)
    = outbox matched_state
      ++ [(group 0%nat matched_state ∖ {["a"]},
           EvChatEnded "Partner disconnected")]
  ∧ notified matched_state (cleanupStaleRooms CONFIG_default 1800001 matched_state)
      "b" (EvChatEnded "Session timeout").
Proof.
  destruct (session_end_notifies CONFIG_default matched_history)
    as (Hend & Hdis & Hout & _).
  assert (socketToRoom matched_state !! "a" = Some 0%nat) as Ha
    by (vm_compute; reflexivity).
  assert (JsMap.get 0%nat (activeRooms matched_state) = Some room0) as Hroom
    by (vm_compute; reflexivity).
  assert ("a" ∈ members room0) as Hma by (right; left).
  assert ("b" ∈ members room0) as Hmb by left.
  destruct (Hend "a" 0%nat room0 "b" Ha Hroom Hmb) as (H1 & H2 & _).
  destruct (Hdis "a" 0%nat room0 "b" Ha Hroom Hmb ltac:(done))
    as (H3 & H4 & _).
  destruct (Hout 1800001 0%nat room0 "b") as (H5 & _).
  { apply JsMap_get_Some_elem. exact Hroom. }
  { unfold timed_out. cbn. lia. }
  { exact Hmb. }
  exact (conj H2 (conj H1 (conj H4 (conj H3 H5)))).
Defined.

Lemma end_chat_idempotent_witness :
  end_chat "b" (end_chat "a" matched_state) = end_chat "a" matched_state
  ∧ end_chat "a" (end_chat "a" matched_state) = end_chat "a" matched_state
  ∧ end_chat "b" (disconnect "a" matched_state) = disconnect "a" matched_state
  ∧ end_chat "b" (cleanupStaleRooms CONFIG_default 1800001 matched_state)
    = cleanupStaleRooms CONFIG_default 1800001 matched_state
  ∧ end_chat "z" matched_state = matched_state.
Proof.
  destruct end_chat_idempotent as (Htwice & Hnone & Hend & Hdis & Hout).
  assert (socketToRoom matched_state !! "a" = Some 0%nat) as Ha
    by (vm_compute; reflexivity).
  assert (JsMap.get 0%nat (activeRooms matched_state) = Some room0) as Hroom
    by (vm_compute; reflexivity).
  assert ("a" ∈ members room0) as Hma by (right; left).
  assert ("b" ∈ members room0) as Hmb by left.
  split; [exact (Hend "a" "b" matched_state 0%nat room0 Ha Hroom Hmb)|].
  split; [exact (Htwice CONFIG_default matched_history "a")|].
  split; [exact (Hdis "a" "b" matched_state 0%nat room0 Ha Hroom Hma Hmb)|].
  split.
  - apply (Hout CONFIG_default matched_history 1800001 0%nat room0 "b").
    + apply JsMap_get_Some_elem. exact Hroom.
    + unfold timed_out. cbn. lia.
    + exact Hmb.
  - apply Hnone. vm_compute. reflexivity.
Defined.

(** C1, counterexample. "a" and "b" are matched at time 0 and still
    exchange messages: the last one is relayed to both at 1 800 000.  One
    millisecond later, well within [ROOM_TIMEOUT] of that message, the
    cleanup removes their session, because it was created more than
    [ROOM_TIMEOUT] ago; the relay had left the session record as it
    was. *)
Lemma active_session_evicted :
  JsMap.get 0%nat (activeRooms matched_state) = Some room0
  ∧ JsMap.get 0%nat (activeRooms chatting_state) = Some room0
  ∧ last (outbox chatting_state)
    = Some ({["a"; "b"]},
            EvNewMessage {| msg_id := 2; senderId := "b"; content := "hello";
                            msg_type := "text"; timestamp := 1800000 |})
  ∧ 1800001 - 1800000 <= ROOM_TIMEOUT CONFIG_default
  ∧ JsMap.get 0%nat
      (activeRooms (cleanupStaleRooms CONFIG_default 1800001 chatting_state))
    = None
  ∧ last (outbox (cleanupStaleRooms CONFIG_default 1800001 chatting_state))
    = Some ({["a"; "b"]}, EvChatEnded "Session timeout").
Proof.
  split_and!; try (vm_compute; reflexivity).
  vm_compute. intros [=].
Qed.

(** C6, counterexample. "b" is connected, bound to no session and
    within its rate limit, and sends an object without content: the error
    is that of [validateMessage], not "Not in a chat room".  "a" is bound
    to session 7, which is not registered, and sends a message of an
    unknown type: the error is that of [validateMessage], and the stale
    binding stays. *)
Lemma send_message_validates_before_binding :
  (checkRateLimit CONFIG_default "b" (isMediaOf empty_object) 0 idle_state).1
  = true
  ∧ socketToRoom idle_state !! "b" = None
  ∧ outbox (send_message CONFIG_default "b" empty_object 0 idle_state)
    = [({["b"]}, EvError "Invalid message content")]
  ∧ (checkRateLimit CONFIG_default "a" (isMediaOf audio) 0
       stale_binding_state).1 = true
  ∧ socketToRoom stale_binding_state !! "a" = Some 7%nat
  ∧ JsMap.has 7%nat (activeRooms stale_binding_state) = false
  ∧ outbox (send_message CONFIG_default "a" audio 0 stale_binding_state)
    = [({["a"]}, EvError "Invalid message type")]
  ∧ socketToRoom (send_message CONFIG_default "a" audio 0 stale_binding_state)
      !! "a" = Some 7%nat.
Proof. split_and!; vm_compute; reflexivity. Qed.

Lemma send_message_precondition_order_witness :
  send_message CONFIG_default "a" PayNullish 0 matched_state
  = emit "a" (EvError "Failed to send message") matched_state
  ∧ send_message CONFIG_default "a" hi 9
      (checkRateLimit_seq CONFIG_default "a" false burst matched_state).2
    = emit "a" (EvError "Too many messages. Please wait 1 seconds.")
        (checkRateLimit CONFIG_default "a" false 9
           (checkRateLimit_seq CONFIG_default "a" false burst matched_state).2).2
  ∧ send_message CONFIG_default "a" audio 0 matched_state
    = emit "a" (EvError "Invalid message type")
        (checkRateLimit CONFIG_default "a" false 0 matched_state).2
  ∧ send_message CONFIG_default "z" hi 0 matched_state
    = emit "z" (EvError "Not in a chat room")
        (checkRateLimit CONFIG_default "z" false 0 matched_state).2
  ∧ socketToRoom (send_message CONFIG_default "a" hi 0 stale_binding_state) !! "a"
    = None
  ∧ (∃ roomId, socketToRoom matched_state !! "a" = Some roomId
       ∧ JsMap.has roomId (activeRooms matched_state) = true).
Proof.
  split_and!.
  - destruct (send_message_precondition_order CONFIG_default "a" PayNullish 0
                matched_state) as (Hnull & _).
    apply Hnull. reflexivity.
  - destruct (send_message_precondition_order CONFIG_default "a" hi 9
                (checkRateLimit_seq CONFIG_default "a" false burst matched_state).2)
      as (_ & Hlim & _).
    apply Hlim; [done|vm_compute; reflexivity].
  - destruct (send_message_precondition_order CONFIG_default "a" audio 0
                matched_state) as (_ & _ & Hval & _).
    apply (Hval "Invalid message type");
      [done|vm_compute; reflexivity|vm_compute; reflexivity].
  - destruct (send_message_precondition_order CONFIG_default "z" hi 0
                matched_state) as (_ & _ & _ & Hunbound & _).
    apply Hunbound; vm_compute; reflexivity.
  - destruct (send_message_precondition_order CONFIG_default "a" hi 0
                stale_binding_state) as (_ & _ & _ & _ & Hstale & _).
    apply (Hstale 7%nat); vm_compute; reflexivity.
  - destruct (send_message_precondition_order CONFIG_default "a" hi 0
                matched_state) as (_ & _ & _ & _ & _ & Hdel).
    apply Hdel. exists {["a"; "b"]}. eexists.
    vm_compute. left.
Defined.

(** The handler of [src/server.js] has no branch for a candidate whose
    socket is gone.  In a state that holds "ghost" in the queue without a
    socket (no history of that server leads to one, see
    [Basic_run_all_queue_connected]) it would register session 0 with
    "ghost" as a member and bind both. *)
Lemma server_js_binds_stale_candidate :
  ("ghost" ∉ sockets stale_candidate_state)
  ∧ findMatch (mkUser al_profile 5) "a" first_draw
      (waitingUsers stale_candidate_state)
    = Some {| m_user := {| username := "Gus"; gender := "female";
                           preferredGender := "any"; interests := [];
                           joinedAt := 0 |};
              m_socketId := "ghost"; m_commonInterests := [] |}
  ∧ (let s' := Basic.join_queue "a" al_profile 5 first_draw
                 stale_candidate_state in
     JsMap.keys (activeRooms s') = [0%nat]
     ∧ socketToRoom s' !! "ghost" = Some 0%nat
     ∧ socketToRoom s' !! "a" = Some 0%nat
     ∧ waitingUsers s' = []
     ∧ outbox s'
       = [({["a"]},
           EvMatchFound 0 {| p_username := "Gus"; p_gender := "female";
                             p_interests := [] |} [])]).
Proof.
  cbv zeta. split_and!; try (vm_compute; reflexivity).
  apply (bool_decide_unpack _). vm_compute. exact I.
Qed.

(** The production handler on the same input. *)
Lemma production_requeues_on_stale_candidate :
  let s' := join_queue CONFIG_default "a"
              (profile_payload "Al" "male" "female" ["music"; "gaming"])
              5 first_draw stale_candidate_state in
  JsMap.keys (waitingUsers s') = ["a"]
  ∧ outbox s' = [({["a"]}, EvSearching)]
  ∧ activeRooms s' = []
  ∧ socketToRoom s' = ∅.
Proof. cbv zeta. split_and!; vm_compute; reflexivity. Qed.

(** * Further properties *)

(** ** Validation *)

Section ValidationFacts.
Variable CONFIG : Config.

Lemma substring0_length n x :
  (String.length (String.substring 0 n x) ≤ n)%nat.
Proof.
  revert x. induction n as [|n IH]; intros [|c x]; cbn; try lia.
  specialize (IH x). lia.
Qed.

(** X1. A profile that [validateUserData] accepts has a gender and a
    desired gender from the two lists of the source, at most
    [MAX_INTERESTS] interests, each a string of 1 to 50 code units taken
    in order from the strings of the payload, and a user name of at most
    [MAX_USERNAME_LENGTH] code units. *)
Theorem validateUserData_sanitises (userData : option UserData) (p : Profile) :
  validateUserData CONFIG userData = inr p →
  pf_gender p ∈ ["male"; "female"]
  ∧ pf_preferredGender p ∈ ["male"; "female"; "any"]
  ∧ Z.of_nat (length (pf_interests p)) <= MAX_INTERESTS CONFIG
  ∧ Forall (λ i, 0 < strlen i <= 50) (pf_interests p)
  ∧ strlen (pf_username p) <= MAX_USERNAME_LENGTH CONFIG
  ∧ ∃ ud raw, userData = Some ud ∧ ud_interests ud = Some raw
      ∧ pf_gender p = ud_gender ud
      ∧ pf_preferredGender p = ud_preferredGender ud
      ∧ pf_interests p `sublist_of` omap id raw.
Proof.
  unfold validateUserData. destruct userData as [ud|]; [|done].
  destruct (ud_username ud) as [name|]; [|done].
  destruct (decide (name = "")) as [|Hname]; [done|].
  destruct (decide (strlen name > MAX_USERNAME_LENGTH CONFIG)) as [|Hlen];
    [done|].
  destruct (bool_decide (ud_gender ud ∈ ["male"; "female"])) eqn:Hg;
    cbn [negb]; [|done].
  destruct (bool_decide (ud_preferredGender ud ∈ ["male"; "female"; "any"]))
    eqn:Hp; cbn [negb]; [|done].
  destruct (ud_interests ud) as [raw|] eqn:Hraw; [|done].
  destruct (decide (Z.of_nat (length raw) > MAX_INTERESTS CONFIG)) as [|Hmany];
    [done|]. intros [= <-]. cbn.
  apply bool_decide_eq_true in Hg, Hp.
  set (keep := λ i : option string,
         match i with
         | Some i => if decide (strlen i > 0 ∧ strlen i <= 50) then Some i else None
         | None => None
         end).
  assert (omap keep raw `sublist_of` omap id raw) as Hsub.
  { clear. induction raw as [|[i|] raw IH]; cbn; [done| |done].
    case_decide; [by constructor|by apply sublist_cons]. }
  split_and!; try done.
  - rewrite length_take.
    pose proof (sublist_length _ _ Hsub) as H1.
    assert (length (omap id raw) ≤ length raw)%nat as H2.
    { clear. induction raw as [|[i|] raw IH]; cbn; lia. }
    lia.
  - apply Forall_take, Forall_forall. intros i Hi.
    apply list_elem_of_omap in Hi as ([j|] & _ & Hj); cbn in Hj; [|done].
    case_decide; [|done]. injection Hj as ->. lia.
  - unfold strlen in *.
    pose proof (substring0_length (Z.to_nat (MAX_USERNAME_LENGTH CONFIG)) (trim name)).
    assert (0 <= MAX_USERNAME_LENGTH CONFIG) by lia. lia.
  - exists ud, raw. split_and!; try done.
    etrans; [apply sublist_take|exact Hsub].
Qed.

(** The characters [getBase64Size] measures. *)
Lemma takeUntilComma_app a rest :
  comma ∉ a → takeUntilComma (a ++ comma :: rest) = a.
Proof.
  induction a as [|c a IH]; cbn; intros Ha.
  - by rewrite decide_True.
  - apply not_elem_of_cons in Ha as [Hc Ha].
    rewrite decide_False by done. by rewrite IH.
Qed.

Lemma takeUntilComma_all a : comma ∉ a → takeUntilComma a = a.
Proof.
  induction a as [|c a IH]; cbn; intros Ha; [done|].
  apply not_elem_of_cons in Ha as [Hc Ha].
  rewrite decide_False by done. by rewrite IH.
Qed.

Lemma afterComma_app a rest :
  comma ∉ a → afterComma (a ++ comma :: rest) = Some rest.
Proof.
  induction a as [|c a IH]; cbn; intros Ha.
  - by rewrite decide_True.
  - apply not_elem_of_cons in Ha as [Hc Ha].
    rewrite decide_False by done. by rewrite IH.
Qed.

Lemma afterComma_none a : comma ∉ a → afterComma a = None.
Proof.
  induction a as [|c a IH]; cbn; intros Ha; [done|].
  apply not_elem_of_cons in Ha as [Hc Ha].
  rewrite decide_False by done. by rewrite IH.
Qed.

Lemma list_ascii_of_string_app x y :
  list_ascii_of_string (x +:+ y)
  = list_ascii_of_string x ++ list_ascii_of_string y.
Proof.
  induction x as [|c x IH]; [done|].
  change (c :: list_ascii_of_string (x +:+ y)
          = c :: (list_ascii_of_string x ++ list_ascii_of_string y)).
  by rewrite IH.
Qed.

Lemma length_list_ascii x :
  length (list_ascii_of_string x) = String.length x.
Proof. induction x as [|c x IH]; cbn; [done|]. by rewrite IH. Qed.

(** X3. [getBase64Size] measures the text between the first and the
    second comma of its argument, and nothing else: three quarters of its
    length minus the number of its [=] signs.  Neither the data-URL header
    before the first comma nor anything after a second comma counts; a
    string without a comma is measured whole. *)
Theorem getBase64Size_measures (header body tail : string) :
  comma ∉ list_ascii_of_string header →
  comma ∉ list_ascii_of_string body →
  let size4 :=
    strlen body * 3
    - 4 * Z.of_nat (length (filter (λ c, c = equals_sign)
                              (list_ascii_of_string body))) in
  getBase64Size_x4 body = size4
  ∧ getBase64Size_x4 (header +:+ "," +:+ body) = size4
  ∧ getBase64Size_x4 (header +:+ "," +:+ body +:+ "," +:+ tail) = size4.
Proof.
  intros Hh Hb. cbv zeta. unfold getBase64Size_x4, strlen.
  rewrite <- (length_list_ascii body).
  rewrite !list_ascii_of_string_app.
  change (list_ascii_of_string ",") with [comma].
  split_and!.
  - by rewrite afterComma_none.
  - cbn [app]. rewrite afterComma_app by done.
    by rewrite takeUntilComma_all.
  - cbn [app]. rewrite afterComma_app by done.
    by rewrite takeUntilComma_app.
Qed.

Lemma getBase64Size_tail_ignored (header body tail : string) :
  comma ∉ list_ascii_of_string header →
  comma ∉ list_ascii_of_string body →
  getBase64Size_x4 (header +:+ "," +:+ body +:+ "," +:+ tail)
  = getBase64Size_x4 body.
Proof.
  intros Hh Hb. unfold getBase64Size_x4.
  rewrite !list_ascii_of_string_app.
  change (list_ascii_of_string ",") with [comma]. cbn [app].
  rewrite afterComma_app, afterComma_none by done.
  by rewrite takeUntilComma_app.
Qed.

Lemma startsWith_app p x : startsWith p (p +:+ x) = true.
Proof.
  induction p as [|c p IH]; [done|].
  change (bool_decide (c = c) && startsWith p (p +:+ x) = true).
  by rewrite bool_decide_eq_true_2, IH.
Qed.

Lemma append_assoc (x y z : string) : (x +:+ y) +:+ z = x +:+ y +:+ z.
Proof.
  induction x as [|c x IH]; [done|].
  change (String c ((x +:+ y) +:+ z) = String c (x +:+ y +:+ z)).
  by rewrite IH.
Qed.

(** X4. The size limit of an image bounds only the text up to a second
    comma: a payload that starts with a supported image header and whose
    base64 text up to the next comma is within [MAX_IMAGE_SIZE] passes
    [validateMessage], whatever follows that comma and however long it
    is. *)
Theorem validateMessage_image_tail_unchecked (type body tail : string) :
  type ∈ ["jpeg"; "jpg"; "png"; "gif"; "webp"] →
  comma ∉ list_ascii_of_string body →
  getBase64Size_x4 body <= 4 * MAX_IMAGE_SIZE CONFIG →
  validateMessage CONFIG
    (PayObject (Some "image")
       (Some (("data:image/" +:+ type +:+ ";base64") +:+ ","
              +:+ body +:+ "," +:+ tail)))
  = None.
Proof.
  intros Htype Hbody Hsize.
  assert (comma ∉ list_ascii_of_string ("data:image/" +:+ type +:+ ";base64"))
    as Hheader.
  { repeat (apply elem_of_cons in Htype as [->|Htype];
              [by apply (bool_decide_unpack _); vm_compute|]).
    by apply elem_of_nil in Htype. }
  pose proof (getBase64Size_tail_ignored
                ("data:image/" +:+ type +:+ ";base64") body tail Hheader Hbody)
    as Ht.
  set (content := ("data:image/" +:+ type +:+ ";base64") +:+ "," +:+ body
                  +:+ "," +:+ tail) in *.
  assert (content
          = ("data:image/" +:+ type +:+ ";base64,") +:+ body +:+ "," +:+ tail)
    as Hc1.
  { subst content. rewrite !append_assoc. done. }
  assert (startsWith "data:image/" content = true) as Hp1.
  { subst content. rewrite !append_assoc. apply startsWith_app. }
  assert (existsb (λ t, startsWith ("data:image/" +:+ t +:+ ";base64,") content)
            ["jpeg"; "jpg"; "png"; "gif"; "webp"] = true) as Hp2.
  { apply existsb_exists. exists type. split; [by apply list_elem_of_In|].
    rewrite Hc1. apply startsWith_app. }
  unfold validateMessage. cbn [type_or_text payload_type].
  rewrite decide_False by done.
  rewrite bool_decide_eq_true_2 by (right; left). cbn [negb].
  rewrite decide_False by (subst content; done).
  rewrite decide_False by done. rewrite decide_True by done.
  rewrite Hp1. cbn [negb]. rewrite decide_False by lia.
  rewrite Hp2. done.
Qed.

End ValidationFacts.

Lemma validateUserData_sanitises_witness :
  validateUserData CONFIG_default
    (profile_payload " Al " "male" "female" ["music"; ""; "gaming"])
  = inr al_profile
  ∧ Forall (λ i, 0 < strlen i <= 50) (pf_interests al_profile)
  ∧ strlen (pf_username al_profile) <= MAX_USERNAME_LENGTH CONFIG_default.
Proof.
  assert (validateUserData CONFIG_default
            (profile_payload " Al " "male" "female" ["music"; ""; "gaming"])
          = inr al_profile) as Hv by (vm_compute; reflexivity).
  split; [exact Hv|].
  destruct (validateUserData_sanitises CONFIG_default _ _ Hv)
    as (_ & _ & _ & Hi & Hu & _).
  exact (conj Hi Hu).
Defined.

Lemma getBase64Size_measures_witness :
  (comma ∉ list_ascii_of_string "data:image/png;base64")
  ∧ (comma ∉ list_ascii_of_string "AAA=")
  ∧ getBase64Size_x4 ("data:image/png;base64" +:+ "," +:+ "AAA=" +:+ "," +:+ "zzzz")
    = 8.
Proof.
  assert (comma ∉ list_ascii_of_string "data:image/png;base64") as H1
    by (apply (bool_decide_unpack _); vm_compute; exact I).
  assert (comma ∉ list_ascii_of_string "AAA=") as H2
    by (apply (bool_decide_unpack _); vm_compute; exact I).
  split_and!; [exact H1|exact H2|].
  destruct (getBase64Size_measures "data:image/png;base64" "AAA=" "zzzz" H1 H2)
    as (_ & _ & H).
  rewrite H. vm_compute. reflexivity.
Defined.

Lemma validateMessage_image_tail_unchecked_witness :
  getBase64Size_x4 "AAAA" <= 4 * MAX_IMAGE_SIZE CONFIG_default
  ∧ validateMessage CONFIG_default
      (PayObject (Some "image")
         (Some "data:image/png;base64,AAAA,BBBBBBBBBBBBBBBB"))
    = None.
Proof.
  assert (getBase64Size_x4 "AAAA" <= 4 * MAX_IMAGE_SIZE CONFIG_default) as Hs
    by (apply Z.leb_le; vm_compute; reflexivity).
  split; [exact Hs|].
  apply (validateMessage_image_tail_unchecked CONFIG_default "png" "AAAA"
           "BBBBBBBBBBBBBBBB"); [| |exact Hs].
  - apply (bool_decide_unpack _). vm_compute. exact I.
  - apply (bool_decide_unpack _). vm_compute. exact I.
Defined.

(** ** The matcher and the [join-queue] handler *)

Section MatcherFacts.
Variable CONFIG : Config.

Lemma JsMap_set_absent {K V} `{EqDecision K} (k : K) (v : V) m :
  k ∉ JsMap.keys m → JsMap.set k v m = m ++ [(k, v)].
Proof.
  induction m as [|[k' v'] m IH]; [done|].
  intros Hk. cbn [JsMap.set].
  rewrite decide_False by (intros ->; apply Hk; left).
  cbn. rewrite IH; [done|]. intros Hin. apply Hk. by right.
Qed.

Lemma bestMatches_nonempty (cs : list Candidate) :
  cs ≠ [] → bestMatches cs ≠ [].
Proof.
  intros Hcs.
  assert (c_score <$> cs ≠ []) as Hs by (by destruct cs).
  apply max_list_elem_of, list_elem_of_fmap in Hs as (c & Hc & Hin).
  intros Hnil.
  assert (c ∈ bestMatches cs) as Hbest.
  { apply list_elem_of_filter. split; [|done]. by unfold highestScore. }
  rewrite Hnil in Hbest. by apply elem_of_nil in Hbest.
Qed.

Lemma compatibleMatches_nil_iff (user : User) (socketId : string)
  (waiting : list (string * User)) :
  compatibleMatches user socketId waiting = []
  ↔ ∀ entry, ¬ eligible user socketId waiting entry.
Proof.
  split.
  - intros Hnil entry He.
    assert ({| c_user := entry.2; c_socketId := entry.1;
               c_score := matchScoreOf user entry.2;
               c_commonInterests := sharedInterests user entry.2 |}
            ∈ compatibleMatches user socketId waiting) as Hin
      by (apply elem_of_compatibleMatches; eauto).
    rewrite Hnil in Hin. by apply elem_of_nil in Hin.
  - intros Hno.
    destruct (compatibleMatches user socketId waiting) as [|c cs] eqn:Hcs;
      [done|].
    assert (c ∈ compatibleMatches user socketId waiting) as Hin
      by (rewrite Hcs; left).
    apply elem_of_compatibleMatches in Hin as (entry & He & _).
    by destruct (Hno entry).
Qed.

(** A draw in [0,1) finds a candidate whenever one is compatible. *)
Lemma findMatch_None_compatible (user : User) (socketId : string) (d : Draw)
  (waiting : list (string * User)) :
  valid_draw d →
  findMatch user socketId d waiting = None →
  compatibleMatches user socketId waiting = [].
Proof.
  intros Hd. unfold findMatch.
  destruct (decide (length (compatibleMatches user socketId waiting) = 0%nat))
    as [Hlen|Hlen]; [by apply nil_length_inv in Hlen|].
  assert (compatibleMatches user socketId waiting ≠ []) as Hne
    by (by intros Heq; rewrite Heq in Hlen).
  pose proof (bestMatches_nonempty _ Hne) as Hbest.
  intros Hnone. exfalso.
  apply fmap_None, lookup_ge_None in Hnone.
  assert (0 < length (bestMatches (compatibleMatches user socketId waiting)))%nat
    as Hpos.
  { destruct (bestMatches (compatibleMatches user socketId waiting));
      [done|cbn; lia]. }
  pose proof (randomIndex_lt d _ Hd Hpos). lia.
Qed.

(** X5. With a draw in [0,1), [findMatch] returns [null] exactly when the
    queue holds no entry of another connection that is compatible with
    the requester in both directions: it never fails to pair a requester
    that has a compatible partner waiting. *)
Theorem findMatch_None_iff (user : User) (socketId : string) (d : Draw)
  (waiting : list (string * User)) :
  valid_draw d →
  findMatch user socketId d waiting = None
  ↔ ∀ entry, ¬ eligible user socketId waiting entry.
Proof.
  intros Hd. split.
  - intros Hnone. by eapply compatibleMatches_nil_iff, findMatch_None_compatible.
  - intros Hno%compatibleMatches_nil_iff. unfold findMatch. by rewrite Hno.
Qed.

Lemma findMatch_commonInterests user h d waiting m :
  findMatch user h d waiting = Some m →
  m_commonInterests m
  = filter (λ interest, interest ∈ interests (m_user m)) (interests user).
Proof. intros (entry & -> & _)%findMatch_sound. done. Qed.

End MatcherFacts.

(** ** Who receives what *)

Create HintDb narrows.

Section GroupInvariant.
Variable CONFIG : Config.

Lemma narrows_refl s : narrows s s.
Proof. by split_and!. Qed.

Lemma narrows_unchanged s s1 s' :
  rooms s' = rooms s1 → activeRooms s' = activeRooms s1 →
  (uuid s1 ≤ uuid s')%nat →
  narrows s s1 → narrows s s'.
Proof.
  intros Hr Ha Hu (Hg & He & Hn). unfold narrows, group.
  rewrite Hr, Ha. split_and!; [done|done|lia].
Qed.

Lemma narrows_with_waitingUsers w s s' :
  narrows s s' → narrows s (with_waitingUsers w s').
Proof. by apply narrows_unchanged. Qed.

Lemma narrows_with_socketToRoom m s s' :
  narrows s s' → narrows s (with_socketToRoom m s').
Proof. by apply narrows_unchanged. Qed.

Lemma narrows_with_messageRateLimits m s s' :
  narrows s s' → narrows s (with_messageRateLimits m s').
Proof. by apply narrows_unchanged. Qed.

Lemma narrows_with_mediaRateLimits m s s' :
  narrows s s' → narrows s (with_mediaRateLimits m s').
Proof. by apply narrows_unchanged. Qed.

Lemma narrows_with_rateLimitMap isMedia m s s' :
  narrows s s' → narrows s (with_rateLimitMap isMedia m s').
Proof. by destruct isMedia; apply narrows_unchanged. Qed.

Lemma narrows_with_sockets k s s' :
  narrows s s' → narrows s (with_sockets k s').
Proof. by apply narrows_unchanged. Qed.

Lemma narrows_with_outbox o s s' :
  narrows s s' → narrows s (with_outbox o s').
Proof. by apply narrows_unchanged. Qed.

Lemma narrows_with_uuid_S s s' :
  narrows s s' → narrows s (with_uuid (S (uuid s')) s').
Proof. apply narrows_unchanged; cbn; [done|done|lia]. Qed.

Lemma narrows_activeRooms_delete k s s' :
  narrows s s' →
  narrows s (with_activeRooms (JsMap.delete k (activeRooms s')) s').
Proof.
  intros (Hg & He & Hn). split_and!; [done| |done].
  intros e [Hin _]%JsMap_elem_of_delete. by apply He.
Qed.

Lemma narrows_leave_if_connected h rid s s' :
  narrows s s' → narrows s (leave_if_connected h rid s').
Proof.
  intros (Hg & He & Hn). unfold leave_if_connected.
  destruct (decide (h ∈ sockets s')); [|done].
  split_and!; [|done|done].
  intros r. unfold group. cbn.
  destruct (decide (r = rid)) as [->|Hne].
  - rewrite lookup_insert_eq. cbn. specialize (Hg rid). unfold group in Hg.
    set_solver.
  - rewrite lookup_insert_ne by done. apply Hg.
Qed.

Lemma narrows_close h k s s' :
  narrows s s' →
  narrows s (with_sockets k
               (with_rooms ((λ g : gset string, g ∖ {[h]}) <$> rooms s') s')).
Proof.
  intros (Hg & He & Hn). split_and!; [|done|done].
  intros r. specialize (Hg r). unfold group in *. cbn.
  rewrite lookup_fmap. destruct (rooms s' !! r); cbn in *; set_solver.
Qed.

Hint Resolve narrows_refl narrows_with_waitingUsers narrows_with_socketToRoom
  narrows_with_messageRateLimits narrows_with_mediaRateLimits
  narrows_with_rateLimitMap narrows_with_sockets narrows_with_outbox
  narrows_with_uuid_S narrows_activeRooms_delete narrows_leave_if_connected
  narrows_close : narrows.

Lemma narrows_foldl {A} (f : State → A → State) (l : list A) :
  (∀ s s' x, narrows s s' → narrows s (f s' x)) →
  ∀ s s', narrows s s' → narrows s (foldl f s' l).
Proof.
  intros Hf. induction l as [|x l IH]; intros s s' Hs; [done|].
  cbn. apply IH. by apply Hf.
Qed.

Ltac narrows_by_unfolding :=
  cbv beta delta
    [emit emit_to broadcast_to transport_close leave_queue
     relay_to_partner webrtc_offer webrtc_answer webrtc_ice_candidate typing
     unbind_and_leave end_chat unbind_partner on_disconnect disconnect
     checkRateLimit
     send_message evictStaleRoom evictOldestRoom cleanupRateLimits] zeta;
  repeat (case_match || case_decide); simplify_eq;
  eauto 20 with narrows.

Lemma narrows_leave_queue h s s' :
  narrows s s' → narrows s (leave_queue h s').
Proof. intros. narrows_by_unfolding. Qed.

Lemma narrows_send_message h data now s s' :
  narrows s s' → narrows s (send_message CONFIG h data now s').
Proof. intros. narrows_by_unfolding. Qed.

Lemma narrows_relay_to_partner h ev s s' :
  narrows s s' → narrows s (relay_to_partner h ev s').
Proof. intros. narrows_by_unfolding. Qed.

Lemma narrows_end_chat h s s' :
  narrows s s' → narrows s (end_chat h s').
Proof. intros. narrows_by_unfolding. Qed.

Lemma narrows_on_disconnect h s s' :
  narrows s s' → narrows s (on_disconnect h s').
Proof. intros. narrows_by_unfolding. Qed.

Lemma narrows_disconnect h s s' :
  narrows s s' → narrows s (disconnect h s').
Proof. intros. narrows_by_unfolding. Qed.

Lemma narrows_cleanupWaitingUsers now s s' :
  narrows s s' → narrows s (cleanupWaitingUsers CONFIG now s').
Proof.
  intros. apply narrows_foldl; [|done].
  intros ? ? [? ?] ?. narrows_by_unfolding.
Qed.

Lemma narrows_cleanupStaleRooms now s s' :
  narrows s s' → narrows s (cleanupStaleRooms CONFIG now s').
Proof.
  intros. apply narrows_foldl; [|done].
  intros ? ? [? ?] ?. narrows_by_unfolding.
Qed.

Lemma narrows_cleanupRateLimits now s s' :
  narrows s s' → narrows s (cleanupRateLimits CONFIG now s').
Proof. intros. narrows_by_unfolding. Qed.

Lemma narrows_enforceMemoryLimits s s' :
  narrows s s' → narrows s (enforceMemoryLimits CONFIG s').
Proof.
  intros Hs. unfold enforceMemoryLimits, enforceWaitingLimit, enforceRoomLimit.
  assert (∀ l s1, narrows s s1 →
            narrows s (foldl (λ s (e : string * User),
                         with_waitingUsers (JsMap.delete e.1 (waitingUsers s)) s)
                       s1 l)) as Hw.
  { intros l s1 ?. apply narrows_foldl; [|done]. intros. eauto with narrows. }
  assert (∀ l s1, narrows s s1 → narrows s (foldl evictOldestRoom s1 l)) as Hr.
  { intros l s1 ?. apply narrows_foldl; [|done].
    intros ? ? [? ?] ?. narrows_by_unfolding. }
  repeat case_decide; repeat case_match; simplify_eq; eauto.
Qed.

Hint Resolve narrows_leave_queue narrows_send_message narrows_relay_to_partner
  narrows_end_chat narrows_disconnect narrows_cleanupWaitingUsers
  narrows_cleanupStaleRooms narrows_cleanupRateLimits
  narrows_enforceMemoryLimits : narrows.

Lemma narrows_group_invariant s s' :
  narrows s s' → group_invariant s → group_invariant s'.
Proof.
  intros (Hg & He & Hn) [Hfresh Hreg]. split.
  - intros r Hr. specialize (Hg r). rewrite Hfresh in Hg by lia. set_solver.
  - intros e Hin. destruct (Hreg e (He e Hin)) as [Hlt Hmem].
    split; [lia|]. intros u Hu. apply Hmem. by apply Hg.
Qed.

Lemma join_queue_group_invariant h userData now d s :
  group_invariant s → group_invariant (join_queue CONFIG h userData now d s).
Proof.
  intros Hinv. pose proof Hinv as [Hfresh Hreg]. unfold join_queue.
  destruct (validateUserData CONFIG userData) as [e|validData];
    [by eapply narrows_group_invariant; [|exact Hinv]; eauto with narrows|].
  destruct (_ || _);
    [by eapply narrows_group_invariant; [|exact Hinv]; eauto with narrows|].
  destruct (findMatch _ _ _ _) as [m|];
    [|by eapply narrows_group_invariant; [|exact Hinv]; eauto with narrows].
  cbv zeta.
  assert (uuid s ∉ JsMap.keys (activeRooms s)) as Hnew.
  { intros (e & He & Hin)%list_elem_of_fmap.
    destruct (Hreg e Hin) as [Hlt _]. rewrite <- He in Hlt. lia. }
  case_decide as Hc.
  - split.
    + intros r Hr. state_simpl. unfold group in *. cbn.
      rewrite !lookup_insert_ne by lia. apply Hfresh. lia.
    + intros e. state_simpl. rewrite JsMap_set_absent by done.
      intros [Hin| ->%list_elem_of_singleton]%elem_of_app.
      * destruct (Hreg e Hin) as [Hlt Hmem]. split; [lia|].
        intros u. unfold group in *. cbn.
        rewrite !lookup_insert_ne by lia. apply Hmem.
      * cbn [fst snd]. split; [lia|]. intros u. unfold group. cbn.
        rewrite lookup_insert_eq. cbn. unfold group. cbn.
        rewrite lookup_insert_eq. cbn. unfold group in *. cbn.
        rewrite (Hfresh (uuid s)) by lia. unfold members. cbn. set_solver.
  - split.
    + intros r Hr. state_simpl. unfold group in *. cbn.
      rewrite !lookup_insert_ne by lia. apply Hfresh. lia.
    + intros e. state_simpl. intros Hin.
      destruct (Hreg e Hin) as [Hlt Hmem]. split; [lia|].
      intros u. unfold group in *. cbn.
      rewrite !lookup_insert_ne by lia. apply Hmem.
Qed.

Lemma run_group_invariant op s :
  group_invariant s → group_invariant (run CONFIG op s).
Proof.
  intros Hinv. destruct op; cbn [run];
    try (by apply join_queue_group_invariant);
    (eapply narrows_group_invariant; [|exact Hinv]).
  all: try (unfold cleanup, webrtc_offer, webrtc_answer, webrtc_ice_candidate,
              typing, connect; eauto 10 with narrows).
Qed.

Lemma reachable_group_invariant ops :
  group_invariant (run_all CONFIG ops initial_state).
Proof.
  induction ops as [|op ops IH] using rev_ind.
  - split; [done|]. intros e He. inversion He.
  - rewrite run_all_snoc. by apply run_group_invariant.
Qed.

Lemma reachable_group ops rid room :
  let s := run_all CONFIG ops initial_state in
  (rid, room) ∈ activeRooms s →
  group rid s = {[socketId (user1 room); socketId (user2 room)]}.
Proof.
  intros s Hin.
  destruct (reachable_invariants CONFIG ops) as [_ [_ Hok]].
  destruct (reachable_group_invariant ops) as [_ Hreg].
  destruct (Hok _ Hin) as [_ Hmem]. destruct (Hreg _ Hin) as [_ Hsub].
  cbn [fst snd] in *. apply set_eq. intros u. split.
  - intros Hu%Hsub. apply members_elem in Hu. set_solver.
  - intros Hu. apply Hmem, members_elem. set_solver.
Qed.

End GroupInvariant.

Section Delivery.
Variable CONFIG : Config.

Lemma partner_group (g : gset string) room h :
  socketId (user1 room) ≠ socketId (user2 room) →
  h ∈ members room →
  g = {[socketId (user1 room); socketId (user2 room)]} →
  g = {[h; partnerSocketId room h]}
  ∧ g ∖ {[h]} = {[partnerSocketId room h]}
  ∧ partnerSocketId room h ∈ members room
  ∧ partnerSocketId room h ≠ h.
Proof.
  intros Hne Hh ->. unfold partnerSocketId.
  apply members_elem in Hh.
  destruct (decide (socketId (user1 room) = h)) as [<-|Hn].
  - split_and!; [done| |apply members_elem; by right|done].
    apply set_eq. set_solver.
  - destruct Hh as [->| ->]; [done|].
    split_and!; [| |apply members_elem; by left|done];
      apply set_eq; set_solver.
Qed.

(** X6. A successful match on the production server, from any state a
    history of events leads to: the candidate leaves the queue and the
    requester does not enter it, one new session with a fresh id is
    registered next to the sessions that exist, both connections are
    bound to it, its group holds exactly these two, and each receives
    [match-found] with the room id, the shared interests and the
    other's public profile. *)
Theorem join_queue_creates_session (ops : list Op) (h : string)
  (userData : option UserData) (now : Z) (d : Draw) (validData : Profile)
  (m : Match) :
  let s := run_all CONFIG ops initial_state in
  let s' := join_queue CONFIG h userData now d s in
  let user := mkUser validData now in
  validateUserData CONFIG userData = inr validData →
  JsMap.has h (waitingUsers s) = false →
  socketToRoom s !! h = None →
  findMatch user h d (waitingUsers s) = Some m →
  m_socketId m ∈ sockets s →
  waitingUsers s' = JsMap.delete (m_socketId m) (waitingUsers s)
  ∧ (h ∉ JsMap.keys (waitingUsers s'))
  ∧ (m_socketId m ∉ JsMap.keys (waitingUsers s'))
  ∧ (uuid s ∉ JsMap.keys (activeRooms s))
  ∧ activeRooms s'
    = activeRooms s ++
      [(uuid s, {| user1 := {| socketId := h; profile := user |};
                   user2 := {| socketId := m_socketId m;
                               profile := m_user m |};
                   createdAt := now |})]
  ∧ socketToRoom s'
    = <[m_socketId m := uuid s]> (<[h := uuid s]> (socketToRoom s))
  ∧ group (uuid s) s' = {[h; m_socketId m]}
  ∧ uuid s' = S (uuid s)
  ∧ outbox s'
    = outbox s ++
      [({[h]}, EvMatchFound (uuid s) (partnerOf (m_user m))
                 (sharedInterests user (m_user m)));
       ({[m_socketId m]},
        EvMatchFound (uuid s) (partnerOf user)
          (sharedInterests user (m_user m)))].
Proof.
  intros s s' user Hv Hq Hb Hm Hc.
  destruct (reachable_invariants CONFIG ops) as [Hqi Hsi].
  pose proof (reachable_binding_invariant CONFIG ops) as Hbi.
  fold s in Hqi, Hsi, Hbi.
  assert (uuid s ∉ JsMap.keys (activeRooms s)) as Hfresh.
  { intros (e & He & Hin)%list_elem_of_fmap.
    destruct Hsi as [_ Hok]. destruct (Hok e Hin) as [_ Hmem].
    destruct (Hmem (socketId (user1 e.2))) as [Hbound _]; [left|].
    destruct (Hbi _ _ Hbound) as [Hlt _]. rewrite <- He in Hlt. lia. }
  pose proof (findMatch_commonInterests _ _ _ _ _ Hm) as Hci.
  pose proof (findMatch_in_queue _ _ _ _ _ Hm) as [Hmq Hmh].
  assert (s' = join_queue CONFIG h userData now d s) as Hs' by done.
  unfold join_queue in Hs'. rewrite Hv, Hq, Hb in Hs'.
  rewrite bool_decide_eq_false_2 in Hs' by (by intros [? ?]).
  cbn [orb] in Hs'. fold user in Hs'. rewrite Hm in Hs'. cbv zeta in Hs'.
  rewrite decide_True in Hs' by done.
  assert (group (uuid s) s' = {[h; m_socketId m]}) as Hgroup.
  { pose proof (reachable_group CONFIG (ops ++ [OpJoinQueue h userData now d])
                  (uuid s)
                  {| user1 := {| socketId := h; profile := user |};
                     user2 := {| socketId := m_socketId m;
                                 profile := m_user m |};
                     createdAt := now |}) as Hg.
    cbv zeta in Hg. rewrite run_all_snoc in Hg. cbn [run] in Hg.
    apply Hg. change (run_all CONFIG ops initial_state) with s.
    change (join_queue CONFIG h userData now d s) with s'.
    rewrite Hs'. state_simpl.
    rewrite JsMap_set_absent by done. apply elem_of_app. right. left. }
  split_and!; [..|exact Hgroup| |]; rewrite ?Hs'; state_simpl.
  - done.
  - rewrite JsMap_keys_delete. intros [_ Hin]%list_elem_of_filter.
    by apply JsMap_has_false in Hq.
  - rewrite JsMap_keys_delete. by intros [Hne _]%list_elem_of_filter.
  - done.
  - by apply JsMap_set_absent.
  - done.
  - done.
  - by rewrite <- app_assoc, Hci.
Qed.

(** X7. In every state a history of events leads to, the registry of
    sessions, the bindings and the Socket.IO groups agree: a registered
    session has two distinct members, both bound to it, its group holds
    exactly these two, and its id has been handed out; every binding
    points to a registered session of which the bound connection is a
    member; and no connection is a member of two registered sessions. *)
Theorem sessions_consistent (ops : list Op) :
  let s := run_all CONFIG ops initial_state in
  (∀ roomId room,
     (roomId, room) ∈ activeRooms s →
     socketId (user1 room) ≠ socketId (user2 room)
     ∧ socketToRoom s !! socketId (user1 room) = Some roomId
     ∧ socketToRoom s !! socketId (user2 room) = Some roomId
     ∧ group roomId s = {[socketId (user1 room); socketId (user2 room)]}
     ∧ (roomId < uuid s)%nat
     ∧ JsMap.get roomId (activeRooms s) = Some room)
  ∧ (∀ h roomId,
       socketToRoom s !! h = Some roomId →
       ∃ room, JsMap.get roomId (activeRooms s) = Some room
         ∧ h ∈ members room)
  ∧ (∀ r1 room1 r2 room2 u,
       (r1, room1) ∈ activeRooms s → (r2, room2) ∈ activeRooms s →
       u ∈ members room1 → u ∈ members room2 →
       r1 = r2 ∧ room1 = room2).
Proof.
  intros s.
  destruct (reachable_invariants CONFIG ops) as [_ Hsi].
  pose proof (reachable_binding_invariant CONFIG ops) as Hbi.
  pose proof (reachable_group_invariant CONFIG ops) as [_ Hreg].
  fold s in Hsi, Hbi, Hreg. pose proof Hsi as [Hnd Hok].
  split_and!.
  - intros rid room Hin. destruct (Hok _ Hin) as [Hne Hmem].
    destruct (Hreg _ Hin) as [Hlt _]. cbn [fst snd] in *.
    split_and!; [done|apply Hmem; left|apply Hmem; right; left| |done|].
    + by apply (reachable_group CONFIG ops).
    + by apply JsMap_elem_get.
  - intros h rid Hb. by apply bound_member.
  - intros r1 room1 r2 room2 u H1 H2 Hu1 Hu2.
    destruct (Hok _ H1) as [_ Hm1]. destruct (Hok _ H2) as [_ Hm2].
    destruct (Hm1 u Hu1) as [Hb1 _]. destruct (Hm2 u Hu2) as [Hb2 _].
    cbn [fst snd] in *. rewrite Hb1 in Hb2. injection Hb2 as <-.
    split; [done|].
    pose proof (same_key_same_entry _ _ _ Hnd H1 H2 eq_refl) as Heq.
    by injection Heq.
Qed.

(** X8. In every state a history of events leads to, a message of a
    bound connection that passes the rate limiter and the validation is
    delivered, as one [new-message], to the sender and its partner and
    to nobody else; the session it is bound to is always registered, so
    that [Chat room no longer exists] is not the answer.  The message
    carries the sender's id, the time of the call and the next id of
    the id supply, which then moves on. *)
Theorem send_message_reaches_session (ops : list Op) (h : string)
  (data : Payload) (now : Z) (roomId : nat) :
  let s := run_all CONFIG ops initial_state in
  let s' := send_message CONFIG h data now s in
  (checkRateLimit CONFIG h (isMediaOf data) now s).1 = true →
  validateMessage CONFIG data = None →
  socketToRoom s !! h = Some roomId →
  ∃ room,
    JsMap.get roomId (activeRooms s) = Some room
    ∧ h ∈ members room
    ∧ partnerSocketId room h ∈ members room
    ∧ partnerSocketId room h ≠ h
    ∧ outbox s'
      = outbox s ++
        [({[h; partnerSocketId room h]},
          EvNewMessage {| msg_id := uuid s; senderId := h;
                          content := default "" (payload_content data);
                          msg_type := type_or_text data;
                          timestamp := now |})]
    ∧ is_Some (payload_content data)
    ∧ uuid s' = S (uuid s).
Proof.
  intros s s' Hrate Hvalid Hb.
  destruct (reachable_invariants CONFIG ops) as [_ Hsi].
  pose proof (reachable_binding_invariant CONFIG ops) as Hbi.
  fold s in Hsi, Hbi.
  destruct (bound_member s h roomId Hsi Hbi Hb) as (room & Hget & Hmem).
  exists room.
  pose proof (JsMap_get_Some_elem _ _ _ Hget) as Hin.
  pose proof (reachable_group CONFIG ops roomId room Hin) as Hg.
  destruct Hsi as [_ Hok]. destruct (Hok _ Hin) as [Hne _]. cbn [snd] in Hne.
  destruct (partner_group (group roomId s) room h Hne Hmem Hg)
    as (Hg1 & _ & Hp & Hph).
  assert (JsMap.has roomId (activeRooms s) = true) as Hhas.
  { unfold JsMap.has. rewrite Hget. by apply bool_decide_eq_true_2. }
  split_and!; try done.
  - unfold s'. rewrite (send_message_relayed CONFIG h data now s roomId)
      by done. by rewrite Hg1.
  - destruct data as [| |t [c|]]; [done|done|by eexists|].
    unfold validateMessage in Hvalid. by case_match.
  - pose proof (checkRateLimit_outbox CONFIG h (isMediaOf data) now s)
      as (_ & Hsr & Har).
    unfold s', send_message.
    destruct data as [| |t c]; [done|done|].
    destruct (checkRateLimit CONFIG h _ now s) as [allowed s1] eqn:Hcall.
    cbn [fst snd] in *. subst allowed. cbn [negb].
    rewrite Hvalid, Hsr, Hb, Har, Hhas. cbn [negb]. state_simpl.
    unfold checkRateLimit in Hcall. injection Hcall as _ <-.
    f_equal. apply with_rateLimitMap_fields.
Qed.

(** X9. The typing indicator and the three WebRTC signalling events of
    a bound connection are relayed, in every state a history of events
    leads to, to its partner and to nobody else, not even the sender,
    and change nothing in the server's state; those of a connection
    that is not bound are dropped without an answer. *)
Theorem signalling_reaches_partner_only (ops : list Op) (h : string) :
  let s := run_all CONFIG ops initial_state in
  match socketToRoom s !! h with
  | Some roomId =>
    ∃ room,
      JsMap.get roomId (activeRooms s) = Some room
      ∧ h ∈ members room
      ∧ partnerSocketId room h ∈ members room
      ∧ partnerSocketId room h ≠ h
      ∧ (∀ isTyping,
           typing h isTyping s
           = emit (partnerSocketId room h) (EvPartnerTyping isTyping) s)
      ∧ (∀ offer,
           webrtc_offer h (Some offer) s
           = emit (partnerSocketId room h) (EvWebrtcOffer offer h) s)
      ∧ (∀ answer,
           webrtc_answer h (Some answer) s
           = emit (partnerSocketId room h) (EvWebrtcAnswer answer h) s)
      ∧ (∀ candidate,
           webrtc_ice_candidate h (Some candidate) s
           = emit (partnerSocketId room h)
               (EvWebrtcIceCandidate candidate h) s)
  | None =>
    ∀ isTyping data,
      typing h isTyping s = s ∧ webrtc_offer h data s = s
      ∧ webrtc_answer h data s = s ∧ webrtc_ice_candidate h data s = s
  end.
Proof.
  intros s.
  destruct (socketToRoom s !! h) as [roomId|] eqn:Hb.
  - destruct (reachable_invariants CONFIG ops) as [_ Hsi].
    pose proof (reachable_binding_invariant CONFIG ops) as Hbi.
    fold s in Hsi, Hbi.
    destruct (bound_member s h roomId Hsi Hbi Hb) as (room & Hget & Hmem).
    exists room.
    pose proof (JsMap_get_Some_elem _ _ _ Hget) as Hin.
    pose proof (reachable_group CONFIG ops roomId room Hin) as Hg.
    destruct Hsi as [_ Hok]. destruct (Hok _ Hin) as [Hne _]. cbn [snd] in Hne.
    destruct (partner_group (group roomId s) room h Hne Hmem Hg)
      as (_ & Hg1 & Hp & Hph).
    assert (JsMap.has roomId (activeRooms s) = true) as Hhas.
    { unfold JsMap.has. rewrite Hget. by apply bool_decide_eq_true_2. }
    assert (∀ ev, relay_to_partner h (Some ev) s
                  = emit (partnerSocketId room h) ev s) as Hrelay.
    { intros ev. unfold relay_to_partner, broadcast_to, emit.
      by rewrite Hb, Hhas, Hg1. }
    split_and!; try done; intros; apply Hrelay.
  - intros isTyping data.
    unfold typing, webrtc_offer, webrtc_answer, webrtc_ice_candidate,
      relay_to_partner.
    by rewrite Hb.
Qed.

End Delivery.

(** ** Histories that Socket.IO can produce *)

Create HintDb confined.

Section Admissible.
Variable CONFIG : Config.
Variable S : gset string.

Lemma confined_with_outbox o s :
  confined S s → confined S (with_outbox o s).
Proof. done. Qed.

Lemma confined_with_uuid n s :
  confined S s → confined S (with_uuid n s).
Proof. done. Qed.

Lemma confined_with_activeRooms a s :
  confined S s → confined S (with_activeRooms a s).
Proof. done. Qed.

Lemma confined_with_sockets k s :
  confined S s → confined S (with_sockets k s).
Proof. done. Qed.

Lemma confined_waiting_delete k s :
  confined S s →
  confined S (with_waitingUsers (JsMap.delete k (waitingUsers s)) s).
Proof.
  intros (Hw & Hrest). split; [|done]. intros h. state_simpl.
  rewrite JsMap_keys_delete. intros [_ Hin]%list_elem_of_filter. by apply Hw.
Qed.

Lemma confined_waiting_set h u s :
  h ∈ S → confined S s →
  confined S (with_waitingUsers (JsMap.set h u (waitingUsers s)) s).
Proof.
  intros Hh (Hw & Hrest). split; [|done]. intros h'. state_simpl.
  rewrite JsMap_keys_set. case_decide; [apply Hw|].
  intros [Hin| ->%list_elem_of_singleton]%elem_of_app; [by apply Hw|done].
Qed.

Lemma confined_binding_delete k s :
  confined S s →
  confined S (with_socketToRoom (delete k (socketToRoom s)) s).
Proof.
  intros (Hw & Hb & Hrest). split_and!; [done| |apply Hrest..].
  intros h [r Hr]. cbn in Hr. apply lookup_delete_Some in Hr as [_ Hr].
  apply Hb. by eexists.
Qed.

Lemma confined_binding_delete2 k1 k2 s :
  confined S s →
  confined S (with_socketToRoom (delete k2 (delete k1 (socketToRoom s))) s).
Proof.
  intros (Hw & Hb & Hrest). split_and!; [done| |apply Hrest..].
  intros h [r Hr]. cbn in Hr. apply lookup_delete_Some in Hr as [_ Hr].
  apply lookup_delete_Some in Hr as [_ Hr]. apply Hb. by eexists.
Qed.

Lemma confined_bindings m s :
  (∀ h, is_Some (m !! h) → h ∈ S) →
  confined S s → confined S (with_socketToRoom m s).
Proof. intros Hm (Hw & Hb & Hrest). split_and!; [done|exact Hm|apply Hrest..]. Qed.

Lemma confined_binding_insert2 h1 h2 r s :
  h1 ∈ S → h2 ∈ S → confined S s →
  confined S (with_socketToRoom (<[h2 := r]> (<[h1 := r]> (socketToRoom s))) s).
Proof.
  intros H1 H2 (Hw & Hb & Hrest). split_and!; [done| |apply Hrest..].
  intros h [r' Hr]. cbn in Hr.
  apply lookup_insert_Some in Hr as [[<- _]|[_ Hr]]; [done|].
  apply lookup_insert_Some in Hr as [[<- _]|[_ Hr]]; [done|].
  apply Hb. by eexists.
Qed.

Lemma confined_messageRateLimits_delete k s :
  confined S s →
  confined S (with_messageRateLimits (delete k (messageRateLimits s)) s).
Proof.
  intros (Hw & Hb & Hm & Hrest). split_and!; [done|done| |apply Hrest..].
  intros h [r Hr]. cbn in Hr. apply lookup_delete_Some in Hr as [_ Hr].
  apply Hm. by eexists.
Qed.

Lemma confined_mediaRateLimits_delete k s :
  confined S s →
  confined S (with_mediaRateLimits (delete k (mediaRateLimits s)) s).
Proof.
  intros (Hw & Hb & Hm & Hd & Hrest). split_and!; [done|done|done| |done].
  intros h [r Hr]. cbn in Hr. apply lookup_delete_Some in Hr as [_ Hr].
  apply Hd. by eexists.
Qed.

Lemma confined_messageRateLimits_purge now w s :
  confined S s →
  confined S (with_messageRateLimits (purgeLimits now w (messageRateLimits s)) s).
Proof.
  intros (Hw & Hb & Hm & Hrest). split_and!; [done|done| |apply Hrest..].
  intros h [r Hr]. cbn in Hr. apply map_lookup_filter_Some in Hr as [Hr _].
  apply Hm. by eexists.
Qed.

Lemma confined_mediaRateLimits_purge now w s :
  confined S s →
  confined S (with_mediaRateLimits (purgeLimits now w (mediaRateLimits s)) s).
Proof.
  intros (Hw & Hb & Hm & Hd & Hrest). split_and!; [done|done|done| |done].
  intros h [r Hr]. cbn in Hr. apply map_lookup_filter_Some in Hr as [Hr _].
  apply Hd. by eexists.
Qed.

Lemma confined_rateLimit_insert isMedia h l s :
  h ∈ S → confined S s →
  confined S (with_rateLimitMap isMedia (<[h := l]> (rateLimitMap isMedia s)) s).
Proof.
  intros Hh (Hw & Hb & Hm & Hd & Hg). destruct isMedia; cbn.
  - split_and!; [done|done|done| |done].
    intros h' [r Hr]. cbn in Hr.
    apply lookup_insert_Some in Hr as [[<- _]|[_ Hr]]; [done|].
    apply Hd. by eexists.
  - split_and!; [done|done| |done|done].
    intros h' [r Hr]. cbn in Hr.
    apply lookup_insert_Some in Hr as [[<- _]|[_ Hr]]; [done|].
    apply Hm. by eexists.
Qed.

Lemma confined_leave_if_connected h rid s :
  confined S s → confined S (leave_if_connected h rid s).
Proof.
  intros (Hw & Hb & Hm & Hd & Hg). unfold leave_if_connected.
  case_decide; [|done]. split_and!; [done..|].
  intros r. unfold group. cbn.
  destruct (decide (r = rid)) as [->|Hne].
  - rewrite lookup_insert_eq. cbn. specialize (Hg rid). set_solver.
  - rewrite lookup_insert_ne by done. apply Hg.
Qed.

Lemma confined_join h rid s :
  h ∈ S → confined S s → confined S (join h rid s).
Proof.
  intros Hh (Hw & Hb & Hm & Hd & Hg). split_and!; [done..|].
  intros r. rewrite group_join. case_decide; [|apply Hg].
  specialize (Hg rid). set_solver.
Qed.

Lemma confined_foldl {A} (f : State → A → State) (l : list A) :
  (∀ s x, confined S s → confined S (f s x)) →
  ∀ s, confined S s → confined S (foldl f s l).
Proof.
  intros Hf. induction l as [|x l IH]; intros s Hs; [done|].
  cbn. apply IH. by apply Hf.
Qed.

Hint Resolve confined_with_outbox confined_with_uuid confined_with_activeRooms
  confined_with_sockets confined_waiting_delete confined_waiting_set
  confined_binding_delete confined_binding_delete2 confined_binding_insert2
  confined_messageRateLimits_delete confined_mediaRateLimits_delete
  confined_messageRateLimits_purge confined_mediaRateLimits_purge
  confined_rateLimit_insert confined_leave_if_connected confined_join
  : confined.

Ltac confined_by_unfolding :=
  cbv beta delta
    [emit emit_to broadcast_to leave_queue
     relay_to_partner webrtc_offer webrtc_answer webrtc_ice_candidate typing
     unbind_and_leave end_chat unbind_partner on_disconnect
     checkRateLimit
     send_message evictStaleRoom evictOldestRoom cleanupRateLimits] zeta;
  repeat (case_match || case_decide); simplify_eq;
  eauto 20 with confined.

Lemma confined_leave_queue h s :
  confined S s → confined S (leave_queue h s).
Proof. intros. confined_by_unfolding. Qed.

Lemma confined_send_message h data now s :
  h ∈ S → confined S s → confined S (send_message CONFIG h data now s).
Proof. intros. confined_by_unfolding. Qed.

Lemma confined_relay_to_partner h ev s :
  confined S s → confined S (relay_to_partner h ev s).
Proof. intros. confined_by_unfolding. Qed.

Lemma confined_end_chat h s :
  confined S s → confined S (end_chat h s).
Proof. intros. confined_by_unfolding. Qed.

Lemma confined_on_disconnect h s :
  confined S s → confined S (on_disconnect h s).
Proof. intros. confined_by_unfolding. Qed.

Lemma confined_cleanupWaitingUsers now s :
  confined S s → confined S (cleanupWaitingUsers CONFIG now s).
Proof.
  intros. apply confined_foldl; [|done].
  intros ? [? ?] ?. confined_by_unfolding.
Qed.

Lemma confined_cleanupStaleRooms now s :
  confined S s → confined S (cleanupStaleRooms CONFIG now s).
Proof.
  intros. apply confined_foldl; [|done].
  intros ? [? ?] ?. confined_by_unfolding.
Qed.

Lemma confined_cleanupRateLimits now s :
  confined S s → confined S (cleanupRateLimits CONFIG now s).
Proof. intros. confined_by_unfolding. Qed.

Lemma confined_enforceMemoryLimits s :
  confined S s → confined S (enforceMemoryLimits CONFIG s).
Proof.
  intros Hs. unfold enforceMemoryLimits, enforceWaitingLimit, enforceRoomLimit.
  assert (∀ l s1, confined S s1 →
            confined S (foldl (λ s (e : string * User),
                         with_waitingUsers (JsMap.delete e.1 (waitingUsers s)) s)
                       s1 l)) as Hw.
  { intros l s1 ?. apply confined_foldl; [|done]. intros. eauto with confined. }
  assert (∀ l s1, confined S s1 → confined S (foldl evictOldestRoom s1 l)) as Hr.
  { intros l s1 ?. apply confined_foldl; [|done].
    intros ? [? ?] ?. confined_by_unfolding. }
  repeat case_decide; repeat case_match; simplify_eq; eauto.
Qed.

Lemma confined_join_queue h userData now d s :
  h ∈ S → sockets s = S → confined S s →
  confined S (join_queue CONFIG h userData now d s).
Proof.
  intros Hh HS Hs. unfold join_queue.
  destruct (validateUserData CONFIG userData) as [e|validData];
    [cbv beta delta [emit]; eauto with confined|].
  destruct (_ || _); [cbv beta delta [emit]; eauto with confined|].
  destruct (findMatch _ _ _ _) as [m|];
    [|cbv beta delta [emit] zeta; eauto 10 with confined].
  cbv zeta. case_decide as Hc.
  - cbn [sockets join with_rooms with_waitingUsers with_uuid] in Hc.
    rewrite HS in Hc. cbv beta delta [emit] zeta.
    apply confined_with_outbox, confined_with_outbox, confined_bindings.
    + intros h' [r Hr].
      cbn [socketToRoom join with_rooms with_waitingUsers with_uuid
           with_activeRooms] in Hr.
      apply lookup_insert_Some in Hr as [[<- _]|[_ Hr]]; [done|].
      apply lookup_insert_Some in Hr as [[<- _]|[_ Hr]]; [done|].
      destruct Hs as (_ & Hb & _). apply Hb. by eexists.
    + eauto 10 with confined.
  - cbv beta delta [emit] zeta. eauto 10 with confined.
Qed.

End Admissible.

Section AdmissibleHistories.
Variable CONFIG : Config.

Lemma confined_mono (S S' : gset string) s :
  S ⊆ S' → confined S s → confined S' s.
Proof.
  intros Hsub (Hw & Hb & Hm & Hd & Hg).
  split_and!; intros; try (apply Hsub; eauto). specialize (Hg r). set_solver.
Qed.

Lemma sockets_leave_if_connected h rid s :
  sockets (leave_if_connected h rid s) = sockets s.
Proof. apply leave_if_connected_fields. Qed.

Lemma sockets_with_rateLimitMap isMedia m s :
  sockets (with_rateLimitMap isMedia m s) = sockets s.
Proof. by destruct isMedia. Qed.

Lemma sockets_foldl {A} (f : State → A → State) (l : list A) :
  (∀ s x, sockets (f s x) = sockets s) →
  ∀ s, sockets (foldl f s l) = sockets s.
Proof.
  intros Hf. induction l as [|x l IH]; intros s; [done|].
  cbn. by rewrite IH, Hf.
Qed.

Ltac sockets_by_unfolding :=
  cbv beta delta
    [emit emit_to broadcast_to leave_queue
     relay_to_partner webrtc_offer webrtc_answer webrtc_ice_candidate typing
     unbind_and_leave end_chat unbind_partner on_disconnect
     checkRateLimit join_queue
     send_message evictStaleRoom evictOldestRoom cleanupRateLimits] zeta;
  repeat (case_match || case_decide); simplify_eq;
  repeat first
    [ rewrite sockets_leave_if_connected
    | rewrite sockets_with_rateLimitMap
    | progress cbn [sockets with_waitingUsers with_activeRooms
        with_socketToRoom with_messageRateLimits with_mediaRateLimits
        with_rooms with_uuid with_outbox join] ];
  try done.

Lemma sockets_on_disconnect h s : sockets (on_disconnect h s) = sockets s.
Proof. sockets_by_unfolding. Qed.

Lemma sockets_cleanupWaitingUsers now s :
  sockets (cleanupWaitingUsers CONFIG now s) = sockets s.
Proof. apply sockets_foldl. intros ? [? ?]. sockets_by_unfolding. Qed.

Lemma sockets_cleanupStaleRooms now s :
  sockets (cleanupStaleRooms CONFIG now s) = sockets s.
Proof. apply sockets_foldl. intros ? [? ?]. sockets_by_unfolding. Qed.

Lemma sockets_enforceMemoryLimits s :
  sockets (enforceMemoryLimits CONFIG s) = sockets s.
Proof.
  unfold enforceMemoryLimits, enforceWaitingLimit, enforceRoomLimit.
  assert (∀ l s1,
            sockets (foldl (λ s (e : string * User),
                        with_waitingUsers (JsMap.delete e.1 (waitingUsers s)) s)
                      s1 l) = sockets s1) as Hw.
  { intros l s1. by apply sockets_foldl. }
  assert (∀ l s1, sockets (foldl evictOldestRoom s1 l) = sockets s1) as Hr.
  { intros l s1. apply sockets_foldl. intros ? [? ?]. sockets_by_unfolding. }
  repeat case_decide; repeat case_match; simplify_eq; rewrite ?Hr, ?Hw; done.
Qed.

Lemma sockets_run op s :
  match op with
  | OpConnect h => sockets (run CONFIG op s) = {[h]} ∪ sockets s
  | OpDisconnect h => sockets (run CONFIG op s) = sockets s ∖ {[h]}
  | _ => sockets (run CONFIG op s) = sockets s
  end.
Proof.
  destruct op; cbn [run]; try (by sockets_by_unfolding).
  - unfold disconnect. by rewrite sockets_on_disconnect.
  - apply sockets_cleanupWaitingUsers.
  - apply sockets_cleanupStaleRooms.
  - apply sockets_enforceMemoryLimits.
  - unfold cleanup. rewrite sockets_enforceMemoryLimits.
    unfold cleanupRateLimits. cbn [sockets with_mediaRateLimits
      with_messageRateLimits].
    by rewrite sockets_cleanupStaleRooms, sockets_cleanupWaitingUsers.
Qed.

Lemma on_disconnect_fields h s :
  let s' := on_disconnect h s in
  waitingUsers s' = JsMap.delete h (waitingUsers s)
  ∧ messageRateLimits s' = delete h (messageRateLimits s)
  ∧ mediaRateLimits s' = delete h (mediaRateLimits s)
  ∧ socketToRoom s' !! h = None.
Proof.
  cbv zeta. unfold on_disconnect, unbind_partner, leave_if_connected.
  cbv zeta.
  repeat (case_match || case_decide); simplify_eq; state_simpl;
    split_and!; try done; by rewrite ?lookup_delete_eq.
Qed.

(** What the ['disconnect'] handler leaves of the connection. *)
Lemma disconnect_forgets_connection h s :
  let s' := disconnect h s in
  (h ∉ JsMap.keys (waitingUsers s'))
  ∧ socketToRoom s' !! h = None
  ∧ messageRateLimits s' !! h = None
  ∧ mediaRateLimits s' !! h = None
  ∧ (h ∉ sockets s')
  ∧ ∀ r, h ∉ group r s'.
Proof.
  cbv zeta. unfold disconnect.
  destruct (on_disconnect_fields h (transport_close h s))
    as (Hw & Hm & Hd & Hb).
  rewrite Hw, Hm, Hd, Hb, sockets_on_disconnect.
  split_and!.
  - rewrite JsMap_keys_delete. by intros [? _]%list_elem_of_filter.
  - done.
  - apply lookup_delete_eq.
  - apply lookup_delete_eq.
  - cbn. set_solver.
  - intros r Hr.
    destruct (narrows_on_disconnect h _ _ (narrows_refl (transport_close h s)))
      as (Hg' & _).
    apply Hg' in Hr. rewrite group_transport_close in Hr. set_solver.
Qed.

Lemma disconnect_all_connected h s :
  all_connected s → all_connected (disconnect h s).
Proof.
  intros Hs. pose proof Hs as (Hw & Hb & Hm & Hd & Hg).
  destruct (disconnect_forgets_connection h s)
    as (Fw & Fb & Fm & Fd & _ & Fg).
  assert (confined (sockets s) (disconnect h s))
    as (Cw & Cb & Cm & Cd & Cg).
  { unfold disconnect. apply confined_on_disconnect.
    split_and!; try done. intros r. rewrite group_transport_close.
    specialize (Hg r). set_solver. }
  unfold all_connected.
  pose proof (sockets_run (OpDisconnect h) s) as Hsock. cbn [run] in Hsock.
  rewrite Hsock.
  split_and!.
  - intros k Hk. specialize (Cw k Hk).
    assert (k ≠ h) by (by intros ->). set_solver.
  - intros k Hk. specialize (Cb k Hk).
    assert (k ≠ h) by (intros ->; rewrite Fb in Hk; by destruct Hk).
    set_solver.
  - intros k Hk. specialize (Cm k Hk).
    assert (k ≠ h) by (intros ->; rewrite Fm in Hk; by destruct Hk).
    set_solver.
  - intros k Hk. specialize (Cd k Hk).
    assert (k ≠ h) by (intros ->; rewrite Fd in Hk; by destruct Hk).
    set_solver.
  - intros r k Hk. specialize (Cg r k Hk).
    assert (k ≠ h) by (intros ->; by apply (Fg r)).
    set_solver.
Qed.

Lemma run_all_connected op s :
  enabled s op = true → all_connected s → all_connected (run CONFIG op s).
Proof.
  intros Hen Hs. unfold all_connected.
  destruct op; try (by apply disconnect_all_connected);
    try (apply bool_decide_eq_true_1 in Hen).
  - cbn [run]. unfold connect. apply confined_with_sockets.
    eapply confined_mono; [|exact Hs]. cbn. set_solver.
  - rewrite (sockets_run (OpJoinQueue h userData now d) s). cbn [run].
    by apply confined_join_queue.
  - rewrite (sockets_run (OpLeaveQueue h) s). cbn [run].
    by apply confined_leave_queue.
  - rewrite (sockets_run (OpSendMessage h data now) s). cbn [run].
    by apply confined_send_message.
  - rewrite (sockets_run (OpWebrtcOffer h data) s). cbn [run].
    by apply confined_relay_to_partner.
  - rewrite (sockets_run (OpWebrtcAnswer h data) s). cbn [run].
    by apply confined_relay_to_partner.
  - rewrite (sockets_run (OpWebrtcIceCandidate h data) s). cbn [run].
    by apply confined_relay_to_partner.
  - rewrite (sockets_run (OpEndChat h) s). cbn [run].
    by apply confined_end_chat.
  - rewrite (sockets_run (OpTyping h isTyping) s). cbn [run].
    by apply confined_relay_to_partner.
  - rewrite (sockets_run (OpCleanupWaitingUsers now) s). cbn [run].
    by apply confined_cleanupWaitingUsers.
  - rewrite (sockets_run (OpCleanupStaleRooms now) s). cbn [run].
    by apply confined_cleanupStaleRooms.
  - rewrite (sockets_run (OpCleanupRateLimits now) s). cbn [run].
    by apply confined_cleanupRateLimits.
  - rewrite (sockets_run OpEnforceMemoryLimits s). cbn [run].
    by apply confined_enforceMemoryLimits.
  - rewrite (sockets_run (OpCleanup now) s). cbn [run]. unfold cleanup.
    by apply confined_enforceMemoryLimits, confined_cleanupRateLimits,
      confined_cleanupStaleRooms, confined_cleanupWaitingUsers.
Qed.

Lemma admissible_all_connected ops : ∀ s,
  admissible CONFIG ops s = true → all_connected s →
  all_connected (run_all CONFIG ops s).
Proof.
  induction ops as [|op ops IH]; intros s Hadm Hs; [done|].
  cbn in Hadm. apply andb_true_iff in Hadm as [Hen Hadm].
  cbn. apply IH; [done|]. by apply run_all_connected.
Qed.

(** X10. After a history in which every event comes from a connected
    socket and every new connection has an unused id, the server holds
    nothing of a closed connection: every queued connection, every bound
    connection, every member of a registered session, every connection
    with a rate-limit window and every member of a Socket.IO group is
    connected.  A candidate that [findMatch] selects in such a state is
    therefore connected, so the [join-queue] handler creates the
    session. *)
Theorem admissible_history_all_connected (ops : list Op) :
  let s := run_all CONFIG ops initial_state in
  admissible CONFIG ops initial_state = true →
  all_connected s
  ∧ (∀ roomId room u,
       (roomId, room) ∈ activeRooms s → u ∈ members room → u ∈ sockets s)
  ∧ (∀ user h d m,
       findMatch user h d (waitingUsers s) = Some m →
       m_socketId m ∈ sockets s).
Proof.
  intros s Hadm.
  assert (all_connected s) as Hs.
  { apply admissible_all_connected; [done|].
    split_and!.
    - intros k Hk. by apply elem_of_nil in Hk.
    - intros k [? Hk]. unfold initial_state in Hk. state_simpl.
      by rewrite lookup_empty in Hk.
    - intros k [? Hk]. unfold initial_state in Hk. state_simpl.
      by rewrite lookup_empty in Hk.
    - intros k [? Hk]. unfold initial_state in Hk. state_simpl.
      by rewrite lookup_empty in Hk.
    - intros r. unfold group, initial_state. state_simpl.
      by rewrite lookup_empty. }
  split; [done|]. pose proof Hs as (Hw & Hb & _). split.
  - intros rid room u Hin Hu.
    destruct (reachable_invariants CONFIG ops) as [_ [_ Hok]].
    destruct (Hok _ Hin) as [_ Hmem]. destruct (Hmem u Hu) as [Hbound _].
    apply Hb. by eexists.
  - intros user h d m Hm. apply Hw.
    by destruct (findMatch_in_queue _ _ _ _ _ Hm).
Qed.

(** X11. Whatever the state, after the ['disconnect'] handler the
    connection is gone from the queue, the bindings, both rate-limit
    maps, the connected sockets and every group; after a history of
    events it is also a member of no registered session. *)
Theorem disconnect_forgets (ops : list Op) (h : string) :
  (∀ s,
     let s' := disconnect h s in
     (h ∉ JsMap.keys (waitingUsers s'))
     ∧ socketToRoom s' !! h = None
     ∧ messageRateLimits s' !! h = None
     ∧ mediaRateLimits s' !! h = None
     ∧ (h ∉ sockets s')
     ∧ ∀ r, h ∉ group r s')
  ∧ (let s' := disconnect h (run_all CONFIG ops initial_state) in
     ∀ roomId room, (roomId, room) ∈ activeRooms s' → h ∉ members room).
Proof.
  split; [apply disconnect_forgets_connection|].
  intros s' rid room Hin Hh. subst s'.
  destruct (disconnect_forgets_connection h (run_all CONFIG ops initial_state))
    as (_ & Hb & _).
  destruct (reachable_invariants CONFIG (ops ++ [OpDisconnect h]))
    as [_ [_ Hok]].
  rewrite run_all_snoc in Hok. cbn [run] in Hok.
  destruct (Hok _ Hin) as [_ Hmem]. destruct (Hmem h Hh) as [Hbound _].
  cbn [fst] in Hbound. by rewrite Hb in Hbound.
Qed.

End AdmissibleHistories.

(** ** The periodic sweeps *)

Section Trimming.
Context {K V : Type} `{EqDecision K}.
Variable key : K * V → Z.
Implicit Types (l : list (K * V)) (e : K * V).

Lemma insertByKey_ascending e l :
  ascending key l → ascending key (insertByKey key e l).
Proof.
  induction l as [|y l IH]; intros Hl; [by split|].
  destruct Hl as [Hy Hl]. cbn [insertByKey]. case_decide as Hle.
  - split; [|by split]. constructor; [done|].
    eapply Forall_impl; [exact Hy|]. cbn. intros z Hz. lia.
  - split; [|by apply IH].
    apply Forall_forall. intros z Hz.
    rewrite (insertByKey_Permutation key e l) in Hz.
    apply elem_of_cons in Hz as [->|Hz]; [lia|].
    by apply (proj1 (Forall_forall _ _) Hy).
Qed.

Lemma sortByKey_ascending l : ascending key (sortByKey key l).
Proof.
  induction l as [|e l IH]; [done|]. cbn. by apply insertByKey_ascending.
Qed.

Lemma ascending_app l1 l2 e1 e2 :
  ascending key (l1 ++ l2) → e1 ∈ l1 → e2 ∈ l2 → key e1 <= key e2.
Proof.
  induction l1 as [|x l1 IH]; intros Hl H1 H2; [by apply elem_of_nil in H1|].
  destruct Hl as [Hx Hl]. apply elem_of_cons in H1 as [->|H1].
  - apply (proj1 (Forall_forall _ _) Hx). apply elem_of_app. by right.
  - by apply IH.
Qed.

Lemma filter_not_in_take l n :
  NoDup l.*1 → filter (λ e, e.1 ∉ (take n l).*1) l = drop n l.
Proof.
  revert n. induction l as [|x l IH]; intros n Hnd; [by destruct n|].
  rewrite fmap_cons in Hnd. apply NoDup_cons in Hnd as [Hx Hnd].
  destruct n as [|n].
  - cbn [take drop]. apply filter_all. intros ? _. apply not_elem_of_nil.
  - cbn [take drop]. rewrite fmap_cons.
    rewrite filter_cons_False by (intros Hn; apply Hn; left).
    rewrite <- (IH n Hnd). apply filter_ext_in. intros y Hy.
    rewrite not_elem_of_cons. split; [tauto|]. intros Hn. split; [|done].
    intros Heq. apply Hx. rewrite <- Heq. apply list_elem_of_fmap. by exists y.
Qed.

Lemma same_key_same_entry' l e e' :
  NoDup (JsMap.keys l) → e ∈ l → e' ∈ l → e.1 = e'.1 → e = e'.
Proof.
  intros Hnd He He' Hk. destruct e as [k v], e' as [k' v']. cbn in Hk. subst k'.
  apply (JsMap_elem_get _ _ _ Hnd) in He, He'. congruence.
Qed.

(** Deleting the keys of the first [n] entries in ascending order of
    [key] from a map without duplicate keys. *)
Lemma trim_oldest l n :
  NoDup (JsMap.keys l) → (n ≤ length l)%nat →
  let kept := filter (λ e, e.1 ∉ (take n (sortByKey key l)).*1) l in
  length kept = (length l - n)%nat
  ∧ ∀ e e', e ∈ l → e ∉ kept → e' ∈ kept → key e <= key e'.
Proof.
  intros Hnd Hn kept.
  pose proof (sortByKey_Permutation key l) as Hperm.
  assert (NoDup (sortByKey key l).*1) as Hnd2.
  { unfold JsMap.keys in Hnd. by rewrite Hperm. }
  assert (kept ≡ₚ drop n (sortByKey key l)) as Hkept.
  { rewrite <- (filter_not_in_take (sortByKey key l) n) by done.
    unfold kept. by rewrite Hperm. }
  split.
  - rewrite Hkept, length_drop. by rewrite Hperm.
  - intros e e' He Hout Hin.
    apply (ascending_app (take n (sortByKey key l)) (drop n (sortByKey key l))).
    + rewrite take_drop. apply sortByKey_ascending.
    + destruct (decide (e.1 ∈ (take n (sortByKey key l)).*1)) as [Hk|Hno].
      * apply list_elem_of_fmap in Hk as (e'' & Heq & Hin'').
        assert (e'' ∈ l) as He''.
        { rewrite <- Hperm. by eapply subseteq_take. }
        by rewrite (same_key_same_entry' l e e'' Hnd He He'' Heq).
      * exfalso. apply Hout. by apply list_elem_of_filter.
    + by rewrite <- Hkept.
Qed.

End Trimming.

Section Sweeps.
Variable CONFIG : Config.

Lemma with_waitingUsers_id s : with_waitingUsers (waitingUsers s) s = s.
Proof. by destruct s. Qed.

Lemma foldl_waiting_delete (ks : list string) : ∀ s,
  foldl (λ s k, with_waitingUsers (JsMap.delete k (waitingUsers s)) s) s ks
  = with_waitingUsers (filter (λ e, e.1 ∉ ks) (waitingUsers s)) s.
Proof.
  induction ks as [|k ks IH]; intros s.
  - cbn [foldl]. rewrite filter_all; [by rewrite with_waitingUsers_id|].
    intros ? _. apply not_elem_of_nil.
  - cbn [foldl]. rewrite IH. cbn [waitingUsers with_waitingUsers].
    unfold with_waitingUsers at 1. cbn. unfold with_waitingUsers. f_equal.
    unfold JsMap.delete. rewrite list_filter_filter.
    apply filter_ext_in. intros e _. rewrite not_elem_of_cons. tauto.
Qed.

Lemma cleanupWaitingUsers_foldl now l : ∀ s,
  foldl (λ s '(socketId, user),
           if decide (now - joinedAt user > QUEUE_TIMEOUT CONFIG)
           then with_waitingUsers (JsMap.delete socketId (waitingUsers s)) s
           else s) s l
  = foldl (λ s k, with_waitingUsers (JsMap.delete k (waitingUsers s)) s) s
      (filter (λ e : string * User,
                 now - joinedAt e.2 > QUEUE_TIMEOUT CONFIG) l).*1.
Proof.
  induction l as [|[k u] l IH]; intros s; [done|].
  cbn [foldl]. rewrite filter_cons. cbn [snd].
  case_decide; [|apply IH]. rewrite fmap_cons. cbn [foldl fst]. apply IH.
Qed.

(** The queue sweep on a queue without duplicate ids. *)
Lemma cleanupWaitingUsers_spec now s :
  NoDup (JsMap.keys (waitingUsers s)) →
  cleanupWaitingUsers CONFIG now s
  = with_waitingUsers
      (filter (λ e, ¬ now - joinedAt e.2 > QUEUE_TIMEOUT CONFIG)
         (waitingUsers s)) s.
Proof.
  intros Hnd. unfold cleanupWaitingUsers.
  rewrite cleanupWaitingUsers_foldl, foldl_waiting_delete. f_equal.
  apply filter_ext_in. intros e He. split.
  - intros Hk Hout. apply Hk, list_elem_of_fmap. exists e. split; [done|].
    by apply list_elem_of_filter.
  - intros Hin (e' & Hk & [Hout He']%list_elem_of_filter)%list_elem_of_fmap.
    by rewrite (same_key_same_entry' _ e e' Hnd He He' Hk) in Hin.
Qed.

(** X12. In every state a history of events leads to, the queue sweep
    removes exactly the entries that joined more than [QUEUE_TIMEOUT]
    ago, keeps the others in their order, and does nothing else: the
    removed connections are not notified. *)
Theorem cleanupWaitingUsers_removes_expired (ops : list Op) (now : Z) :
  let s := run_all CONFIG ops initial_state in
  cleanupWaitingUsers CONFIG now s
  = with_waitingUsers
      (filter (λ e, ¬ now - joinedAt e.2 > QUEUE_TIMEOUT CONFIG)
         (waitingUsers s)) s.
Proof.
  intros s. apply cleanupWaitingUsers_spec.
  by destruct (reachable_invariants CONFIG ops) as [[Hnd _] _].
Qed.

Lemma rateLimitMap_cleanupRateLimits isMedia now s :
  rateLimitMap isMedia (cleanupRateLimits CONFIG now s)
  = purgeLimits now (rateWindow CONFIG isMedia) (rateLimitMap isMedia s).
Proof. by destruct isMedia. Qed.

(** X13. Purging the rate-limit maps never changes what the limiter
    answers afterwards, nor the window it stores: an entry is purged
    only when its window began more than ten window durations ago, and
    such a window is expired for every later call. *)
Theorem cleanupRateLimits_transparent (h : string) (isMedia : bool)
  (now now' : Z) (s : State) :
  0 <= rateWindow CONFIG isMedia → now <= now' →
  let purged := cleanupRateLimits CONFIG now s in
  (checkRateLimit CONFIG h isMedia now' purged).1
    = (checkRateLimit CONFIG h isMedia now' s).1
  ∧ rateLimitMap isMedia (checkRateLimit CONFIG h isMedia now' purged).2 !! h
    = rateLimitMap isMedia (checkRateLimit CONFIG h isMedia now' s).2 !! h.
Proof.
  intros HW Hnow purged.
  destruct (checkRateLimit_spec CONFIG h isMedia now' purged) as [Hs1 Ha1].
  destruct (checkRateLimit_spec CONFIG h isMedia now' s) as [Hs2 Ha2].
  cbv zeta in *. rewrite Hs1, Ha1, Hs2, Ha2.
  assert (currentWindow CONFIG isMedia now' (rateLimitMap isMedia purged !! h)
          = currentWindow CONFIG isMedia now' (rateLimitMap isMedia s !! h))
    as ->; [|done].
  unfold purged. rewrite rateLimitMap_cleanupRateLimits. unfold purgeLimits.
  destruct (rateLimitMap isMedia s !! h) as [old|] eqn:Hold.
  - destruct (decide (now - windowStart old > rateWindow CONFIG isMedia * 10))
      as [Hexp|Hlive].
    + rewrite (proj2 (map_lookup_filter_None _ _ _)).
      2:{ right. intros x Hx. rewrite Hold in Hx. injection Hx as <-.
          cbn. by intros Hn. }
      rewrite currentWindow_live by (cbn; lia).
      rewrite currentWindow_expired by (cbn; lia). done.
    + erewrite (proj2 (map_lookup_filter_Some _ _ _ _)); [done|].
      split; [done|]. done.
  - rewrite (proj2 (map_lookup_filter_None _ _ _)); [done|]. by left.
Qed.

End Sweeps.

Section Ceilings.
Variable CONFIG : Config.

Lemma foldl_evictOldestRoom l : ∀ s,
  activeRooms (foldl evictOldestRoom s l)
    = filter (λ e, e.1 ∉ l.*1) (activeRooms s)
  ∧ waitingUsers (foldl evictOldestRoom s l) = waitingUsers s.
Proof.
  induction l as [|[rid room] l IH]; intros s.
  - cbn [foldl]. split; [|done]. symmetry. apply filter_all.
    intros ? _. apply not_elem_of_nil.
  - cbn [foldl]. destruct (IH (evictOldestRoom s (rid, room))) as [-> ->].
    split; [|done]. cbn [evictOldestRoom activeRooms with_activeRooms].
    unfold JsMap.delete. rewrite list_filter_filter.
    apply filter_ext_in. intros e _. rewrite fmap_cons, not_elem_of_cons.
    cbn. tauto.
Qed.

(** What a ceiling leaves of a map without duplicate keys. *)
Lemma trimmed {K V} `{EqDecision K} (key : K * V → Z) (l : list (K * V))
    (ceiling : Z) :
  NoDup (JsMap.keys l) → 0 <= ceiling →
  let kept :=
    if decide (Z.of_nat (length l) > ceiling)
    then filter (λ e, e.1 ∉ (take (Z.to_nat (Z.of_nat (length l) - ceiling))
                               (sortByKey key l)).*1) l
    else l in
  Z.of_nat (length kept) = Z.min (Z.of_nat (length l)) ceiling
  ∧ kept `sublist_of` l
  ∧ ∀ e e', e ∈ l → e ∉ kept → e' ∈ kept → key e <= key e'.
Proof.
  intros Hnd Hc kept. unfold kept. case_decide as Hover.
  - destruct (trim_oldest key l (Z.to_nat (Z.of_nat (length l) - ceiling)) Hnd)
      as [Hlen Hold]; [lia|].
    cbv zeta in Hlen, Hold. split_and!; [lia|apply sublist_filter|done].
  - split_and!; [lia|done|]. intros e e' He Hout. by destruct Hout.
Qed.

Lemma enforceMemoryLimits_spec s :
  0 <= MAX_WAITING_USERS CONFIG →
  let s' := enforceMemoryLimits CONFIG s in
  waitingUsers s'
  = (if decide (Z.of_nat (length (waitingUsers s)) > MAX_WAITING_USERS CONFIG)
     then filter (λ e, e.1 ∉ (take (Z.to_nat (Z.of_nat (length (waitingUsers s))
                                               - MAX_WAITING_USERS CONFIG))
                                (sortByKey (λ e : string * User, joinedAt e.2)
                                   (waitingUsers s))).*1) (waitingUsers s)
     else waitingUsers s)
  ∧ activeRooms s'
    = (if decide (Z.of_nat (length (activeRooms s)) > MAX_ACTIVE_ROOMS CONFIG)
       then filter (λ e, e.1 ∉ (take (Z.to_nat (Z.of_nat (length (activeRooms s))
                                                 - MAX_ACTIVE_ROOMS CONFIG))
                                  (sortByKey (λ e : nat * Room, createdAt e.2)
                                     (activeRooms s))).*1) (activeRooms s)
       else activeRooms s).
Proof.
  intros Hc. cbv zeta. unfold enforceMemoryLimits, enforceWaitingLimit.
  destruct (decide (Z.of_nat (length (waitingUsers s))
                    > MAX_WAITING_USERS CONFIG)) as [Hw|Hw].
  - rewrite bool_decide_eq_false_2.
    2:{ rewrite (sortByKey_Permutation _ (waitingUsers s)). lia. }
    rewrite <- (foldl_fmap
                 (λ s k, with_waitingUsers (JsMap.delete k (waitingUsers s)) s)
                 s _ fst).
    rewrite foldl_waiting_delete. unfold enforceRoomLimit.
    cbn [activeRooms waitingUsers with_waitingUsers].
    case_decide.
    + by destruct (foldl_evictOldestRoom
                     (take (Z.to_nat (Z.of_nat (length (activeRooms s))
                                      - MAX_ACTIVE_ROOMS CONFIG))
                        (sortByKey (λ e : nat * Room, createdAt e.2)
                           (activeRooms s)))
                     (with_waitingUsers
                        (filter (λ e, e.1 ∉ (take (Z.to_nat
                                  (Z.of_nat (length (waitingUsers s))
                                   - MAX_WAITING_USERS CONFIG))
                            (sortByKey (λ e : string * User, joinedAt e.2)
                               (waitingUsers s))).*1) (waitingUsers s)) s))
        as [-> ->].
    + done.
  - unfold enforceRoomLimit. case_decide; [|done].
    by destruct (foldl_evictOldestRoom
                   (take (Z.to_nat (Z.of_nat (length (activeRooms s))
                                    - MAX_ACTIVE_ROOMS CONFIG))
                      (sortByKey (λ e : nat * Room, createdAt e.2)
                         (activeRooms s))) s) as [-> ->].
Qed.

Lemma waitingUsers_cleanupStaleRooms now s :
  waitingUsers (cleanupStaleRooms CONFIG now s) = waitingUsers s.
Proof.
  unfold cleanupStaleRooms.
  apply (foldl_preserves (λ s', waitingUsers s' = waitingUsers s)); [|done].
  intros s1 [rid room] <-.
  pose proof (evictStaleRoom_fields CONFIG now s1 rid room) as Hf.
  cbv zeta in Hf. case_decide; [apply Hf|by rewrite Hf].
Qed.

(** What [enforceMemoryLimits] leaves of a queue and a registry without
    duplicate keys. *)
Lemma enforceMemoryLimits_trims s :
  NoDup (JsMap.keys (waitingUsers s)) → NoDup (JsMap.keys (activeRooms s)) →
  0 <= MAX_WAITING_USERS CONFIG → 0 <= MAX_ACTIVE_ROOMS CONFIG →
  let s' := enforceMemoryLimits CONFIG s in
  Z.of_nat (length (waitingUsers s'))
    = Z.min (Z.of_nat (length (waitingUsers s))) (MAX_WAITING_USERS CONFIG)
  ∧ Z.of_nat (length (activeRooms s'))
    = Z.min (Z.of_nat (length (activeRooms s))) (MAX_ACTIVE_ROOMS CONFIG)
  ∧ waitingUsers s' `sublist_of` waitingUsers s
  ∧ activeRooms s' `sublist_of` activeRooms s
  ∧ (∀ e e', e ∈ waitingUsers s → e ∉ waitingUsers s' → e' ∈ waitingUsers s' →
       joinedAt e.2 <= joinedAt e'.2)
  ∧ (∀ e e', e ∈ activeRooms s → e ∉ activeRooms s' → e' ∈ activeRooms s' →
       createdAt e.2 <= createdAt e'.2).
Proof.
  intros Hndw Hndr Hw Hr s'.
  destruct (enforceMemoryLimits_spec s Hw) as [Hws Hrs]. fold s' in Hws, Hrs.
  destruct (trimmed (λ e : string * User, joinedAt e.2) (waitingUsers s)
              (MAX_WAITING_USERS CONFIG) Hndw Hw) as (W1 & W2 & W3).
  destruct (trimmed (λ e : nat * Room, createdAt e.2) (activeRooms s)
              (MAX_ACTIVE_ROOMS CONFIG) Hndr Hr) as (R1 & R2 & R3).
  cbv zeta in *. rewrite <- Hws in W1, W2, W3. rewrite <- Hrs in R1, R2, R3.
  by split_and!.
Qed.

(** X14. With non-negative ceilings and in every state a history of
    events leads to, [enforceMemoryLimits] cuts the queue and the
    session registry down to their ceilings and no further, keeps the
    order of what it keeps, and removes oldest first: nothing it removes
    is younger than anything it keeps. *)
Theorem enforceMemoryLimits_keeps_newest (ops : list Op) :
  0 <= MAX_WAITING_USERS CONFIG → 0 <= MAX_ACTIVE_ROOMS CONFIG →
  let s := run_all CONFIG ops initial_state in
  let s' := enforceMemoryLimits CONFIG s in
  Z.of_nat (length (waitingUsers s'))
    = Z.min (Z.of_nat (length (waitingUsers s))) (MAX_WAITING_USERS CONFIG)
  ∧ Z.of_nat (length (activeRooms s'))
    = Z.min (Z.of_nat (length (activeRooms s))) (MAX_ACTIVE_ROOMS CONFIG)
  ∧ waitingUsers s' `sublist_of` waitingUsers s
  ∧ activeRooms s' `sublist_of` activeRooms s
  ∧ (∀ e e', e ∈ waitingUsers s → e ∉ waitingUsers s' → e' ∈ waitingUsers s' →
       joinedAt e.2 <= joinedAt e'.2)
  ∧ (∀ e e', e ∈ activeRooms s → e ∉ activeRooms s' → e' ∈ activeRooms s' →
       createdAt e.2 <= createdAt e'.2).
Proof.
  intros Hw Hr s.
  destruct (reachable_invariants CONFIG ops) as [[Hndw _] [Hndr _]].
  by apply enforceMemoryLimits_trims.
Qed.

(** X15. One tick of the periodic cleanup, from any state a history of
    events leads to and with non-negative ceilings: afterwards no queue
    entry is older than [QUEUE_TIMEOUT] and no session older than
    [ROOM_TIMEOUT] at the time of its sweep, and the queue and the
    registry are within their ceilings. *)
Theorem cleanup_tick (ops : list Op) (t1 t2 t3 : Z) :
  0 <= MAX_WAITING_USERS CONFIG → 0 <= MAX_ACTIVE_ROOMS CONFIG →
  let s := run_all CONFIG ops initial_state in
  let s' := enforceMemoryLimits CONFIG
              (cleanupRateLimits CONFIG t3
                 (cleanupStaleRooms CONFIG t2
                    (cleanupWaitingUsers CONFIG t1 s))) in
  (∀ e, e ∈ waitingUsers s' →
     e ∈ waitingUsers s ∧ t1 - joinedAt e.2 <= QUEUE_TIMEOUT CONFIG)
  ∧ (∀ e, e ∈ activeRooms s' →
       e ∈ activeRooms s ∧ t2 - createdAt e.2 <= ROOM_TIMEOUT CONFIG)
  ∧ Z.of_nat (length (waitingUsers s')) <= MAX_WAITING_USERS CONFIG
  ∧ Z.of_nat (length (activeRooms s')) <= MAX_ACTIVE_ROOMS CONFIG
  ∧ (∀ now, cleanup CONFIG now s
            = enforceMemoryLimits CONFIG
                (cleanupRateLimits CONFIG now
                   (cleanupStaleRooms CONFIG now
                      (cleanupWaitingUsers CONFIG now s)))).
Proof.
  intros Hw Hr s s'.
  destruct (reachable_invariants CONFIG
              (ops ++ [OpCleanupWaitingUsers t1; OpCleanupStaleRooms t2;
                       OpCleanupRateLimits t3])) as [[Hndw3 _] [Hndr3 _]].
  pose proof (enforceMemoryLimits_trims _ Hndw3 Hndr3 Hw Hr) as Hlim.
  cbv zeta in Hlim.
  assert (run_all CONFIG
            (ops ++ [OpCleanupWaitingUsers t1; OpCleanupStaleRooms t2;
                     OpCleanupRateLimits t3]) initial_state
          = cleanupRateLimits CONFIG t3
              (cleanupStaleRooms CONFIG t2 (cleanupWaitingUsers CONFIG t1 s)))
    as Hrun.
  { unfold run_all. by rewrite foldl_app. }
  rewrite Hrun in Hlim. fold s' in Hlim.
  destruct Hlim as (L1 & L2 & S1 & S2 & _).
  destruct (reachable_invariants CONFIG ops) as [[Hndw _] _].
  destruct (reachable_invariants CONFIG (ops ++ [OpCleanupWaitingUsers t1]))
    as [_ [Hndr _]].
  rewrite run_all_snoc in Hndr. cbn [run] in Hndr. fold s in Hndw, Hndr.
  assert (waitingUsers (cleanupRateLimits CONFIG t3
            (cleanupStaleRooms CONFIG t2 (cleanupWaitingUsers CONFIG t1 s)))
          = filter (λ e, ¬ t1 - joinedAt e.2 > QUEUE_TIMEOUT CONFIG)
              (waitingUsers s)) as Hq.
  { cbn [cleanupRateLimits waitingUsers with_mediaRateLimits
         with_messageRateLimits].
    rewrite waitingUsers_cleanupStaleRooms.
    by rewrite cleanupWaitingUsers_spec. }
  assert (activeRooms (cleanupRateLimits CONFIG t3
            (cleanupStaleRooms CONFIG t2 (cleanupWaitingUsers CONFIG t1 s)))
          = filter (λ e, ¬ timed_out CONFIG t2 e) (activeRooms s)) as Ha.
  { cbn [cleanupRateLimits activeRooms with_mediaRateLimits
         with_messageRateLimits].
    rewrite activeRooms_cleanupStaleRooms by done.
    by rewrite cleanupWaitingUsers_spec. }
  split_and!.
  - intros e He. eapply elem_of_sublist in He; [|exact S1].
    rewrite Hq in He.
    apply list_elem_of_filter in He as [? ?]. split; [done|lia].
  - intros e He. eapply elem_of_sublist in He; [|exact S2].
    rewrite Ha in He.
    apply list_elem_of_filter in He as [Hn ?]. split; [done|].
    unfold timed_out in Hn. lia.
  - lia.
  - lia.
  - done.
Qed.

End Ceilings.

(** ** Independence, variants and round trips *)

Section Frames.
Variable CONFIG : Config.

(** X16. The limiter keeps one window per connection and traffic class:
    a call for one connection and class changes neither the window
    stored for another connection or the other class, nor the answer
    the limiter gives there. *)
Theorem checkRateLimit_independent (h h' : string) (isMedia isMedia' : bool)
  (now now' : Z) (s : State) :
  (h, isMedia) ≠ (h', isMedia') →
  rateLimitMap isMedia' (checkRateLimit CONFIG h isMedia now s).2 !! h'
    = rateLimitMap isMedia' s !! h'
  ∧ (checkRateLimit CONFIG h' isMedia' now'
       (checkRateLimit CONFIG h isMedia now s).2).1
    = (checkRateLimit CONFIG h' isMedia' now' s).1
  ∧ rateLimitMap isMedia'
      (checkRateLimit CONFIG h' isMedia' now'
         (checkRateLimit CONFIG h isMedia now s).2).2 !! h'
    = rateLimitMap isMedia' (checkRateLimit CONFIG h' isMedia' now' s).2 !! h'.
Proof.
  intros Hne.
  assert (rateLimitMap isMedia' (checkRateLimit CONFIG h isMedia now s).2 !! h'
          = rateLimitMap isMedia' s !! h') as Hsame.
  { unfold checkRateLimit. cbn [snd].
    destruct isMedia, isMedia'; cbn; try done;
      apply lookup_insert_ne; congruence. }
  split; [done|].
  destruct (checkRateLimit_spec CONFIG h' isMedia' now'
              (checkRateLimit CONFIG h isMedia now s).2) as [Hs1 Ha1].
  destruct (checkRateLimit_spec CONFIG h' isMedia' now' s) as [Hs2 Ha2].
  cbv zeta in *. by rewrite Hs1, Ha1, Hs2, Ha2, Hsame.
Qed.

(** X17. The two [join-queue] handlers on one payload, which
    [src/server.js] copies as it arrives ([Basic.copied]) and the
    production handler sanitises, for a requester that is neither queued
    nor bound.  When sanitising leaves the payload as it is and the
    candidate [findMatch] selects is connected, the two handlers produce
    the same state and the same emissions.  When nobody compatible waits,
    both put the requester in the queue, [src/server.js] with the fields
    as they arrived and the production handler with the sanitised
    ones. *)
Theorem join_queue_variants_agree (h : string) (userData : UserData)
  (rawData validData : Profile) (now : Z) (d : Draw) (s : State) :
  Basic.copied userData = Some rawData →
  validateUserData CONFIG (Some userData) = inr validData →
  JsMap.has h (waitingUsers s) = false →
  socketToRoom s !! h = None →
  (rawData = validData →
   (∀ m, findMatch (mkUser validData now) h d (waitingUsers s) = Some m →
         m_socketId m ∈ sockets s) →
   Basic.join_queue h rawData now d s
   = join_queue CONFIG h (Some userData) now d s)
  ∧ (findMatch (mkUser rawData now) h d (waitingUsers s) = None →
     findMatch (mkUser validData now) h d (waitingUsers s) = None →
     waitingUsers (Basic.join_queue h rawData now d s)
     = waitingUsers s ++ [(h, mkUser rawData now)]
     ∧ waitingUsers (join_queue CONFIG h (Some userData) now d s)
       = waitingUsers s ++ [(h, mkUser validData now)]).
Proof.
  intros _ Hv Hq Hb. split.
  - intros -> Hconn. unfold Basic.join_queue, join_queue.
    rewrite Hv, Hq, Hb.
    rewrite bool_decide_eq_false_2 by (by intros [? ?]). cbn [orb].
    destruct (findMatch _ _ _ _) as [m|] eqn:Hm; [|done].
    cbv zeta. pose proof (Hconn m eq_refl) as Hc.
    rewrite (findMatch_commonInterests _ _ _ _ _ Hm).
    state_simpl. destruct (decide (m_socketId m ∈ sockets s)); [|done].
    state_simpl. by destruct (decide (m_socketId m ∈ sockets s)).
  - intros Hraw Hvalid.
    assert (h ∉ JsMap.keys (waitingUsers s)) as Hk
      by (by apply JsMap_has_false).
    unfold Basic.join_queue, join_queue.
    rewrite Hv, Hq, Hb, Hraw, Hvalid.
    rewrite bool_decide_eq_false_2 by (by intros [? ?]). cbn [orb].
    cbv zeta. state_simpl. by rewrite !JsMap_set_absent.
Qed.

Lemma JsMap_delete_set {K V} `{EqDecision K} (k : K) (v : V) m :
  k ∉ JsMap.keys m → JsMap.delete k (JsMap.set k v m) = m.
Proof.
  intros Hk. rewrite JsMap_set_absent by done. unfold JsMap.delete.
  rewrite filter_app, filter_cons_False, filter_nil, app_nil_r
    by (cbn; by intros Hn).
  apply filter_all. intros e He Heq. apply Hk, list_elem_of_fmap.
  by exists e.
Qed.

(** X18. [leave-queue] undoes a [join-queue] that found no partner: the
    state is what it was, but for the [searching] notice that was sent.
    For a connection that is not queued it changes nothing, and it never
    answers. *)
Theorem leave_queue_round_trip (h : string) (s : State) :
  h ∉ JsMap.keys (waitingUsers s) →
  leave_queue h s = s
  ∧ ∀ userData validData now d,
      validateUserData CONFIG userData = inr validData →
      socketToRoom s !! h = None →
      findMatch (mkUser validData now) h d (waitingUsers s) = None →
      join_queue CONFIG h userData now d s
      = emit h EvSearching
          (with_waitingUsers
             (waitingUsers s ++ [(h, mkUser validData now)]) s)
      ∧ leave_queue h (join_queue CONFIG h userData now d s)
        = emit h EvSearching s.
Proof.
  intros Hk. split.
  - unfold leave_queue. rewrite JsMap_delete_absent by done.
    apply with_waitingUsers_id.
  - intros userData validData now d Hv Hb Hm.
    assert (join_queue CONFIG h userData now d s
            = emit h EvSearching
                (with_waitingUsers
                   (JsMap.set h (mkUser validData now) (waitingUsers s)) s))
      as Hj.
    { unfold join_queue. rewrite Hv, Hb, Hm.
      rewrite (proj2 (JsMap_has_false _ _) Hk).
      by rewrite bool_decide_eq_false_2 by (by intros [? ?]). }
    rewrite Hj. split; [by rewrite JsMap_set_absent|].
    unfold leave_queue, emit. cbn [waitingUsers with_waitingUsers with_outbox
      outbox]. rewrite JsMap_delete_set by done.
    unfold with_waitingUsers, with_outbox. cbn. by destruct s.
Qed.

Lemma trimStart_blank x :
  Forall (λ c, is_space c = true) (list_ascii_of_string x) →
  trimStart x = "".
Proof.
  induction x as [|c x IH]; [done|]. cbn. intros [Hc Hx]%Forall_cons.
  rewrite Hc. by apply IH.
Qed.

(** X2. A username that consists of white space only passes the
    validation, which looks at it before trimming, and the sanitised
    username is then empty. *)
Theorem validateUserData_blank_username (ud : UserData) (name : string)
  (p : Profile) :
  ud_username ud = Some name →
  Forall (λ c, is_space c = true) (list_ascii_of_string name) →
  validateUserData CONFIG (Some ud) = inr p →
  pf_username p = "".
Proof.
  intros Hname Hblank. unfold validateUserData. rewrite Hname.
  destruct (decide (name = "")); [done|].
  destruct (decide (strlen name > MAX_USERNAME_LENGTH CONFIG)); [done|].
  destruct (negb _); [done|]. destruct (negb _); [done|].
  destruct (ud_interests ud) as [raw|]; [|done].
  destruct (decide (Z.of_nat (length raw) > MAX_INTERESTS CONFIG)); [done|].
  intros [= <-]. cbn [pf_username]. unfold trim.
  rewrite (trimStart_blank name) by done. cbn.
  by destruct (Z.to_nat _).
Qed.

End Frames.

(** ** The guard of [join-queue] and the limiter's budget *)

Section Guard.
Variable CONFIG : Config.

Lemma JsMap_set_other {K V} `{EqDecision K} (k : K) (v : V) m e :
  e ∈ m → e.1 ≠ k → e ∈ JsMap.set k v m.
Proof.
  induction m as [|[k' v'] m IH]; intros He Hk; [by apply elem_of_nil in He|].
  cbn [JsMap.set]. apply elem_of_cons in He as [->|He].
  - cbn in Hk. rewrite decide_False by done. left.
  - case_decide; [subst; by right|]. right. by apply IH.
Qed.

(** X19. The guard of the production [join-queue] handler answers a
    connection that is queued or bound with an error and changes
    nothing else.  The handler of [src/server.js] has no guard: when a
    bound connection asks again and a candidate is found, it is bound to
    the new session while its old session stays registered with it as a
    member, so that the old session's member is no longer bound to
    it. *)
Theorem join_queue_guard (h : string) (now : Z) (d : Draw) (s : State) :
  (∀ userData validData,
     validateUserData CONFIG userData = inr validData →
     JsMap.has h (waitingUsers s) = true ∨ is_Some (socketToRoom s !! h) →
     join_queue CONFIG h userData now d s
     = emit h (EvError "Already in queue or chat") s)
  ∧ (∀ userData roomId room m,
       socketToRoom s !! h = Some roomId →
       (roomId, room) ∈ activeRooms s →
       h ∈ members room →
       roomId ≠ uuid s →
       findMatch (mkUser userData now) h d (waitingUsers s) = Some m →
       let s' := Basic.join_queue h userData now d s in
       socketToRoom s' !! h = Some (uuid s)
       ∧ (roomId, room) ∈ activeRooms s'
       ∧ ¬ session_invariant s').
Proof.
  split.
  - intros userData validData Hv Hguard. unfold join_queue. rewrite Hv.
    destruct Hguard as [->|Hb]; [done|].
    rewrite (bool_decide_eq_true_2 _ Hb). by rewrite orb_true_r.
  - intros userData roomId room m Hb Hin Hmem Hne Hm s'.
    pose proof (findMatch_in_queue _ _ _ _ _ Hm) as [_ Hmh].
    assert (socketToRoom s' !! h = Some (uuid s)
            ∧ (roomId, room) ∈ activeRooms s') as [Hb' Hin'].
    { unfold s', Basic.join_queue. rewrite Hm. cbv zeta.
      match goal with
      | |- context [if ?c then emit ?k ?ev ?s1 else _] =>
          assert (socketToRoom (if c then emit k ev s1 else s1)
                    = socketToRoom s1
                  ∧ activeRooms (if c then emit k ev s1 else s1)
                    = activeRooms s1) as [-> ->] by (by destruct c)
      end.
      cbn [socketToRoom activeRooms emit with_outbox with_socketToRoom
           with_activeRooms].
      split.
      - rewrite lookup_insert_ne by done. apply lookup_insert_eq.
      - apply JsMap_set_other; [|done]. by case_decide. }
    split_and!; [done|done|].
    intros [_ Hok]. destruct (Hok _ Hin') as [_ Hbound].
    destruct (Hbound h Hmem) as [Hold _]. cbn [fst] in Hold.
    rewrite Hb' in Hold. congruence.
Qed.

(** X20. Every [send-message] event with a payload other than [null]
    or [undefined] counts against the sender's budget, whether it is
    relayed or refused: the limiter's window after the handler is the
    one [checkRateLimit] leaves.  A [null] payload makes the handler
    fail before the limiter is asked; it costs nothing and is answered
    with [Failed to send message]. *)
Theorem send_message_counts (h : string) (data : Payload) (now : Z)
  (s : State) :
  (data ≠ PayNullish →
   messageRateLimits (send_message CONFIG h data now s)
     = messageRateLimits (checkRateLimit CONFIG h (isMediaOf data) now s).2
   ∧ mediaRateLimits (send_message CONFIG h data now s)
     = mediaRateLimits (checkRateLimit CONFIG h (isMediaOf data) now s).2
   ∧ rateLimitMap (isMediaOf data) (send_message CONFIG h data now s) !! h
     = Some {| count :=
                 count (currentWindow CONFIG (isMediaOf data) now
                          (rateLimitMap (isMediaOf data) s !! h)) + 1;
               windowStart :=
                 windowStart (currentWindow CONFIG (isMediaOf data) now
                                (rateLimitMap (isMediaOf data) s !! h)) |})
  ∧ send_message CONFIG h PayNullish now s
    = emit h (EvError "Failed to send message") s.
Proof.
  split; [|done]. intros Hdata.
  assert (messageRateLimits (send_message CONFIG h data now s)
            = messageRateLimits
                (checkRateLimit CONFIG h (isMediaOf data) now s).2
          ∧ mediaRateLimits (send_message CONFIG h data now s)
            = mediaRateLimits
                (checkRateLimit CONFIG h (isMediaOf data) now s).2)
    as [Hmsg Hmed].
  { unfold send_message.
    destruct (checkRateLimit CONFIG h (isMediaOf data) now s)
      as [allowed s1].
    cbn [snd]. destruct data as [| |t c]; [done| |];
      repeat case_match; by split. }
  split_and!; [done|done|].
  destruct (checkRateLimit_spec CONFIG h (isMediaOf data) now s) as [<- _].
  unfold rateLimitMap. destruct (isMediaOf data); by rewrite ?Hmsg, ?Hmed.
Qed.

End Guard.

(** ** Who is left waiting *)

Create HintDb queue_within.

Section Waiting.
Variable CONFIG : Config.
Variable w : list (string * User).

Lemma queue_within_with_outbox o s :
  queue_within w s → queue_within w (with_outbox o s).
Proof. done. Qed.

Lemma queue_within_with_uuid n s :
  queue_within w s → queue_within w (with_uuid n s).
Proof. done. Qed.

Lemma queue_within_with_activeRooms a s :
  queue_within w s → queue_within w (with_activeRooms a s).
Proof. done. Qed.

Lemma queue_within_with_sockets k s :
  queue_within w s → queue_within w (with_sockets k s).
Proof. done. Qed.

Lemma queue_within_with_rooms r s :
  queue_within w s → queue_within w (with_rooms r s).
Proof. done. Qed.

Lemma queue_within_with_socketToRoom m s :
  queue_within w s → queue_within w (with_socketToRoom m s).
Proof. done. Qed.

Lemma queue_within_with_messageRateLimits m s :
  queue_within w s → queue_within w (with_messageRateLimits m s).
Proof. done. Qed.

Lemma queue_within_with_mediaRateLimits m s :
  queue_within w s → queue_within w (with_mediaRateLimits m s).
Proof. done. Qed.

Lemma queue_within_with_rateLimitMap isMedia m s :
  queue_within w s → queue_within w (with_rateLimitMap isMedia m s).
Proof. by destruct isMedia. Qed.

Lemma queue_within_leave_if_connected h rid s :
  queue_within w s → queue_within w (leave_if_connected h rid s).
Proof. unfold leave_if_connected. by case_decide. Qed.

Lemma queue_within_delete k s :
  queue_within w s →
  queue_within w (with_waitingUsers (JsMap.delete k (waitingUsers s)) s).
Proof.
  unfold queue_within. intros Hs. etrans; [|exact Hs].
  apply JsMap_delete_sublist.
Qed.

Lemma queue_within_foldl {A} (f : State → A → State) (l : list A) :
  (∀ s x, queue_within w s → queue_within w (f s x)) →
  ∀ s, queue_within w s → queue_within w (foldl f s l).
Proof.
  intros Hf. induction l as [|x l IH]; intros s Hs; [done|].
  cbn. apply IH. by apply Hf.
Qed.

Hint Resolve queue_within_with_outbox queue_within_with_uuid
  queue_within_with_activeRooms queue_within_with_sockets
  queue_within_with_rooms queue_within_with_socketToRoom
  queue_within_with_messageRateLimits queue_within_with_mediaRateLimits
  queue_within_with_rateLimitMap queue_within_leave_if_connected
  queue_within_delete : queue_within.

Ltac queue_within_by_unfolding :=
  cbv beta delta
    [emit emit_to broadcast_to transport_close connect leave_queue
     relay_to_partner webrtc_offer webrtc_answer webrtc_ice_candidate typing
     unbind_and_leave end_chat unbind_partner on_disconnect disconnect
     checkRateLimit
     send_message evictStaleRoom evictOldestRoom cleanupRateLimits] zeta;
  repeat (case_match || case_decide); simplify_eq;
  eauto 20 with queue_within.

Lemma queue_within_cleanupWaitingUsers now s :
  queue_within w s → queue_within w (cleanupWaitingUsers CONFIG now s).
Proof.
  intros. apply queue_within_foldl; [|done].
  intros ? [? ?] ?. queue_within_by_unfolding.
Qed.

Lemma queue_within_cleanupStaleRooms now s :
  queue_within w s → queue_within w (cleanupStaleRooms CONFIG now s).
Proof.
  intros. apply queue_within_foldl; [|done].
  intros ? [? ?] ?. queue_within_by_unfolding.
Qed.

Lemma queue_within_enforceMemoryLimits s :
  queue_within w s → queue_within w (enforceMemoryLimits CONFIG s).
Proof.
  intros Hs. unfold enforceMemoryLimits, enforceWaitingLimit, enforceRoomLimit.
  assert (∀ l s1, queue_within w s1 →
            queue_within w (foldl (λ s (e : string * User),
                         with_waitingUsers (JsMap.delete e.1 (waitingUsers s)) s)
                       s1 l)) as Hw.
  { intros l s1 ?. apply queue_within_foldl; [|done].
    intros. eauto with queue_within. }
  assert (∀ l s1, queue_within w s1 → queue_within w (foldl evictOldestRoom s1 l))
    as Hr.
  { intros l s1 ?. apply queue_within_foldl; [|done].
    intros ? [? ?] ?. queue_within_by_unfolding. }
  repeat case_decide; repeat case_match; simplify_eq; eauto.
Qed.

(** Every event but [join-queue] leaves in the queue only what was
    there. *)
Lemma queue_within_run op s :
  match op with OpJoinQueue _ _ _ _ => False | _ => True end →
  queue_within w s → queue_within w (run CONFIG op s).
Proof.
  intros Hop Hs. destruct op; try done; cbn [run];
    try (by queue_within_by_unfolding).
  - by apply queue_within_cleanupWaitingUsers.
  - by apply queue_within_cleanupStaleRooms.
  - by apply queue_within_enforceMemoryLimits.
  - unfold cleanup. apply queue_within_enforceMemoryLimits.
    unfold cleanupRateLimits.
    by apply queue_within_with_mediaRateLimits,
      queue_within_with_messageRateLimits, queue_within_cleanupStaleRooms,
      queue_within_cleanupWaitingUsers.
Qed.

End Waiting.

Section WaitingPairs.
Variable CONFIG : Config.

Lemma bidirectionally_compatible_sym u v :
  bidirectionally_compatible u v → bidirectionally_compatible v u.
Proof. by intros [? ?]. Qed.

Lemma no_compatible_pair_sublist w w' :
  w' `sublist_of` w → no_compatible_pair w → no_compatible_pair w'.
Proof.
  intros Hsub Hw e e' He He'. apply Hw; by eapply elem_of_sublist.
Qed.

Lemma join_queue_no_compatible_pair h userData now d s :
  h ∈ sockets s → valid_draw d → all_connected s →
  no_compatible_pair (waitingUsers s) →
  no_compatible_pair (waitingUsers (join_queue CONFIG h userData now d s)).
Proof.
  intros Hh Hd Hconn Hw. unfold join_queue.
  destruct (validateUserData CONFIG userData) as [e|validData]; [done|].
  destruct (JsMap.has h (waitingUsers s)) eqn:Hq; [done|].
  destruct (bool_decide _); [done|]. cbn [orb].
  destruct (findMatch _ _ _ _) as [m|] eqn:Hm.
  - cbv zeta. pose proof (findMatch_in_queue _ _ _ _ _ Hm) as [Hmq _].
    destruct Hconn as [Hin _]. rewrite decide_True by (by apply Hin).
    state_simpl. eapply no_compatible_pair_sublist; [|exact Hw].
    apply JsMap_delete_sublist.
  - cbv zeta. state_simpl.
    apply JsMap_has_false in Hq. rewrite JsMap_set_absent by done.
    pose proof (proj1 (compatibleMatches_nil_iff _ _ _)
                  (findMatch_None_compatible _ _ _ _ Hd Hm)) as Hnone.
    intros e e' [He| ->%list_elem_of_singleton]%elem_of_app
                [He'| ->%list_elem_of_singleton]%elem_of_app Hne.
    + by apply Hw.
    + cbn [fst snd] in *. intros Hc%bidirectionally_compatible_sym.
      apply (Hnone e). by split_and!.
    + cbn [fst snd] in *. intros Hc.
      apply (Hnone e'). split_and!; [done| |done]. by intros Heq.
    + done.
Qed.

Lemma run_no_compatible_pair op s :
  enabled s op = true →
  match op with OpJoinQueue _ _ _ d => valid_draw d | _ => True end →
  all_connected s →
  no_compatible_pair (waitingUsers s) →
  no_compatible_pair (waitingUsers (run CONFIG op s)).
Proof.
  intros Hen Hd Hconn Hw.
  destruct op;
    try (eapply no_compatible_pair_sublist; [|exact Hw];
         apply (queue_within_run CONFIG (waitingUsers s));
           [exact I|unfold queue_within; reflexivity]).
  cbn [run]. apply join_queue_no_compatible_pair; try done.
  by apply bool_decide_eq_true_1 in Hen.
Qed.

Lemma admissible_no_compatible_pair ops : ∀ s,
  admissible CONFIG ops s = true → fair_draws ops →
  all_connected s → no_compatible_pair (waitingUsers s) →
  no_compatible_pair (waitingUsers (run_all CONFIG ops s)).
Proof.
  induction ops as [|op ops IH]; intros s Hadm Hfair Hconn Hw; [done|].
  cbn in Hadm. apply andb_true_iff in Hadm as [Hen Hadm].
  apply Forall_cons in Hfair as [Hd Hfair].
  cbn. apply IH; [done|done| |].
  - by apply run_all_connected.
  - by apply run_no_compatible_pair.
Qed.

Lemma initial_all_connected : all_connected initial_state.
Proof.
  split_and!.
  - intros k Hk. by apply elem_of_nil in Hk.
  - intros k [? Hk]. unfold initial_state in Hk. state_simpl.
    by rewrite lookup_empty in Hk.
  - intros k [? Hk]. unfold initial_state in Hk. state_simpl.
    by rewrite lookup_empty in Hk.
  - intros k [? Hk]. unfold initial_state in Hk. state_simpl.
    by rewrite lookup_empty in Hk.
  - intros r. unfold group, initial_state. state_simpl.
    by rewrite lookup_empty.
Qed.

(** X21. After a history in which every event comes from a connected
    socket, every new connection has an unused id and every random draw
    lies in [0,1), no two connections wait in the queue that the matcher
    would pair: nobody is left waiting while a connection that is
    compatible in both directions waits too. *)
Theorem nobody_waits_beside_a_partner (ops : list Op) :
  admissible CONFIG ops initial_state = true →
  fair_draws ops →
  no_compatible_pair (waitingUsers (run_all CONFIG ops initial_state)).
Proof.
  intros Hadm Hfair.
  apply admissible_no_compatible_pair; [done|done| |].
  - apply initial_all_connected.
  - intros e e' He. by apply elem_of_nil in He.
Qed.

(** X22. When the candidate that [findMatch] selects has lost its
    socket, the production [join-queue] handler drops the candidate from
    the queue, queues the requester and answers [searching], without
    looking for another candidate: a connected partner that is
    compatible with the requester stays in the queue beside it, no
    session is created, and the requester stays joined to the group of
    the room id that was drawn. *)
Theorem join_queue_stale_candidate_no_retry (h : string)
  (userData : option UserData) (now : Z) (d : Draw) (s : State)
  (validData : Profile) (m : Match) (other : string * User) :
  validateUserData CONFIG userData = inr validData →
  JsMap.has h (waitingUsers s) = false →
  socketToRoom s !! h = None →
  findMatch (mkUser validData now) h d (waitingUsers s) = Some m →
  m_socketId m ∉ sockets s →
  eligible (mkUser validData now) h (waitingUsers s) other →
  other.1 ≠ m_socketId m →
  let s' := join_queue CONFIG h userData now d s in
  other ∈ waitingUsers s'
  ∧ (h, mkUser validData now) ∈ waitingUsers s'
  ∧ ¬ no_compatible_pair (waitingUsers s')
  ∧ (m_socketId m ∉ JsMap.keys (waitingUsers s'))
  ∧ activeRooms s' = activeRooms s
  ∧ socketToRoom s' = socketToRoom s
  ∧ outbox s' = outbox s ++ [({[h]}, EvSearching)]
  ∧ h ∈ group (uuid s) s'.
Proof.
  intros Hv Hq Hb Hm Hgone (Hin & Hne & Hcompat) Hother s'.
  destruct (join_queue_stale_candidate CONFIG h userData now d s validData m
              Hv Hq Hb Hm Hgone) as (Hw & Hout & Ha & Hbind & Hrooms).
  fold s' in Hw, Hout, Ha, Hbind, Hrooms.
  apply JsMap_has_false in Hq.
  assert (h ∉ JsMap.keys (JsMap.delete (m_socketId m) (waitingUsers s)))
    as Hq'.
  { rewrite JsMap_keys_delete. by intros [_ ?]%list_elem_of_filter. }
  rewrite JsMap_set_absent in Hw by done.
  assert (other ∈ waitingUsers s') as Ho.
  { rewrite Hw. apply elem_of_app. left. by apply JsMap_elem_of_delete. }
  assert ((h, mkUser validData now) ∈ waitingUsers s') as Hh.
  { rewrite Hw. apply elem_of_app. right. left. }
  split_and!; try done.
  - intros Hpair. by apply (Hpair (h, mkUser validData now) other).
  - intros (e & He & Hx)%list_elem_of_fmap. rewrite Hw in Hx.
    apply elem_of_app in Hx as [[_ Hx]%JsMap_elem_of_delete
                               | ->%list_elem_of_singleton]; [done|].
    cbn in He. by destruct (findMatch_in_queue _ _ _ _ _ Hm) as [_ ?].
  - unfold group. rewrite Hrooms, lookup_insert_eq. cbn. set_solver.
Qed.

Lemma end_chat_fields h s rid room :
  socketToRoom s !! h = Some rid →
  JsMap.get rid (activeRooms s) = Some room →
  activeRooms (end_chat h s) = JsMap.delete rid (activeRooms s)
  ∧ socketToRoom (end_chat h s)
    = delete (socketId (user2 room))
        (delete (socketId (user1 room)) (socketToRoom s)).
Proof.
  intros Hb Hget. unfold end_chat. rewrite Hb. cbv zeta.
  cbn [activeRooms emit_to with_outbox]. rewrite Hget.
  destruct (unbind_and_leave_fields rid room
              (emit_to rid (EvChatEnded "User left the chat") s))
    as (_ & Ha & Hs & _).
  cbn [activeRooms socketToRoom with_activeRooms].
  by rewrite Ha, Hs.
Qed.

Lemma disconnect_fields h s rid room :
  socketToRoom s !! h = Some rid →
  JsMap.get rid (activeRooms s) = Some room →
  activeRooms (disconnect h s) = JsMap.delete rid (activeRooms s)
  ∧ socketToRoom (disconnect h s)
    = delete h (delete (partnerSocketId room h) (socketToRoom s)).
Proof.
  intros Hb Hget. unfold disconnect, on_disconnect. cbv zeta.
  cbn [socketToRoom transport_close with_sockets with_rooms
       with_waitingUsers with_messageRateLimits with_mediaRateLimits].
  rewrite Hb.
  set (s0 := broadcast_to h rid _ _).
  pose proof (unbind_partner_fields h rid s0) as Hf. cbv zeta in Hf.
  assert (activeRooms s0 = activeRooms s) as Ha0 by done.
  assert (socketToRoom s0 = socketToRoom s) as Hs0 by done.
  rewrite Ha0, Hget in Hf.
  destruct Hf as (_ & Ha & _ & _ & _ & p & _ & Hp1 & Hp2 & Hs).
  cbn [activeRooms socketToRoom with_activeRooms with_socketToRoom].
  rewrite Ha, Hs, ?Ha0, ?Hs0. split; [done|].
  unfold partnerSocketId.
  case_decide as Hd; [rewrite (Hp1 Hd)|rewrite (Hp2 Hd)]; done.
Qed.

(** X23. After a history of events, the ['disconnect'] of a connection
    ends its session as [end-chat] does: both leave the same session
    registry and the same bindings. *)
Theorem disconnect_ends_like_end_chat (ops : list Op) (h : string) :
  let s := run_all CONFIG ops initial_state in
  activeRooms (disconnect h s) = activeRooms (end_chat h s)
  ∧ socketToRoom (disconnect h s) = socketToRoom (end_chat h s).
Proof.
  intros s.
  destruct (reachable_invariants CONFIG ops) as [_ Hsi].
  pose proof (reachable_binding_invariant CONFIG ops) as Hbi.
  fold s in Hsi, Hbi.
  destruct (socketToRoom s !! h) as [rid|] eqn:Hb.
  - destruct (bound_member s h rid Hsi Hbi Hb) as (room & Hget & Hmem).
    destruct (end_chat_fields h s rid room Hb Hget) as [-> ->].
    destruct (disconnect_fields h s rid room Hb Hget) as [-> ->].
    split; [done|]. unfold partnerSocketId.
    apply members_elem in Hmem.
    destruct (decide (socketId (user1 room) = h)) as [<-|Hne].
    + apply delete_delete.
    + by destruct Hmem as [->| ->].
  - unfold disconnect, on_disconnect, end_chat. cbv zeta.
    cbn [socketToRoom transport_close with_sockets with_rooms
         with_waitingUsers with_messageRateLimits with_mediaRateLimits].
    by rewrite Hb.
Qed.

End WaitingPairs.

Section WaitTime.
Variable CONFIG : Config.

Lemma waitTime_ceil isMedia :
  rateWindow CONFIG isMedia <= waitTime CONFIG isMedia * 1000
  ∧ waitTime CONFIG isMedia * 1000 < rateWindow CONFIG isMedia + 1000.
Proof.
  unfold waitTime.
  pose proof (Z.div_mod (- rateWindow CONFIG isMedia) 1000 ltac:(lia)).
  pose proof (Z.mod_pos_bound (- rateWindow CONFIG isMedia) 1000 ltac:(lia)).
  lia.
Qed.

(** X24. The seconds that the rate-limit error tells the sender to wait
    are the window duration rounded up, counted from the beginning of
    the window: one millisecond after them the limiter accepts again,
    but at exactly that time, when the window is a whole number of
    seconds, the call still falls into the full window and is
    refused. *)
Theorem rate_limit_wait_time (h : string) (isMedia : bool) (s : State)
  (old : Limits) :
  1 <= rateLimit CONFIG isMedia →
  rateLimitMap isMedia s !! h = Some old →
  rateLimit CONFIG isMedia <= count old →
  let t := windowStart old + waitTime CONFIG isMedia * 1000 in
  (checkRateLimit CONFIG h isMedia (t + 1) s).1 = true
  ∧ (rateWindow CONFIG isMedia mod 1000 = 0 →
     (checkRateLimit CONFIG h isMedia t s).1 = false).
Proof.
  intros HL Hold Hfull t.
  destruct (waitTime_ceil isMedia) as [Hlo Hhi].
  split.
  - destruct (checkRateLimit_spec CONFIG h isMedia (t + 1) s) as [_ ->].
    rewrite Hold, currentWindow_expired by (cbn; lia).
    by apply bool_decide_eq_true_2.
  - intros Hmod.
    assert (waitTime CONFIG isMedia * 1000 = rateWindow CONFIG isMedia) as Hw.
    { unfold waitTime in *.
      pose proof (Z.div_mod (- rateWindow CONFIG isMedia) 1000 ltac:(lia)).
      pose proof (Z.div_mod (rateWindow CONFIG isMedia) 1000 ltac:(lia)).
      pose proof (Z.mod_pos_bound (- rateWindow CONFIG isMedia) 1000
                    ltac:(lia)).
      lia. }
    destruct (checkRateLimit_spec CONFIG h isMedia t s) as [_ ->].
    rewrite Hold, currentWindow_live by (cbn; lia).
    apply bool_decide_eq_false_2. cbn. lia.
Qed.

End WaitTime.

(** ** A matched candidate whose socket is gone, on the two servers *)

Section BasicHistories.











End BasicHistories.



(** ** The properties above on concrete inputs *)

Lemma findMatch_None_iff_witness :
  valid_draw first_draw
  ∧ findMatch al "a" first_draw [("m", al)] = None
  ∧ ∀ entry, ¬ eligible al "a" [("m", al)] entry.
Proof.
  assert (valid_draw first_draw) as Hd by (vm_compute; lia).
  assert (findMatch al "a" first_draw [("m", al)] = None) as Hn
    by (vm_compute; reflexivity).
  split_and!; [exact Hd|exact Hn|].
  exact (proj1 (findMatch_None_iff al "a" first_draw [("m", al)] Hd) Hn).
Defined.

Lemma join_queue_creates_session_witness :
  validateUserData CONFIG_default
    (profile_payload "Bea" "female" "male" ["gaming"; "travel"])
  = inr bea_profile
  ∧ JsMap.has "b" (waitingUsers waiting_state) = false
  ∧ socketToRoom waiting_state !! "b" = None
  ∧ findMatch (mkUser bea_profile 0) "b" first_draw (waitingUsers waiting_state)
    = Some al_match
  ∧ m_socketId al_match ∈ sockets waiting_state
  ∧ socketToRoom
      (join_queue CONFIG_default "b"
         (profile_payload "Bea" "female" "male" ["gaming"; "travel"])
         0 first_draw waiting_state)
    = <[m_socketId al_match := uuid waiting_state]>
        (<["b" := uuid waiting_state]> (socketToRoom waiting_state)).
Proof.
  assert (validateUserData CONFIG_default
            (profile_payload "Bea" "female" "male" ["gaming"; "travel"])
          = inr bea_profile) as H1 by (vm_compute; reflexivity).
  assert (JsMap.has "b" (waitingUsers waiting_state) = false) as H2
    by (vm_compute; reflexivity).
  assert (socketToRoom waiting_state !! "b" = None) as H3
    by (vm_compute; reflexivity).
  assert (findMatch (mkUser bea_profile 0) "b" first_draw
            (waitingUsers waiting_state) = Some al_match) as H4
    by (vm_compute; reflexivity).
  assert (m_socketId al_match ∈ sockets waiting_state) as H5
    by (vm_compute; reflexivity).
  pose proof (join_queue_creates_session CONFIG_default waiting_history "b"
                (profile_payload "Bea" "female" "male" ["gaming"; "travel"])
                0 first_draw bea_profile al_match H1 H2 H3 H4 H5)
    as (_ & _ & _ & _ & _ & H & _).
  exact (conj H1 (conj H2 (conj H3 (conj H4 (conj H5 H))))).
Defined.

Lemma sessions_consistent_witness :
  (0%nat, room0) ∈ activeRooms matched_state
  ∧ group 0%nat matched_state
    = {[socketId (user1 room0); socketId (user2 room0)]}.
Proof.
  assert ((0%nat, room0) ∈ activeRooms matched_state) as Hin.
  { apply (JsMap_get_Some_elem 0%nat room0). vm_compute. reflexivity. }
  destruct (proj1 (sessions_consistent CONFIG_default matched_history)
              0%nat room0 Hin) as (_ & _ & _ & Hg & _).
  exact (conj Hin Hg).
Defined.

Lemma send_message_reaches_session_witness :
  (checkRateLimit CONFIG_default "a" (isMediaOf hi) 5 matched_state).1 = true
  ∧ validateMessage CONFIG_default hi = None
  ∧ socketToRoom matched_state !! "a" = Some 0%nat
  ∧ ∃ room,
      JsMap.get 0%nat (activeRooms matched_state) = Some room
      ∧ outbox (send_message CONFIG_default "a" hi 5 matched_state)
        = outbox matched_state ++
          [({["a"; partnerSocketId room "a"]},
            EvNewMessage {| msg_id := uuid matched_state; senderId := "a";
                            content := default "" (payload_content hi);
                            msg_type := type_or_text hi;
                            timestamp := 5 |})].
Proof.
  assert ((checkRateLimit CONFIG_default "a" (isMediaOf hi) 5 matched_state).1
          = true) as H1 by (vm_compute; reflexivity).
  assert (validateMessage CONFIG_default hi = None) as H2
    by (vm_compute; reflexivity).
  assert (socketToRoom matched_state !! "a" = Some 0%nat) as H3
    by (vm_compute; reflexivity).
  destruct (send_message_reaches_session CONFIG_default matched_history "a" hi
              5 0%nat H1 H2 H3) as (room & Hget & _ & _ & _ & Hout & _).
  exact (conj H1 (conj H2 (conj H3
           (ex_intro _ room (conj Hget Hout))))).
Defined.

Lemma admissible_history_all_connected_witness :
  admissible CONFIG_default matched_history initial_state = true
  ∧ all_connected matched_state.
Proof.
  assert (admissible CONFIG_default matched_history initial_state = true)
    as H by (vm_compute; reflexivity).
  exact (conj H
           (proj1 (admissible_history_all_connected CONFIG_default
                     matched_history H))).
Defined.

Lemma disconnect_forgets_witness :
  socketToRoom matched_state !! "a" = Some 0%nat
  ∧ socketToRoom (disconnect "a" matched_state) !! "a" = None
  ∧ "a" ∉ sockets (disconnect "a" matched_state).
Proof.
  assert (socketToRoom matched_state !! "a" = Some 0%nat) as H
    by (vm_compute; reflexivity).
  destruct (proj1 (disconnect_forgets CONFIG_default [] "a") matched_state)
    as (_ & Hb & _ & _ & Hs & _).
  exact (conj H (conj Hb Hs)).
Defined.

Lemma cleanupRateLimits_transparent_witness :
  0 <= rateWindow CONFIG_default false
  ∧ 10001 <= 10002
  ∧ messageRateLimits
      (cleanupRateLimits CONFIG_default 10001
         (checkRateLimit_seq CONFIG_default "a" false burst initial_state).2)
    !! "a" = None
  ∧ (checkRateLimit CONFIG_default "a" false 10002
       (cleanupRateLimits CONFIG_default 10001
          (checkRateLimit_seq CONFIG_default "a" false burst initial_state).2)).1
    = (checkRateLimit CONFIG_default "a" false 10002
         (checkRateLimit_seq CONFIG_default "a" false burst initial_state).2).1.
Proof.
  assert (0 <= rateWindow CONFIG_default false) as H1
    by (apply Z.leb_le; vm_compute; reflexivity).
  assert (10001 <= 10002) as H2 by lia.
  split_and!; [exact H1|exact H2|vm_compute; reflexivity|].
  exact (proj1 (cleanupRateLimits_transparent CONFIG_default "a" false
                  10001 10002 _ H1 H2)).
Defined.

Lemma enforceMemoryLimits_keeps_newest_witness :
  0 <= MAX_WAITING_USERS CONFIG_one_room
  ∧ 0 <= MAX_ACTIVE_ROOMS CONFIG_one_room
  ∧ length (activeRooms two_rooms_state) = 2%nat
  ∧ Z.of_nat (length (activeRooms
                        (enforceMemoryLimits CONFIG_one_room two_rooms_state)))
    = Z.min (Z.of_nat (length (activeRooms two_rooms_state)))
        (MAX_ACTIVE_ROOMS CONFIG_one_room).
Proof.
  assert (0 <= MAX_WAITING_USERS CONFIG_one_room) as H1
    by (apply Z.leb_le; vm_compute; reflexivity).
  assert (0 <= MAX_ACTIVE_ROOMS CONFIG_one_room) as H2
    by (apply Z.leb_le; vm_compute; reflexivity).
  split_and!; [exact H1|exact H2|vm_compute; reflexivity|].
  exact (proj1 (proj2 (enforceMemoryLimits_keeps_newest CONFIG_one_room
                         two_rooms_history H1 H2))).
Defined.

Lemma cleanup_tick_witness :
  0 <= MAX_WAITING_USERS CONFIG_default
  ∧ 0 <= MAX_ACTIVE_ROOMS CONFIG_default
  ∧ JsMap.get 0%nat (activeRooms chatting_state) = Some room0
  ∧ ∀ e,
      e ∈ activeRooms
            (enforceMemoryLimits CONFIG_default
               (cleanupRateLimits CONFIG_default 1800001
                  (cleanupStaleRooms CONFIG_default 1800001
                     (cleanupWaitingUsers CONFIG_default 1800001
                        (run_all CONFIG_default chatting_history
                           initial_state))))) →
      e ∈ activeRooms (run_all CONFIG_default chatting_history initial_state)
      ∧ 1800001 - createdAt e.2 <= ROOM_TIMEOUT CONFIG_default.
Proof.
  assert (0 <= MAX_WAITING_USERS CONFIG_default) as H1
    by (apply Z.leb_le; vm_compute; reflexivity).
  assert (0 <= MAX_ACTIVE_ROOMS CONFIG_default) as H2
    by (apply Z.leb_le; vm_compute; reflexivity).
  split_and!; [exact H1|exact H2|vm_compute; reflexivity|].
  exact (proj1 (proj2 (cleanup_tick CONFIG_default chatting_history
                         1800001 1800001 1800001 H1 H2))).
Defined.

Lemma checkRateLimit_independent_witness :
  ("a", false) ≠ ("a", true)
  ∧ (checkRateLimit CONFIG_default "a" true 10
       (checkRateLimit CONFIG_default "a" false 9
          (checkRateLimit_seq CONFIG_default "a" false burst initial_state).2).2).1
    = (checkRateLimit CONFIG_default "a" true 10
         (checkRateLimit_seq CONFIG_default "a" false burst initial_state).2).1.
Proof.
  assert (("a", false) ≠ ("a", true)) as H by (intros [=]).
  split; [exact H|].
  exact (proj1 (proj2 (checkRateLimit_independent CONFIG_default "a" "a"
                         false true 9 10 _ H))).
Defined.

Lemma join_queue_variants_agree_witness :
  Basic.copied
    {| ud_username := Some "Bea"; ud_gender := "female";
       ud_preferredGender := "male";
       ud_interests := Some [Some "gaming"; Some "travel"] |}
  = Some bea_profile
  ∧ validateUserData CONFIG_default
      (profile_payload "Bea" "female" "male" ["gaming"; "travel"])
    = inr bea_profile
  ∧ Basic.join_queue "b" bea_profile 0 first_draw waiting_state
    = join_queue CONFIG_default "b"
        (profile_payload "Bea" "female" "male" ["gaming"; "travel"])
        0 first_draw waiting_state
  ∧ Basic.copied padded_al = Some padded_al_profile
  ∧ validateUserData CONFIG_default (Some padded_al) = inr al_profile
  ∧ waitingUsers (Basic.join_queue "b" padded_al_profile 0 first_draw
                    waiting_state)
    = waitingUsers waiting_state ++ [("b", mkUser padded_al_profile 0)]
  ∧ waitingUsers (join_queue CONFIG_default "b" (Some padded_al) 0 first_draw
                    waiting_state)
    = waitingUsers waiting_state ++ [("b", mkUser al_profile 0)].
Proof.
  assert (Basic.copied
            {| ud_username := Some "Bea"; ud_gender := "female";
               ud_preferredGender := "male";
               ud_interests := Some [Some "gaming"; Some "travel"] |}
          = Some bea_profile) as H0 by (vm_compute; reflexivity).
  assert (validateUserData CONFIG_default
            (profile_payload "Bea" "female" "male" ["gaming"; "travel"])
          = inr bea_profile) as H1 by (vm_compute; reflexivity).
  assert (JsMap.has "b" (waitingUsers waiting_state) = false) as H2
    by (vm_compute; reflexivity).
  assert (socketToRoom waiting_state !! "b" = None) as H3
    by (vm_compute; reflexivity).
  assert (findMatch (mkUser bea_profile 0) "b" first_draw
            (waitingUsers waiting_state) = Some al_match) as H4
    by (vm_compute; reflexivity).
  assert (m_socketId al_match ∈ sockets waiting_state) as H5
    by (vm_compute; reflexivity).
  assert (Basic.copied padded_al = Some padded_al_profile) as H6
    by (vm_compute; reflexivity).
  assert (validateUserData CONFIG_default (Some padded_al) = inr al_profile)
    as H7 by (vm_compute; reflexivity).
  assert (findMatch (mkUser padded_al_profile 0) "b" first_draw
            (waitingUsers waiting_state) = None) as H8
    by (vm_compute; reflexivity).
  assert (findMatch (mkUser al_profile 0) "b" first_draw
            (waitingUsers waiting_state) = None) as H9
    by (vm_compute; reflexivity).
  split; [exact H0|]. split; [exact H1|]. split.
  { apply (proj1 (join_queue_variants_agree CONFIG_default "b" _ bea_profile
                    bea_profile 0 first_draw waiting_state H0 H1 H2 H3));
      [reflexivity|].
    intros m Hm. rewrite H4 in Hm. injection Hm as <-. exact H5. }
  split; [exact H6|]. split; [exact H7|].
  exact (proj2 (join_queue_variants_agree CONFIG_default "b" padded_al
                  padded_al_profile al_profile 0 first_draw waiting_state
                  H6 H7 H2 H3) H8 H9).
Defined.

Lemma leave_queue_round_trip_witness :
  ("z" ∉ JsMap.keys (waitingUsers waiting_state))
  ∧ leave_queue "z" waiting_state = waiting_state.
Proof.
  assert ("z" ∉ JsMap.keys (waitingUsers waiting_state)) as H
    by (apply (bool_decide_unpack _); vm_compute; exact I).
  exact (conj H (proj1 (leave_queue_round_trip CONFIG_default "z"
                          waiting_state H))).
Defined.

Lemma validateUserData_blank_username_witness :
  Forall (λ c, is_space c = true) (list_ascii_of_string "  ")
  ∧ validateUserData CONFIG_default (Some blank_name)
    = inr {| pf_username := ""; pf_gender := "male";
             pf_preferredGender := "any"; pf_interests := [] |}
  ∧ pf_username {| pf_username := ""; pf_gender := "male";
                   pf_preferredGender := "any"; pf_interests := [] |} = "".
Proof.
  assert (Forall (λ c, is_space c = true) (list_ascii_of_string "  ")) as H
    by (repeat constructor).
  assert (validateUserData CONFIG_default (Some blank_name)
          = inr {| pf_username := ""; pf_gender := "male";
                   pf_preferredGender := "any"; pf_interests := [] |}) as Hv
    by (vm_compute; reflexivity).
  exact (conj H (conj Hv
           (validateUserData_blank_username CONFIG_default blank_name "  " _
              eq_refl H Hv))).
Defined.

Lemma join_queue_guard_witness :
  socketToRoom third_waiting_state !! "a" = Some 0%nat
  ∧ (0%nat, room0) ∈ activeRooms third_waiting_state
  ∧ join_queue CONFIG_default "a"
      (profile_payload "Al" "male" "female" ["music"; "gaming"]) 30 first_draw
      third_waiting_state
    = emit "a" (EvError "Already in queue or chat") third_waiting_state
  ∧ socketToRoom
      (Basic.join_queue "a" al_profile 30 first_draw third_waiting_state) !! "a"
    = Some (uuid third_waiting_state)
  ∧ ¬ session_invariant
        (Basic.join_queue "a" al_profile 30 first_draw third_waiting_state).
Proof.
  assert (socketToRoom third_waiting_state !! "a" = Some 0%nat) as H1
    by (vm_compute; reflexivity).
  assert ((0%nat, room0) ∈ activeRooms third_waiting_state) as H2.
  { apply (JsMap_get_Some_elem 0%nat room0). vm_compute. reflexivity. }
  assert ("a" ∈ members room0) as H3 by (right; left).
  assert (0%nat ≠ uuid third_waiting_state) as H4
    by (apply (bool_decide_unpack _); vm_compute; exact I).
  assert (findMatch (mkUser al_profile 30) "a" first_draw
            (waitingUsers third_waiting_state)
          = Some {| m_user := {| username := "Cy"; gender := "female";
                                 preferredGender := "male";
                                 interests := ["music"]; joinedAt := 20 |};
                    m_socketId := "c"; m_commonInterests := ["music"] |})
    as H5 by (vm_compute; reflexivity).
  assert (validateUserData CONFIG_default
            (profile_payload "Al" "male" "female" ["music"; "gaming"])
          = inr al_profile) as H6 by (vm_compute; reflexivity).
  destruct (join_queue_guard CONFIG_default "a" 30 first_draw
              third_waiting_state) as [Hprod Hbasic].
  destruct (Hbasic al_profile 0%nat room0 _ H1 H2 H3 H4 H5) as (Hb & _ & Hn).
  exact (conj H1 (conj H2
           (conj (Hprod _ al_profile H6 (or_intror (ex_intro _ _ H1)))
              (conj Hb Hn)))).
Defined.

Lemma send_message_counts_witness :
  PayPrimitive ≠ PayNullish
  ∧ messageRateLimits (send_message CONFIG_default "a" PayPrimitive 0 matched_state)
    = messageRateLimits
        (checkRateLimit CONFIG_default "a" (isMediaOf PayPrimitive) 0
           matched_state).2.
Proof.
  assert (PayPrimitive ≠ PayNullish) as H by (intros [=]).
  exact (conj H
           (proj1 (proj1 (send_message_counts CONFIG_default "a" PayPrimitive 0
                            matched_state) H))).
Defined.

Lemma nobody_waits_beside_a_partner_witness :
  admissible CONFIG_default two_waiting_history initial_state = true
  ∧ fair_draws two_waiting_history
  ∧ JsMap.keys (waitingUsers
                  (run_all CONFIG_default two_waiting_history initial_state))
    = ["a"; "c"]
  ∧ no_compatible_pair
      (waitingUsers (run_all CONFIG_default two_waiting_history initial_state)).
Proof.
  assert (admissible CONFIG_default two_waiting_history initial_state = true)
    as H1 by (vm_compute; reflexivity).
  assert (fair_draws two_waiting_history) as H2.
  { repeat constructor; unfold valid_draw; cbn; lia. }
  split_and!; [exact H1|exact H2|vm_compute; reflexivity|].
  exact (nobody_waits_beside_a_partner CONFIG_default two_waiting_history H1 H2).
Defined.

Lemma join_queue_stale_candidate_no_retry_witness :
  findMatch (mkUser plain_al_profile 5) "a" first_draw
    (waitingUsers ghost_and_bea_state) = Some ghost_match
  ∧ (m_socketId ghost_match ∉ sockets ghost_and_bea_state)
  ∧ "b" ∈ sockets ghost_and_bea_state
  ∧ eligible (mkUser plain_al_profile 5) "a"
      (waitingUsers ghost_and_bea_state) ("b", bea)
  ∧ ("b", bea) ∈ waitingUsers
                   (join_queue CONFIG_default "a" plain_al 5 first_draw
                      ghost_and_bea_state)
  ∧ ("a", mkUser plain_al_profile 5)
    ∈ waitingUsers
        (join_queue CONFIG_default "a" plain_al 5 first_draw
           ghost_and_bea_state)
  ∧ activeRooms (join_queue CONFIG_default "a" plain_al 5 first_draw
                   ghost_and_bea_state)
    = activeRooms ghost_and_bea_state.
Proof.
  assert (validateUserData CONFIG_default plain_al = inr plain_al_profile)
    as H1 by (vm_compute; reflexivity).
  assert (JsMap.has "a" (waitingUsers ghost_and_bea_state) = false) as H2
    by (vm_compute; reflexivity).
  assert (socketToRoom ghost_and_bea_state !! "a" = None) as H3
    by (vm_compute; reflexivity).
  assert (findMatch (mkUser plain_al_profile 5) "a" first_draw
            (waitingUsers ghost_and_bea_state) = Some ghost_match) as H4
    by (vm_compute; reflexivity).
  assert (m_socketId ghost_match ∉ sockets ghost_and_bea_state) as H5
    by (apply (bool_decide_unpack _); vm_compute; exact I).
  assert ("b" ∈ sockets ghost_and_bea_state) as H5'
    by (vm_compute; reflexivity).
  assert (eligible (mkUser plain_al_profile 5) "a"
            (waitingUsers ghost_and_bea_state) ("b", bea)) as H6.
  { unfold eligible, bidirectionally_compatible.
    split_and!; [|done|by right|by right].
    apply (JsMap_get_Some_elem "b" bea). vm_compute. reflexivity. }
  assert (("b", bea).1 ≠ m_socketId ghost_match) as H7 by done.
  destruct (join_queue_stale_candidate_no_retry CONFIG_default "a" plain_al 5
              first_draw ghost_and_bea_state plain_al_profile ghost_match
              ("b", bea) H1 H2 H3 H4 H5 H6 H7)
    as (C1 & C2 & _ & _ & C3 & _).
  exact (conj H4 (conj H5 (conj H5' (conj H6 (conj C1 (conj C2 C3)))))).
Defined.

Lemma rate_limit_wait_time_witness :
  1 <= rateLimit CONFIG_default false
  ∧ rateLimitMap false
      (checkRateLimit_seq CONFIG_default "a" false burst initial_state).2 !! "a"
    = Some {| count := 10; windowStart := 0 |}
  ∧ rateLimitMessage CONFIG_default false
    = "Too many messages. Please wait 1 seconds."
  ∧ (checkRateLimit CONFIG_default "a" false 1000
       (checkRateLimit_seq CONFIG_default "a" false burst initial_state).2).1
    = false
  ∧ (checkRateLimit CONFIG_default "a" false 1001
       (checkRateLimit_seq CONFIG_default "a" false burst initial_state).2).1
    = true.
Proof.
  assert (1 <= rateLimit CONFIG_default false) as H1
    by (apply Z.leb_le; vm_compute; reflexivity).
  assert (rateLimitMap false
            (checkRateLimit_seq CONFIG_default "a" false burst initial_state).2
          !! "a" = Some {| count := 10; windowStart := 0 |}) as H2
    by (vm_compute; reflexivity).
  assert (rateLimit CONFIG_default false
          <= count {| count := 10; windowStart := 0 |}) as H3
    by (apply Z.leb_le; vm_compute; reflexivity).
  assert (rateWindow CONFIG_default false mod 1000 = 0) as H4
    by (vm_compute; reflexivity).
  destruct (rate_limit_wait_time CONFIG_default "a" false _ _ H1 H2 H3)
    as [Hyes Hno].
  split_and!; [exact H1|exact H2|vm_compute; reflexivity|exact (Hno H4)
              |exact Hyes].
Defined.
